(** * topiq-explorer: the topic store and the connection store

    A shallow embedding of

    - [src/stores/topic.store.ts]: the zustand store behind the topic
      views, with its module-level request counter [messageRequestId]
      and its map of in-flight requests [inFlightRequests];
    - [electron/services/connection.store.ts]: the persisted store of
      connection profiles;
    - [src/components/connections/ConnectionForm.tsx]: the form that
      builds the profiles given to that store.

    The renderer runs on one thread: an [async] action runs without
    interruption up to its [await], and again from the settlement of the
    awaited remote call to its next [await] or its end.  The embedding
    makes those two kinds of uninterrupted runs the steps of a
    transition system; the order in which remote calls settle, and what
    they settle with, is chosen by the environment.

    The models come first, module by module; the properties follow. *)

From stdpp Require Import gmap strings list fin_maps pretty.

Local Open Scope string_scope.
Local Open Scope list_scope.
Local Open Scope Z_scope.

(** ** JavaScript values

    What a remote call resolves with is typed [unknown] in the source
    and inspected at run time.  Values that cross the IPC bridge are
    plain data.  The model has the numbers that are safe integers
    ([Number.isSafeInteger]: integers of magnitude below [2^53]), the
    strings whose code units are below 256, arrays with nothing but
    their elements, and objects with their own properties in order. *)

Module JS.

(** [Number.isSafeInteger(n)] *)
Definition safe_integer (n : Z) : Prop := Is_true (Z.abs n <? 2 ^ 53).

#[warnings="-register-all"] Inductive value : Type :=
| Undefined
| Null
| Bool (b : bool)
| Num (n : Z) (safe : safe_integer n)
| Str (s : string)
| Arr (elements : list value)
| Obj (properties : list (string * value)).

(** [ToBoolean]: what [if (v)], [!v], [v && _] and [v || _] test. *)
Definition truthy (v : value) : bool :=
  match v with
  | Undefined | Null => false
  | Bool b => b
  | Num n _ => negb (n =? 0)
  | Str s => negb (String.eqb s "")
  | Arr _ | Obj _ => true
  end.

(** [typeof v === 'object'] ([typeof null] is ['object'] as well). *)
Definition typeof_object (v : value) : bool :=
  match v with
  | Null | Arr _ | Obj _ => true
  | _ => false
  end.

Definition nullish (v : value) : bool :=
  match v with
  | Undefined | Null => true
  | _ => false
  end.

Definition isArray (v : value) : bool :=
  match v with
  | Arr _ => true
  | _ => false
  end.

Fixpoint assoc (k : string) (ps : list (string * value)) : option value :=
  match ps with
  | [] => None
  | (k', v) :: ps' => if String.eqb k k' then Some v else assoc k ps'
  end.

(** [k in v], for the property names the store asks for (none of them
    is a member of [Object.prototype] or [Array.prototype]). *)
Definition has_property (k : string) (v : value) : bool :=
  match v with
  | Obj ps => bool_decide (is_Some (assoc k ps))
  | _ => false
  end.

(** [v.k] on a value that is not nullish, for the same property names. *)
Definition get (k : string) (v : value) : value :=
  match v with
  | Obj ps => default Undefined (assoc k ps)
  | _ => Undefined
  end.

(** [v?.k] *)
Definition get_opt (k : string) (v : value) : value :=
  if nullish v then Undefined else get k v.

(** [a ?? b] *)
Definition coalesce (a b : value) : value :=
  if nullish a then b else a.

(** [a || b] *)
Definition or (a b : value) : value :=
  if truthy a then a else b.

Definition join (sep : string) (parts : list string) : string :=
  match parts with
  | [] => ""
  | p :: ps => fold_left (fun acc q => acc +:+ sep +:+ q) ps p
  end.

(** What a [throw], or the rejection of a promise, carries: an [Error]
    with its message, or any other value. *)
Inductive thrown : Type :=
| Error (message : string)
| Thrown (v : value).

(** The [TypeError] of a conversion to a primitive value that finds
    neither a callable [toString] nor a usable [valueOf].  The message
    is the one of V8, the engine the application runs on. *)
Definition TypeError_no_primitive : thrown :=
  Error "Cannot convert object to primitive value".

(** [ToString], as [new Error(v)] and the default comparison of
    [Array.prototype.sort] apply it; [inl] when the conversion throws.
    A safe integer is printed in decimal.  An array is joined with
    commas, [null] and [undefined] elements giving the empty string.
    An object is converted by the [toString] it finds: without an own
    property of that name this is [Object.prototype.toString]; an own
    property [toString] is plain data, hence not callable, the inherited
    [valueOf] returns the object itself (and an own one is not callable
    either), and the conversion throws. *)
Fixpoint ToString (v : value) : thrown + string :=
  match v with
  | Undefined => inr "undefined"
  | Null => inr "null"
  | Bool true => inr "true"
  | Bool false => inr "false"
  | Num n _ => inr (pretty n)
  | Str s => inr s
  | Arr vs =>
      let strings :=
        (fix strings (vs : list value) : thrown + list string :=
           match vs with
           | [] => inr []
           | e :: rest =>
               match (if nullish e then inr "" else ToString e) with
               | inl error => inl error
               | inr s =>
                   match strings rest with
                   | inl error => inl error
                   | inr ss => inr (s :: ss)
                   end
               end
           end) in
      match strings vs with
      | inl error => inl error
      | inr ss => inr (join "," ss)
      end
  | Obj ps =>
      match assoc "toString" ps with
      | Some _ => inl TypeError_no_primitive
      | None => inr "[object Object]"
      end
  end.

(** The comparison [Array.prototype.sort] uses without a comparator:
    [undefined] goes last without being converted, everything else is
    ordered by the code units of its [ToString]; the comparison throws
    when one of the two conversions does. *)
Definition sort_before (x y : value) : thrown + bool :=
  match x, y with
  | Undefined, _ => inr false
  | _, Undefined => inr true
  | _, _ =>
      match ToString x with
      | inl error => inl error
      | inr xString =>
          match ToString y with
          | inl error => inl error
          | inr yString => inr (String.ltb xString yString)
          end
      end
  end.

Fixpoint sort_insert (x : value) (sorted : list value) : thrown + list value :=
  match sorted with
  | [] => inr [x]
  | y :: ys =>
      match sort_before y x with
      | inl error => inl error
      | inr true =>
          match sort_insert x ys with
          | inl error => inl error
          | inr rest => inr (y :: rest)
          end
      | inr false => inr (x :: y :: ys)
      end
  end.

(** [vs.sort()]: a stable sort, which throws when a comparison
    throws.  With two or more elements other than [undefined] every
    one of them is compared with another, whatever the algorithm. *)
Fixpoint sort (vs : list value) : thrown + list value :=
  match vs with
  | [] => inr []
  | x :: rest =>
      match sort rest with
      | inl error => inl error
      | inr sorted => sort_insert x sorted
      end
  end.

(** [a === s] for a string [s]. *)
Definition strict_eq_string (a : value) (s : string) : bool :=
  match a with
  | Str s' => String.eqb s' s
  | _ => false
  end.

(** [e instanceof Error ? e.message : fallback] *)
Definition message_or (fallback : string) (e : thrown) : string :=
  match e with
  | Error m => m
  | Thrown _ => fallback
  end.

(** [x] does not sort after [y]: the default comparison does not put
    [y] before [x]. *)
Definition sort_le (x y : value) : Prop := sort_before y x = inr false.

(** [ToString] of [v] does not throw. *)
Definition converts (v : value) : Prop := ∃ s, ToString v = inr s.

Definition is_undefined (v : value) : bool :=
  match v with
  | Undefined => true
  | _ => false
  end.

(** The elements of [vs] other than [undefined]: those the default
    sort converts in order to compare them. *)
Definition defined (vs : list value) : list value :=
  filter (λ v, is_undefined v = false) vs.

(** Every element is followed only by elements that do not sort
    before it. *)
Fixpoint ascending (vs : list value) : Prop :=
  match vs with
  | [] => True
  | x :: rest => Forall (sort_le x) rest ∧ ascending rest
  end.

End JS.

(** ** The topic store ([src/stores/topic.store.ts]) *)

Module TopicStore.

(** *** The remote interface [window.api.kafka]

    Every call returns a promise; the store awaits it.  The model logs
    each physical call and leaves its settlement to the environment. *)

Module kafka.

Inductive call : Type :=
| getTopics (connectionId : string)
| getTopicMetadata (connectionId topic : string)
| getTopicConfig (connectionId topic : string)
| createTopic (connectionId : string) (config : JS.value)
| deleteTopic (connectionId topic : string)
| getMessages (connectionId topic : string) (options : JS.value)
| produceMessage (connectionId topic : string) (message : JS.value).

End kafka.

(** How an awaited remote call settles. *)
Inductive outcome : Type :=
| Resolved (result : JS.value)
| Rejected (reason : JS.thrown).

(** *** The state held by zustand *)

Record MessageToRepublish : Type := {
  key : option string;
  value : string;
  headers : option (list (string * string));
  partition : option Z
}.

Record TopicState : Type := {
  topics : list JS.value;
  selectedTopic : option string;
  topicMetadata : JS.value;
  topicConfig : JS.value;
  messages : JS.value;
  messageToRepublish : option MessageToRepublish;
  isLoading : bool;
  isLoadingTopics : bool;
  isLoadingMetadata : bool;
  isLoadingConfig : bool;
  isLoadingMessages : bool;
  error : option string
}.

Definition initialState : TopicState := {|
  topics := [];
  selectedTopic := None;
  topicMetadata := JS.Null;
  topicConfig := JS.Arr [];
  messages := JS.Arr [];
  messageToRepublish := None;
  isLoading := false;
  isLoadingTopics := false;
  isLoadingMetadata := false;
  isLoadingConfig := false;
  isLoadingMessages := false;
  error := None
|}.

(** One [field: value] entry of the object literal given to [set]. *)
Inductive assignment : Type :=
| topics' (v : list JS.value)
| selectedTopic' (v : option string)
| topicMetadata' (v : JS.value)
| topicConfig' (v : JS.value)
| messages' (v : JS.value)
| messageToRepublish' (v : option MessageToRepublish)
| isLoading' (v : bool)
| isLoadingTopics' (v : bool)
| isLoadingMetadata' (v : bool)
| isLoadingConfig' (v : bool)
| isLoadingMessages' (v : bool)
| error' (v : option string).

Definition assign (s : TopicState) (a : assignment) : TopicState :=
  let t := topics s in
  let sel := selectedTopic s in
  let md := topicMetadata s in
  let cfg := topicConfig s in
  let ms := messages s in
  let rep := messageToRepublish s in
  let l := isLoading s in
  let lt := isLoadingTopics s in
  let lmd := isLoadingMetadata s in
  let lc := isLoadingConfig s in
  let lms := isLoadingMessages s in
  let err := error s in
  match a with
  | topics' v => Build_TopicState v sel md cfg ms rep l lt lmd lc lms err
  | selectedTopic' v => Build_TopicState t v md cfg ms rep l lt lmd lc lms err
  | topicMetadata' v => Build_TopicState t sel v cfg ms rep l lt lmd lc lms err
  | topicConfig' v => Build_TopicState t sel md v ms rep l lt lmd lc lms err
  | messages' v => Build_TopicState t sel md cfg v rep l lt lmd lc lms err
  | messageToRepublish' v => Build_TopicState t sel md cfg ms v l lt lmd lc lms err
  | isLoading' v => Build_TopicState t sel md cfg ms rep v lt lmd lc lms err
  | isLoadingTopics' v => Build_TopicState t sel md cfg ms rep l v lmd lc lms err
  | isLoadingMetadata' v => Build_TopicState t sel md cfg ms rep l lt v lc lms err
  | isLoadingConfig' v => Build_TopicState t sel md cfg ms rep l lt lmd v lms err
  | isLoadingMessages' v => Build_TopicState t sel md cfg ms rep l lt lmd lc v err
  | error' v => Build_TopicState t sel md cfg ms rep l lt lmd lc lms v
  end.

(** [Object.assign({}, state, partial)] *)
Definition merge (s : TopicState) (partial : list assignment) : TopicState :=
  fold_left assign partial s.

(** *** Promises

    Every invocation of an [async] function creates a promise of its
    own.  An [async] function that returns a promise [q] resolves its
    own promise to [q]: it settles as [q] does. *)

Inductive promise_state : Type :=
| Pending
| Fulfilled
| RejectedWith (reason : JS.thrown)
| Follows (q : nat).

Fixpoint status_of (fuel : nat) (ps : list promise_state) (p : nat) : promise_state :=
  match ps !! p with
  | Some (Follows q) =>
      match fuel with
      | O => Pending
      | S fuel' => status_of fuel' ps q
      end
  | Some st => st
  | None => Pending
  end.

(** *** Suspended actions

    What remains of an action after its [await], with the variables the
    remainder still reads.  [p] is the promise of the [async] function
    that is suspended. *)

Inductive continuation : Type :=
| doLoad_k (requestKey : string) (p : nat)
| loadTopicMetadata_k (p : nat)
| loadTopicConfig_k (p : nat)
| createTopic_k (connectionId : string) (p : nat)
| createTopic_list_k (p : nat)
| deleteTopic_k (topic : string) (p : nat)
| loadMessages_k (currentRequestId : Z) (p : nat)
| produceMessage_k (p : nat).

Definition promise_of (k : continuation) : nat :=
  match k with
  | doLoad_k _ p | loadTopicMetadata_k p | loadTopicConfig_k p
  | createTopic_k _ p | createTopic_list_k p | deleteTopic_k _ p
  | loadMessages_k _ p | produceMessage_k p => p
  end.

(** *** The world: the store, the two module-level variables, and the
    promises and calls in flight.

    [observed] and [calls] are logs kept for the statements below: the
    states published to subscribers, one per [set], and the physical
    remote calls, one per call of [window.api.kafka].  A remote call is
    identified by its index in [calls]. *)

Record World : Type := {
  state : TopicState;
  observed : list TopicState;
  messageRequestId : Z;
  inFlightRequests : gmap string nat;
  promises : list promise_state;
  calls : list kafka.call;
  pending : gmap nat continuation
}.

Definition init : World := {|
  state := initialState;
  observed := [];
  messageRequestId := 0;
  inFlightRequests := ∅;
  promises := [];
  calls := [];
  pending := ∅
|}.

(** zustand's [set(partial)]: merge, then notify the subscribers. *)
Definition set_with (partial : TopicState → list assignment) (w : World) : World :=
  let s' := merge (state w) (partial (state w)) in
  {| state := s';
     observed := observed w ++ [s'];
     messageRequestId := messageRequestId w;
     inFlightRequests := inFlightRequests w;
     promises := promises w;
     calls := calls w;
     pending := pending w |}.

Definition set (partial : list assignment) (w : World) : World :=
  set_with (fun _ => partial) w.

(** [++messageRequestId] on a JavaScript number: exact below [2^53],
    where adding one no longer changes the value. *)
Definition js_incr (n : Z) : Z :=
  if n <? 2 ^ 53 then n + 1 else n.

Definition incr_messageRequestId (w : World) : World :=
  {| state := state w;
     observed := observed w;
     messageRequestId := js_incr (messageRequestId w);
     inFlightRequests := inFlightRequests w;
     promises := promises w;
     calls := calls w;
     pending := pending w |}.

Definition with_inFlightRequests (m : gmap string nat) (w : World) : World :=
  {| state := state w;
     observed := observed w;
     messageRequestId := messageRequestId w;
     inFlightRequests := m;
     promises := promises w;
     calls := calls w;
     pending := pending w |}.

Definition with_promises (ps : list promise_state) (w : World) : World :=
  {| state := state w;
     observed := observed w;
     messageRequestId := messageRequestId w;
     inFlightRequests := inFlightRequests w;
     promises := ps;
     calls := calls w;
     pending := pending w |}.

(** Entering an [async] function: its promise is created, pending. *)
Definition new_promise (w : World) : nat * World :=
  (length (promises w), with_promises (promises w ++ [Pending]) w).

Definition settle_promise (p : nat) (st : promise_state) (w : World) : World :=
  with_promises (<[p := st]> (promises w)) w.

(** [await window.api.kafka.f(...)]: the call goes out and the rest of
    the function is suspended on it. *)
Definition await (c : kafka.call) (k : continuation) (w : World) : World :=
  {| state := state w;
     observed := observed w;
     messageRequestId := messageRequestId w;
     inFlightRequests := inFlightRequests w;
     promises := promises w;
     calls := calls w ++ [c];
     pending := <[length (calls w) := k]> (pending w) |}.

(** The settled call leaves the set of suspended actions. *)
Definition resume (id : nat) (w : World) : World :=
  {| state := state w;
     observed := observed w;
     messageRequestId := messageRequestId w;
     inFlightRequests := inFlightRequests w;
     promises := promises w;
     calls := calls w;
     pending := delete id (pending w) |}.

(** *** Reading a result

    [result && typeof result === 'object' && 'success' in result]: the
    test by which every action recognises an outcome record. *)
Definition is_outcome_record (result : JS.value) : bool :=
  JS.truthy result && JS.typeof_object result && JS.has_property "success" result.

(** What [throw new Error(typedResult.error || fallback)] throws: the
    new [Error], or the [TypeError] of converting its argument to the
    message. *)
Definition failure (typedResult : JS.value) (fallback : string) : JS.thrown :=
  match JS.ToString (JS.or (JS.get "error" typedResult) (JS.Str fallback)) with
  | inr message => JS.Error message
  | inl error => error
  end.

(** The body of a [try] either completes with a value or throws. *)
Definition try_bind {A B : Type} (m : JS.thrown + A) (f : A → JS.thrown + B)
  : JS.thrown + B :=
  match m with
  | inl e => inl e
  | inr a => f a
  end.

Notation "'try' x ':=' m 'in' k" := (try_bind m (fun x => k))
  (at level 10, x name, m at level 100, k at level 200, only parsing).

(** [await promise] inside a [try]: the value, or the rejection thrown. *)
Definition awaited (o : outcome) : JS.thrown + JS.value :=
  match o with
  | Resolved result => inr result
  | Rejected reason => inl reason
  end.

(** Lines 69-78 (and again 150-159): the topic list out of the result
    of [getTopics]. *)
Definition topics_of (result : JS.value) : JS.thrown + JS.value :=
  if is_outcome_record result then
    if negb (JS.truthy (JS.get "success" result))
    then inl (failure result "Failed to load topics")
    else inr (JS.coalesce (JS.get "data" result) (JS.Arr []))
  else inr result.

(** [topics.sort()] on whatever [topics] holds at run time; the
    messages of the [TypeError]s are V8's. *)
Definition call_sort (topics : JS.value) : JS.thrown + list JS.value :=
  match topics with
  | JS.Arr vs => JS.sort vs
  | JS.Undefined =>
      inl (JS.Error "Cannot read properties of undefined (reading 'sort')")
  | JS.Null =>
      inl (JS.Error "Cannot read properties of null (reading 'sort')")
  | _ => inl (JS.Error "topics.sort is not a function")
  end.

(** Lines 101-110. *)
Definition metadata_of (result : JS.value) : JS.thrown + JS.value :=
  if is_outcome_record result then
    if negb (JS.truthy (JS.get "success" result))
    then inl (failure result "Failed to load topic metadata")
    else inr (JS.get "data" result)
  else inr result.

(** Lines 122-131. *)
Definition config_of (result : JS.value) : JS.thrown + JS.value :=
  if is_outcome_record result then
    if negb (JS.truthy (JS.get "success" result))
    then inl (failure result "Failed to load topic config")
    else inr (JS.coalesce (JS.get "data" result) (JS.Arr []))
  else inr result.

(** Lines 199-215. *)
Definition messages_of (result : JS.value) : JS.thrown + JS.value :=
  if is_outcome_record result then
    if negb (JS.truthy (JS.get "success" result))
    then inl (failure result "Failed to load messages")
    else inr (JS.coalesce (JS.get_opt "messages" (JS.get "data" result)) (JS.Arr []))
  else if JS.isArray result then inr result
  else inr (JS.coalesce (JS.get_opt "messages" result) (JS.Arr [])).

(** The check shared by [createTopic], [deleteTopic] and
    [produceMessage]: only a refusal matters. *)
Definition accepted (fallback : string) (result : JS.value) : JS.thrown + unit :=
  if is_outcome_record result then
    if negb (JS.truthy (JS.get "success" result))
    then inl (failure result fallback)
    else inr tt
  else inr tt.

(** *** The actions, up to their [await] *)

Definition loadTopics (connectionId : string) (w : World) : nat * World :=
  let '(outer, w) := new_promise w in
  let requestKey := "loadTopics:" +:+ connectionId in
  match inFlightRequests w !! requestKey with
  | Some existingRequest => (outer, settle_promise outer (Follows existingRequest) w)
  | None =>
      (* const promise = doLoad() *)
      let '(promise, w) := new_promise w in
      let w := set [isLoadingTopics' true; isLoading' true; error' None] w in
      let w := await (kafka.getTopics connectionId) (doLoad_k requestKey promise) w in
      let w := with_inFlightRequests (<[requestKey := promise]> (inFlightRequests w)) w in
      (outer, settle_promise outer (Follows promise) w)
  end.

Definition selectTopic (topic : option string) (w : World) : World :=
  set [selectedTopic' topic; topicMetadata' JS.Null; topicConfig' (JS.Arr []);
       messages' (JS.Arr [])] w.

Definition loadTopicMetadata (connectionId topic : string) (w : World) : nat * World :=
  let '(p, w) := new_promise w in
  let w := set [isLoadingMetadata' true; error' None] w in
  (p, await (kafka.getTopicMetadata connectionId topic) (loadTopicMetadata_k p) w).

Definition loadTopicConfig (connectionId topic : string) (w : World) : nat * World :=
  let '(p, w) := new_promise w in
  let w := set [isLoadingConfig' true; error' None] w in
  (p, await (kafka.getTopicConfig connectionId topic) (loadTopicConfig_k p) w).

Definition createTopic (connectionId : string) (config : JS.value) (w : World)
  : nat * World :=
  let '(p, w) := new_promise w in
  let w := set [isLoadingTopics' true; isLoading' true; error' None] w in
  (p, await (kafka.createTopic connectionId config) (createTopic_k connectionId p) w).

Definition deleteTopic (connectionId topic : string) (w : World) : nat * World :=
  let '(p, w) := new_promise w in
  let w := set [isLoadingTopics' true; isLoading' true; error' None] w in
  (p, await (kafka.deleteTopic connectionId topic) (deleteTopic_k topic p) w).

Definition loadMessages (connectionId topic : string) (options : JS.value) (w : World)
  : nat * World :=
  let '(p, w) := new_promise w in
  let w := incr_messageRequestId w in
  let currentRequestId := messageRequestId w in
  let w := set [isLoadingMessages' true; error' None] w in
  (p, await (kafka.getMessages connectionId topic options)
            (loadMessages_k currentRequestId p) w).

Definition produceMessage (connectionId topic : string) (message : JS.value) (w : World)
  : nat * World :=
  let '(p, w) := new_promise w in
  let w := set [isLoading' true; error' None] w in
  (p, await (kafka.produceMessage connectionId topic message) (produceMessage_k p) w).

Definition setMessageToRepublish (message : option MessageToRepublish) (w : World) : World :=
  set [messageToRepublish' message] w.

Definition clearMessages (w : World) : World :=
  set [messages' (JS.Arr [])] w.

Definition reset (w : World) : World :=
  set [topics' []; selectedTopic' None; topicMetadata' JS.Null;
       topicConfig' (JS.Arr []); messages' (JS.Arr []); messageToRepublish' None;
       isLoading' false; isLoadingTopics' false; isLoadingMetadata' false;
       isLoadingConfig' false; isLoadingMessages' false; error' None] w.

(** *** The actions, from the settlement of the awaited call on *)

Definition doLoad_resume (requestKey : string) (p : nat) (o : outcome) (w : World) : World :=
  let w :=
    match (try result := awaited o in try topics := topics_of result in call_sort topics) with
    | inr sorted => set [topics' sorted; isLoadingTopics' false; isLoading' false] w
    | inl error =>
        set [error' (Some (JS.message_or "Failed to load topics" error));
             isLoadingTopics' false; isLoading' false] w
    end in
  (* finally *)
  let w := with_inFlightRequests (delete requestKey (inFlightRequests w)) w in
  settle_promise p Fulfilled w.

Definition loadTopicMetadata_resume (p : nat) (o : outcome) (w : World) : World :=
  match (try result := awaited o in metadata_of result) with
  | inr metadata =>
      settle_promise p Fulfilled (set [topicMetadata' metadata; isLoadingMetadata' false] w)
  | inl error =>
      settle_promise p Fulfilled
        (set [error' (Some (JS.message_or "Failed to load topic metadata" error));
              isLoadingMetadata' false] w)
  end.

Definition loadTopicConfig_resume (p : nat) (o : outcome) (w : World) : World :=
  match (try result := awaited o in config_of result) with
  | inr config =>
      settle_promise p Fulfilled (set [topicConfig' config; isLoadingConfig' false] w)
  | inl error =>
      settle_promise p Fulfilled
        (set [error' (Some (JS.message_or "Failed to load topic config" error));
              isLoadingConfig' false] w)
  end.

(** The [catch] of [createTopic]: record, then re-throw. *)
Definition createTopic_catch (p : nat) (error : JS.thrown) (w : World) : World :=
  settle_promise p (RejectedWith error)
    (set [error' (Some (JS.message_or "Failed to create topic" error));
          isLoadingTopics' false; isLoading' false] w).

Definition createTopic_resume (connectionId : string) (p : nat) (o : outcome) (w : World)
  : World :=
  match (try createResult := awaited o in accepted "Failed to create topic" createResult) with
  | inr _ => await (kafka.getTopics connectionId) (createTopic_list_k p) w
  | inl error => createTopic_catch p error w
  end.

Definition createTopic_list_resume (p : nat) (o : outcome) (w : World) : World :=
  match (try topicsResult := awaited o in
         try topics := topics_of topicsResult in call_sort topics) with
  | inr sorted =>
      settle_promise p Fulfilled
        (set [topics' sorted; isLoadingTopics' false; isLoading' false] w)
  | inl error => createTopic_catch p error w
  end.

Definition deleteTopic_resume (topic : string) (p : nat) (o : outcome) (w : World) : World :=
  match (try result := awaited o in accepted "Failed to delete topic" result) with
  | inr _ =>
      settle_promise p Fulfilled
        (set_with (fun state =>
           [topics' (filter (fun t => JS.strict_eq_string t topic = false) (topics state));
            selectedTopic' (if bool_decide (selectedTopic state = Some topic)
                            then None else selectedTopic state);
            isLoadingTopics' false; isLoading' false]) w)
  | inl error =>
      settle_promise p (RejectedWith error)
        (set [error' (Some (JS.message_or "Failed to delete topic" error));
              isLoadingTopics' false; isLoading' false] w)
  end.

(** The [catch] of [loadMessages], with its own staleness check. *)
Definition loadMessages_catch (currentRequestId : Z) (p : nat) (error : JS.thrown)
    (w : World) : World :=
  if bool_decide (currentRequestId ≠ messageRequestId w)
  then settle_promise p Fulfilled w
  else settle_promise p Fulfilled
         (set [error' (Some (JS.message_or "Failed to load messages" error));
               isLoadingMessages' false] w).

Definition loadMessages_resume (currentRequestId : Z) (p : nat) (o : outcome) (w : World)
  : World :=
  match o with
  | Rejected error => loadMessages_catch currentRequestId p error w
  | Resolved result =>
      if bool_decide (currentRequestId ≠ messageRequestId w)
      then settle_promise p Fulfilled w
      else
        match messages_of result with
        | inr messages =>
            settle_promise p Fulfilled
              (set [messages' messages; isLoadingMessages' false] w)
        | inl error => loadMessages_catch currentRequestId p error w
        end
  end.

Definition produceMessage_resume (p : nat) (o : outcome) (w : World) : World :=
  match (try result := awaited o in accepted "Failed to produce message" result) with
  | inr _ => settle_promise p Fulfilled (set [isLoading' false] w)
  | inl error =>
      settle_promise p (RejectedWith error)
        (set [error' (Some (JS.message_or "Failed to produce message" error));
              isLoading' false] w)
  end.

Definition continue (k : continuation) (o : outcome) (w : World) : World :=
  match k with
  | doLoad_k requestKey p => doLoad_resume requestKey p o w
  | loadTopicMetadata_k p => loadTopicMetadata_resume p o w
  | loadTopicConfig_k p => loadTopicConfig_resume p o w
  | createTopic_k connectionId p => createTopic_resume connectionId p o w
  | createTopic_list_k p => createTopic_list_resume p o w
  | deleteTopic_k topic p => deleteTopic_resume topic p o w
  | loadMessages_k currentRequestId p => loadMessages_resume currentRequestId p o w
  | produceMessage_k p => produceMessage_resume p o w
  end.

(** *** The transition system *)

Inductive action : Type :=
| LoadTopics (connectionId : string)
| SelectTopic (topic : option string)
| LoadTopicMetadata (connectionId topic : string)
| LoadTopicConfig (connectionId topic : string)
| CreateTopic (connectionId : string) (config : JS.value)
| DeleteTopic (connectionId topic : string)
| LoadMessages (connectionId topic : string) (options : JS.value)
| ProduceMessage (connectionId topic : string) (message : JS.value)
| SetMessageToRepublish (message : option MessageToRepublish)
| ClearMessages
| Reset.

(** A caller invokes an action; an asynchronous one hands back its
    promise. *)
Definition invoke (a : action) (w : World) : option nat * World :=
  let async (r : nat * World) := (Some r.1, r.2) in
  match a with
  | LoadTopics c => async (loadTopics c w)
  | SelectTopic t => (None, selectTopic t w)
  | LoadTopicMetadata c t => async (loadTopicMetadata c t w)
  | LoadTopicConfig c t => async (loadTopicConfig c t w)
  | CreateTopic c cfg => async (createTopic c cfg w)
  | DeleteTopic c t => async (deleteTopic c t w)
  | LoadMessages c t opts => async (loadMessages c t opts w)
  | ProduceMessage c t m => async (produceMessage c t m w)
  | SetMessageToRepublish m => (None, setMessageToRepublish m w)
  | ClearMessages => (None, clearMessages w)
  | Reset => (None, reset w)
  end.

(** Remote call [id] settles with [o] and the action suspended on it
    runs on.  A call that is not in flight cannot settle. *)
Definition settle (id : nat) (o : outcome) (w : World) : World :=
  match pending w !! id with
  | Some k => continue k o (resume id w)
  | None => w
  end.

Inductive event : Type :=
| Invoke (a : action)
| Settle (id : nat) (o : outcome).

Definition step (w : World) (e : event) : World :=
  match e with
  | Invoke a => (invoke a w).2
  | Settle id o => settle id o w
  end.

Definition run (es : list event) (w : World) : World :=
  fold_left step es w.

Inductive reachable : World → Prop :=
| reachable_init : reachable init
| reachable_step w e : reachable w → reachable (step w e).

(** What a holder of promise [p] observes. *)
Definition promise_status (w : World) (p : nat) : promise_state :=
  status_of (length (promises w)) (promises w) p.

(** *** Well-formed worlds

    What every reachable world satisfies: suspended actions wait on
    calls that were issued, each owns a pending promise of its own, no
    token is ahead of the counter, and the map of in-flight requests
    holds exactly the promises of the suspended [doLoad]s. *)

(** The suspended body of [doLoad], the one kind of action that is
    registered in [inFlightRequests]. *)
Definition is_doLoad (k : continuation) : bool :=
  match k with
  | doLoad_k _ _ => true
  | _ => false
  end.

(** No suspended action has [p] as its promise. *)
Definition unowned (w : World) (p : nat) : Prop :=
  ∀ id k, pending w !! id = Some k → promise_of k ≠ p.

Record wf (w : World) : Prop := {
  wf_issued : ∀ id k,
    pending w !! id = Some k → (id < length (calls w))%nat;
  wf_owned_pending : ∀ id k,
    pending w !! id = Some k → promises w !! promise_of k = Some Pending;
  wf_owner_unique : ∀ id1 id2 k1 k2,
    pending w !! id1 = Some k1 → pending w !! id2 = Some k2 →
    promise_of k1 = promise_of k2 → id1 = id2;
  wf_token : ∀ id tok p,
    pending w !! id = Some (loadMessages_k tok p) → tok ≤ messageRequestId w;
  wf_inflight_suspended : ∀ key d,
    inFlightRequests w !! key = Some d →
    ∃ id, pending w !! id = Some (doLoad_k key d);
  wf_suspended_inflight : ∀ id key d,
    pending w !! id = Some (doLoad_k key d) → inFlightRequests w !! key = Some d
}.

(** Event [e] is the settlement of remote call [id]. *)
Definition settles (id : nat) (e : event) : Prop :=
  ∃ o, e = Settle id o.

(** *** The fence of [loadMessages] *)

(** A suspended [loadMessages] is superseded when its token is no
    longer the value of the counter. *)
Definition superseded (w : World) (id : nat) : Prop :=
  ∃ tok p, pending w !! id = Some (loadMessages_k tok p) ∧ tok ≠ messageRequestId w.

(** *** The shapes of a result *)

(** An outcome record reporting success, with its payload under [data]. *)
Definition outcome_record_ok (r payload : JS.value) : Prop :=
  is_outcome_record r = true
  ∧ JS.truthy (JS.get "success" r) = true
  ∧ JS.get "data" r = payload.

(** An outcome record reporting failure. *)
Definition outcome_record_failed (r : JS.value) : Prop :=
  is_outcome_record r = true ∧ JS.truthy (JS.get "success" r) = false.


(** The message recorded for an outcome record reporting failure:
    that of the error the action throws, which is the record's own
    [error] as a string if it has a truthy one that converts, and the
    fallback if it has none. *)
Definition reported (r : JS.value) (fallback : string) : string :=
  JS.message_or fallback (failure r fallback).


(** *** Which promises can be rejected *)

(** The continuations of the four read actions. *)
Definition is_read (k : continuation) : bool :=
  match k with
  | doLoad_k _ _ | loadTopicMetadata_k _ | loadTopicConfig_k _
  | loadMessages_k _ _ => true
  | _ => false
  end.

Definition is_read_action (a : action) : bool :=
  match a with
  | LoadTopics _ | LoadTopicMetadata _ _ | LoadTopicConfig _ _
  | LoadMessages _ _ _ => true
  | _ => false
  end.

(** The three actions that change something on the cluster. *)
Definition is_write_action (a : action) : bool :=
  match a with
  | CreateTopic _ _ | DeleteTopic _ _ | ProduceMessage _ _ _ => true
  | _ => false
  end.

(** The remote call such an action starts with, and what is suspended
    on it for the action's promise [p]. *)
Definition write_call (a : action) : option kafka.call :=
  match a with
  | CreateTopic c config => Some (kafka.createTopic c config)
  | DeleteTopic c t => Some (kafka.deleteTopic c t)
  | ProduceMessage c t m => Some (kafka.produceMessage c t m)
  | _ => None
  end.

Definition write_continuation (a : action) (p : nat) : option continuation :=
  match a with
  | CreateTopic c _ => Some (createTopic_k c p)
  | DeleteTopic _ t => Some (deleteTopic_k t p)
  | ProduceMessage _ _ _ => Some (produceMessage_k p)
  | _ => None
  end.

(** The fallback message of the [catch] of each action. *)
Definition action_fallback (a : action) : string :=
  match a with
  | LoadTopics _ => "Failed to load topics"
  | LoadTopicMetadata _ _ => "Failed to load topic metadata"
  | LoadTopicConfig _ _ => "Failed to load topic config"
  | CreateTopic _ _ => "Failed to create topic"
  | DeleteTopic _ _ => "Failed to delete topic"
  | LoadMessages _ _ _ => "Failed to load messages"
  | ProduceMessage _ _ _ => "Failed to produce message"
  | SelectTopic _ | SetMessageToRepublish _ | ClearMessages | Reset => ""
  end.

(** The fallback message of each [catch], by what is suspended. *)
Definition fallback (k : continuation) : string :=
  match k with
  | doLoad_k _ _ => "Failed to load topics"
  | loadTopicMetadata_k _ => "Failed to load topic metadata"
  | loadTopicConfig_k _ => "Failed to load topic config"
  | createTopic_k _ _ | createTopic_list_k _ => "Failed to create topic"
  | deleteTopic_k _ _ => "Failed to delete topic"
  | loadMessages_k _ _ => "Failed to load messages"
  | produceMessage_k _ => "Failed to produce message"
  end.

(** The loading flags each [catch] clears. *)
Definition flags_cleared (k : continuation) : list assignment :=
  match k with
  | doLoad_k _ _ | createTopic_k _ _ | createTopic_list_k _ | deleteTopic_k _ _ =>
      [isLoadingTopics' false; isLoading' false]
  | loadTopicMetadata_k _ => [isLoadingMetadata' false]
  | loadTopicConfig_k _ => [isLoadingConfig' false]
  | loadMessages_k _ _ => [isLoadingMessages' false]
  | produceMessage_k _ => [isLoading' false]
  end.

(** A promise that is fulfilled, or pending in the hands of a read
    action. *)
Definition quiet (w : World) (d : nat) : Prop :=
  promises w !! d = Some Fulfilled
  ∨ (promises w !! d = Some Pending
     ∧ ∃ id k, pending w !! id = Some k ∧ promise_of k = d ∧ is_read k = true).

(** A promise that cannot be rejected any more: quiet itself, or
    resolved to a quiet one. *)
Definition never_rejects (w : World) (p : nat) : Prop :=
  quiet w p ∨ ∃ d, promises w !! p = Some (Follows d) ∧ quiet w d.

(** A promise that is fulfilled, by itself or through the promise it
    was resolved to. *)
Definition fulfilled (w : World) (p : nat) : Prop :=
  promises w !! p = Some Fulfilled
  ∨ ∃ d, promises w !! p = Some (Follows d) ∧ promises w !! d = Some Fulfilled.

(** A promise whose fate hangs on remote call [id], awaited by a read
    action. *)
Definition waits_for (w : World) (p id : nat) : Prop :=
  ∃ k, pending w !! id = Some k ∧ is_read k = true
       ∧ (promise_of k = p ∨ promises w !! p = Some (Follows (promise_of k))).

(** The fallback of the [throw] an outcome record reporting failure
    runs into: in [createTopic] the one after [getTopics] differs from
    that of the [catch]. *)
Definition refusal_fallback (k : continuation) : string :=
  match k with
  | createTopic_list_k _ => "Failed to load topics"
  | _ => fallback k
  end.

(** *** Counting and classifying events *)

(** The event is an invocation of [loadMessages]. *)
Definition is_loadMessages (e : event) : bool :=
  match e with
  | Invoke (LoadMessages _ _ _) => true
  | _ => false
  end.

Definition count_loadMessages (es : list event) : nat :=
  length (filter (λ e, is_loadMessages e = true) es).

(** The suspended actions that end, whatever the outcome, with a
    [set] that puts [isLoading] to false. *)
Definition clears_isLoading (k : continuation) : bool :=
  match k with
  | doLoad_k _ _ | createTopic_list_k _ | deleteTopic_k _ _ | produceMessage_k _ => true
  | _ => false
  end.

End TopicStore.

(** ** The connection store ([electron/services/connection.store.ts]) *)

Module ConnectionStore.

(** Modelled from the spec: the fields of a connection profile other
    than its identity and timestamps.  The type [KafkaConnection] of
    [shared/types] is not among the sources; these are the fields the
    spec lists and [ConnectionForm] fills in. *)
Record TLSConfig : Type := {
  ca : option string;
  cert : option string;
  key : option string;
  passphrase : option string;
  rejectUnauthorized : option bool
}.

Inductive SslSetting : Type :=
| SslSimple (enabled : bool)
| SslCertificates (tls : TLSConfig).

Record SaslConfig : Type := {
  mechanism : string;
  username : string;
  password : string
}.

Record Profile : Type := {
  name : string;
  brokers : list string;
  ssl : option SslSetting;
  sasl : option SaslConfig;
  color : string
}.

(** [KafkaConnection] *)
Record KafkaConnection : Type := {
  id : string;
  profile : Profile;
  createdAt : Z;
  updatedAt : Z
}.

(** The argument of [save]:
    [Omit<KafkaConnection, 'id' | 'createdAt' | 'updatedAt'> & { id?: string }]. *)
Record SaveInput : Type := {
  input_id : option string;
  input_profile : Profile
}.

(** [StoreSchema]: the persisted object [connections] is a plain
    object used as a map from ids to records.  The model has its own
    properties, which are what is written to the file; what it
    inherits from [Object.prototype] is accounted for where the object
    is read and assigned to. *)
Record Store : Type := {
  connections : gmap string KafkaConnection
}.

(** The property names of [Object.prototype] (V8). *)
Definition Object_prototype : list string :=
  ["constructor"; "__defineGetter__"; "__defineSetter__"; "hasOwnProperty";
   "__lookupGetter__"; "__lookupSetter__"; "isPrototypeOf";
   "propertyIsEnumerable"; "toString"; "valueOf"; "__proto__"; "toLocaleString"].

(** What [connections[id]] evaluates to when it is not [undefined]: a
    record of the store, or the member of [Object.prototype] of that
    name (a function; for [__proto__], the prototype itself). *)
Inductive member : Type :=
| own (record : KafkaConnection)
| inherited (name : string).

(** [connections[id]], read. *)
Definition member_at (id : string) (connections : gmap string KafkaConnection)
  : option member :=
  match connections !! id with
  | Some record => Some (own record)
  | None =>
      if bool_decide (id ∈ Object_prototype) then Some (inherited id) else None
  end.

(** [connections[id] = record] does not add a property when [id] is
    [__proto__] and the object has no own property of that name: the
    assignment goes to the setter of [Object.prototype], which makes
    the record the prototype of [connections]; a prototype is not
    written to the file. *)
Definition sets_prototype (id : string) (connections : gmap string KafkaConnection)
  : bool :=
  String.eqb id "__proto__" && bool_decide (connections !! id = None).

(** [connections[id] = record], as far as the own properties go. *)
Definition assign (id : string) (record : KafkaConnection)
    (connections : gmap string KafkaConnection) : gmap string KafkaConnection :=
  if sets_prototype id connections then connections else <[id := record]> connections.

(** [connection.id || randomUUID()]: an absent id and the empty string
    are both falsy.  [uuid] is what [randomUUID()] returns when it is
    called. *)
Definition id_or_random (given : option string) (uuid : string) : string :=
  match given with
  | Some i => if String.eqb i "" then uuid else i
  | None => uuid
  end.

(** [existing?.createdAt || now]: no record, a member of
    [Object.prototype] (none of which has a [createdAt]), and a
    timestamp of zero, are all falsy. *)
Definition createdAt_or_now (existing : option member) (now : Z) : Z :=
  match existing with
  | Some (own e) => if createdAt e =? 0 then now else createdAt e
  | Some (inherited _) | None => now
  end.

(** [save(connection)], with the readings of [Date.now()] and
    [randomUUID()] as inputs. *)
Definition save (now : Z) (uuid : string) (connection : SaveInput) (store : Store)
  : KafkaConnection * Store :=
  let connections := connections store in
  let id := id_or_random (input_id connection) uuid in
  let existing := member_at id connections in
  let savedConnection :=
    {| id := id;
       profile := input_profile connection;
       createdAt := createdAt_or_now existing now;
       updatedAt := now |} in
  (savedConnection, {| connections := assign id savedConnection connections |}).

(** [get(id)]: [None] for [undefined]. *)
Definition get (id : string) (store : Store) : option member :=
  member_at id (connections store).

(** Modelled from the spec: [randomUUID()] of Node's [crypto] draws a
    version 4 UUID at random, and the spec has [save] generate with it
    "a new unique id distinct from any existing id".  The model leaves
    collisions out: of the ids [uuid-0], [uuid-1], ... it takes the
    first one from the number drawn, [entropy], on that no record of
    the store has.  What is used of it is that it is not empty, is not
    a property name of [Object.prototype], and is the id of no
    record. *)
Definition candidate (n : nat) : string := "uuid-" +:+ pretty n.

Definition randomUUID (entropy : nat) (store : Store) : string :=
  default ""
    (snd <$> list_find (λ id, connections store !! id = None)
               (candidate <$> seq entropy (S (size (connections store))))).

Definition delete (id : string) (store : Store) : Store :=
  {| connections := base.delete id (connections store) |}.

(** *** Opening the store *)

Inductive platform : Type :=
| darwin
| win32
| other_platform.

(** [v || fallback] for an environment variable, which may be unset
    or empty. *)
Definition env_or (v : option string) (fallback : string) : string :=
  match v with
  | Some s => if String.eqb s "" then fallback else s
  | None => fallback
  end.

(** [getStorePath(storeName)], with [process.platform], [os.homedir()]
    and the two environment variables as inputs. *)
Definition getStorePath (process_platform : platform) (homedir : string)
    (APPDATA XDG_CONFIG_HOME : option string) (storeName : string) : string :=
  let appName := "topiq" in
  let configDir :=
    match process_platform with
    | darwin => homedir +:+ "/Library/Application Support/" +:+ appName
    | win32 => env_or APPDATA homedir +:+ "/" +:+ appName
    | other_platform =>
        env_or XDG_CONFIG_HOME (homedir +:+ "/.config") +:+ "/" +:+ appName
    end in
  configDir +:+ "/" +:+ storeName +:+ ".json".

(** What is at [storePath], the path [electron-store] opens too:
    nothing, something that cannot be read, or a file with its
    contents. *)
Inductive file : Type :=
| Absent
| Unreadable
| Content (text : string).

Section Open.

(** [JSON.parse(content)] returns rather than throws. *)
Variable JSON_parses : string → bool.

(** What [electron-store] makes of a file it finds at [storePath]:
    the connections it reads from it, or [None] when its constructor
    throws. *)
Variable read_existing : string → file → option (gmap string KafkaConnection).

(** The hash [createHash('sha256').update(s).digest('hex')]. *)
Variable sha256_hex : string → string.

(** [deriveEncryptionKey()]; [machineId] is [None] when
    [machineIdSync()] throws. *)
Definition deriveEncryptionKey (machineId : option string)
    (hostname username homedir : string) : string :=
  match machineId with
  | Some machineId => String.substring 0%nat 32%nat (sha256_hex ("kafka-explorer-" +:+ machineId))
  | None =>
      let fallbackData := hostname +:+ "-" +:+ username +:+ "-" +:+ homedir in
      String.substring 0%nat 32%nat (sha256_hex ("kafka-explorer-" +:+ fallbackData))
  end.

(** Lines 60-75: the check made before the store is opened.
    [unlink_succeeds] tells whether [fs.unlinkSync] goes through.
    Result: what is at [storePath] afterwards, and whether the warning
    was logged.  Every exception is caught, so the check itself cannot
    throw. *)
Definition prevalidate (unlink_succeeds : bool) (f : file) : file * bool :=
  let reset := (if unlink_succeeds then Absent else f, true) in
  match f with
  | Absent => (f, false)
  | Unreadable => reset
  | Content content => if JSON_parses content then (f, false) else reset
  end.

(** Modelled from the spec: the constructor of [electron-store] with
    [defaults: { connections: {} }].  With no file at [storePath] the
    store starts from the defaults; an existing file is read as the
    library reads it. *)
Definition Store_new (encryptionKey : string) (f : file) : option Store :=
  match f with
  | Absent => Some {| connections := ∅ |}
  | _ =>
      match read_existing encryptionKey f with
      | Some cs => Some {| connections := cs |}
      | None => None
      end
  end.

(** [new ConnectionStore()]: [None] when the constructor throws. *)
Definition constructor (encryptionKey : string) (unlink_succeeds : bool) (f : file)
  : option Store :=
  Store_new encryptionKey (prevalidate unlink_succeeds f).1.

End Open.

(** *** Sample data *)

Definition local_profile : Profile := {|
  name := "local";
  brokers := ["localhost:9092"];
  ssl := None;
  sasl := None;
  color := "#3b82f6"
|}.

(** A store holding one profile, created at [created]. *)
Definition store_with_a1 (created : Z) : Store := {|
  connections :=
    {[ "a1" := {| id := "a1"; profile := local_profile;
                  createdAt := created; updatedAt := created |} ]}
|}.

Definition update_a1 : SaveInput := {|
  input_id := Some "a1";
  input_profile := local_profile
|}.

(** A stand-in for [JSON.parse] that is right on the two texts it is
    used on. *)
Definition parses_empty_object_only (content : string) : bool :=
  String.eqb content "{}".

(** *** Sequences of operations *)

(** What a caller does to the store, with the readings of the clock
    and of [randomUUID()] that [save] takes. *)
Inductive operation : Type :=
| Save (now : Z) (uuid : string) (connection : SaveInput)
| Delete (id : string).

Definition apply (store : Store) (op : operation) : Store :=
  match op with
  | Save now uuid connection => (save now uuid connection store).2
  | Delete id => delete id store
  end.

Definition apply_all (ops : list operation) (store : Store) : Store :=
  fold_left apply ops store.

(** The store the constructor starts from when there is no file. *)
Definition empty_store : Store := {| connections := ∅ |}.

(** Every record is stored under its own id. *)
Definition keyed_by_id (store : Store) : Prop :=
  ∀ k r, connections store !! k = Some r → id r = k.

(** No record was updated before it was created, or after time [t]. *)
Definition timestamps_ordered (t : Z) (store : Store) : Prop :=
  ∀ k r, connections store !! k = Some r →
    createdAt r ≤ updatedAt r ∧ updatedAt r ≤ t.

(** The clock readings of the saves never go back, starting from [t]. *)
Fixpoint clock_from (t : Z) (ops : list operation) : Prop :=
  match ops with
  | [] => True
  | Save now _ _ :: rest => t ≤ now ∧ clock_from now rest
  | Delete _ :: rest => clock_from t rest
  end.

(** The clock reading of the last save, [t] if there is none. *)
Fixpoint last_reading (t : Z) (ops : list operation) : Z :=
  match ops with
  | [] => t
  | Save now _ _ :: rest => last_reading now rest
  | Delete _ :: rest => last_reading t rest
  end.

(** Every id drawn by [randomUUID()] is a non-empty string. *)
Definition uuids_nonempty (ops : list operation) : Prop :=
  Forall (λ op, match op with Save _ uuid _ => uuid ≠ "" | Delete _ => True end) ops.

(** A stand-in for the SHA-256 digest in hexadecimal: 64 characters. *)
Definition constant_digest (s : string) : string :=
  "00000000000000000000000000000000ffffffffffffffffffffffffffffffff".

End ConnectionStore.

(** ** The connection form *)

(** [ConnectionForm.tsx]: the values the form starts from, the
    connection data it builds from what was typed, and the request
    [handleSave] sends.  Rendering, toasts and the file picker are left
    out. *)
Module ConnectionForm.

Import Stdlib.Strings.Ascii.

(** Strings are sequences of code units, of which the model has the
    first 256.  Among these [String.prototype.trim] removes the white
    space U+0009, U+000B, U+000C, U+0020 and U+00A0 and the line
    terminators U+000A and U+000D. *)
Definition is_whitespace (c : ascii) : bool :=
  match c with
  | "009" | "010" | "011" | "012" | "013" | " " | "160" => true
  | _ => false
  end%char.

Fixpoint trimStart (s : string) : string :=
  match s with
  | String c rest => if is_whitespace c then trimStart rest else s
  | EmptyString => ""
  end.

Fixpoint trimEnd (s : string) : string :=
  match s with
  | String c rest =>
      let t := trimEnd rest in
      if is_whitespace c && String.eqb t "" then "" else String c t
  | EmptyString => ""
  end.

(** [s.trim()] *)
Definition trim (s : string) : string := trimEnd (trimStart s).

(** [s.split(',')] always has a first piece; [split_first] gives it
    and the pieces after it. *)
Fixpoint split_first (s : string) : string * list string :=
  match s with
  | String c rest =>
      let r := split_first rest in
      if Ascii.eqb c ","%char then ("", r.1 :: r.2) else (String c r.1, r.2)
  | EmptyString => ("", [])
  end.

(** [s.split(',')] *)
Definition split (s : string) : list string :=
  (split_first s).1 :: (split_first s).2.

(** [v || fallback] for a string that may be missing. *)
Definition string_or (v : option string) (fallback : string) : string :=
  match v with
  | Some s => if String.eqb s "" then fallback else s
  | None => fallback
  end.

(** [CertFile] *)
Record CertFile : Type := {
  filename : string;
  content : string
}.

Inductive SslMode : Type := simple | certificates.

Inductive AuthType : Type := none | sasl.

(** The state of the form: the values of its [useState] hooks that
    the connection data is built from. *)
Record FormState : Type := {
  name : string;
  brokers : string;
  sslEnabled : bool;
  sslMode : SslMode;
  caCert : option CertFile;
  clientCert : option CertFile;
  clientKey : option CertFile;
  passphrase : string;
  rejectUnauthorized : bool;
  authType : AuthType;
  saslMechanism : string;
  username : string;
  password : string;
  color : string
}.

Definition getInitialSslEnabled (ssl : option ConnectionStore.SslSetting) : bool :=
  match ssl with
  | Some (ConnectionStore.SslSimple enabled) => enabled
  | Some (ConnectionStore.SslCertificates _) => true
  | None => false
  end.

Definition getInitialSslMode (ssl : option ConnectionStore.SslSetting) : SslMode :=
  match ssl with
  | Some (ConnectionStore.SslCertificates _) => certificates
  | _ => simple
  end.

Definition getInitialCertFile (value : option string) : option CertFile :=
  match value with
  | Some value =>
      if String.eqb value "" then None
      else Some {| filename := "loaded from connection"; content := value |}
  | None => None
  end.

(** [existingTls] *)
Definition existingTls (existingSsl : option ConnectionStore.SslSetting)
  : option ConnectionStore.TLSConfig :=
  match existingSsl with
  | Some (ConnectionStore.SslCertificates tls) => Some tls
  | _ => None
  end.

(** The initial values of the hooks for the [connection] the form is
    opened on, if any.  [randomColor] is what [getRandomColor()]
    returns when it is called. *)
Definition initial (connection : option ConnectionStore.KafkaConnection)
    (randomColor : string) : FormState :=
  let p := ConnectionStore.profile <$> connection in
  let existingSsl := p ≫= ConnectionStore.ssl in
  let existingTls := existingTls existingSsl in
  let existingSasl := p ≫= ConnectionStore.sasl in
  {| name := string_or (ConnectionStore.name <$> p) "";
     brokers := string_or (JS.join ", " <$> (ConnectionStore.brokers <$> p)) "";
     sslEnabled := getInitialSslEnabled existingSsl;
     sslMode := getInitialSslMode existingSsl;
     caCert := getInitialCertFile (existingTls ≫= ConnectionStore.ca);
     clientCert := getInitialCertFile (existingTls ≫= ConnectionStore.cert);
     clientKey := getInitialCertFile (existingTls ≫= ConnectionStore.key);
     passphrase := string_or (existingTls ≫= ConnectionStore.passphrase) "";
     rejectUnauthorized :=
       match existingTls ≫= ConnectionStore.rejectUnauthorized with
       | Some false => false
       | _ => true
       end;
     authType := match existingSasl with Some _ => sasl | None => none end;
     saslMechanism := string_or (ConnectionStore.mechanism <$> existingSasl) "plain";
     username := string_or (ConnectionStore.username <$> existingSasl) "";
     password := string_or (ConnectionStore.password <$> existingSasl) "";
     color := string_or (ConnectionStore.color <$> p) randomColor |}.

(** [Object.keys(tlsConfig)] for a configuration built field by
    field. *)
Definition keys (tlsConfig : ConnectionStore.TLSConfig) : list string :=
  (if ConnectionStore.ca tlsConfig is Some _ then ["ca"] else [])
  ++ (if ConnectionStore.cert tlsConfig is Some _ then ["cert"] else [])
  ++ (if ConnectionStore.key tlsConfig is Some _ then ["key"] else [])
  ++ (if ConnectionStore.passphrase tlsConfig is Some _ then ["passphrase"] else [])
  ++ (if ConnectionStore.rejectUnauthorized tlsConfig is Some _ then ["rejectUnauthorized"] else []).

Definition getSslValue (s : FormState) : option ConnectionStore.SslSetting :=
  if negb (sslEnabled s) then None
  else
    match sslMode s with
    | simple => Some (ConnectionStore.SslSimple true)
    | certificates =>
        let tlsConfig := {|
          ConnectionStore.ca := content <$> caCert s;
          ConnectionStore.cert := content <$> clientCert s;
          ConnectionStore.key := content <$> clientKey s;
          ConnectionStore.passphrase :=
            if String.eqb (passphrase s) "" then None else Some (passphrase s);
          ConnectionStore.rejectUnauthorized :=
            if rejectUnauthorized s then None else Some false
        |} in
        if (length (keys tlsConfig) =? 0)%nat
        then Some (ConnectionStore.SslSimple true)
        else Some (ConnectionStore.SslCertificates tlsConfig)
    end.

(** [brokers.split(',').map((b) => b.trim()).filter(Boolean)] *)
Definition parse_brokers (text : string) : list string :=
  filter (λ b, b ≠ "") (trim <$> split text).

Definition getConnectionData (s : FormState) : ConnectionStore.Profile := {|
  ConnectionStore.name := trim (name s);
  ConnectionStore.brokers := parse_brokers (brokers s);
  ConnectionStore.ssl := getSslValue s;
  ConnectionStore.sasl :=
    match authType s with
    | sasl =>
        Some {| ConnectionStore.mechanism := saslMechanism s;
                ConnectionStore.username := username s;
                ConnectionStore.password := password s |}
    | none => None
    end;
  ConnectionStore.color := color s
|}.

(** What [handleSave] passes to the connection store of the
    renderer. *)
Inductive request : Type :=
| addConnection (data : ConnectionStore.Profile)
| updateConnection (connection : ConnectionStore.KafkaConnection).

(** [handleSave] up to the request it sends: [None] when the form is
    refused with the validation error. *)
Definition handleSave (connection : option ConnectionStore.KafkaConnection)
    (s : FormState) : option request :=
  if String.eqb (trim (name s)) "" || String.eqb (trim (brokers s)) "" then None
  else
    let data := getConnectionData s in
    match connection with
    | Some connection =>
        Some (updateConnection {|
          ConnectionStore.id := ConnectionStore.id connection;
          ConnectionStore.profile := data;
          ConnectionStore.createdAt := ConnectionStore.createdAt connection;
          ConnectionStore.updatedAt := ConnectionStore.updatedAt connection
        |})
    | None => Some (addConnection data)
    end.

(** The connection data a request carries. *)
Definition request_data (r : request) : ConnectionStore.Profile :=
  match r with
  | addConnection data => data
  | updateConnection connection => ConnectionStore.profile connection
  end.

(** A field of a TLS configuration that the form shows again as it
    is: missing, or a non-empty string. *)
Definition kept (field : option string) : bool :=
  match field with
  | Some value => negb (String.eqb value "")
  | None => true
  end.

(** An [ssl] setting that the form shows again as it is: missing,
    [true], or a TLS configuration with at least one field, no empty
    string, and [rejectUnauthorized] missing or [false]. *)
Definition ssl_normal (ssl : option ConnectionStore.SslSetting) : bool :=
  match ssl with
  | None => true
  | Some (ConnectionStore.SslSimple enabled) => enabled
  | Some (ConnectionStore.SslCertificates tls) =>
      kept (ConnectionStore.ca tls) && kept (ConnectionStore.cert tls)
      && kept (ConnectionStore.key tls) && kept (ConnectionStore.passphrase tls)
      && negb (bool_decide (ConnectionStore.rejectUnauthorized tls = Some true))
      && negb (length (keys tls) =? 0)%nat
  end.

(** Every character of [s] satisfies [p]. *)
Fixpoint every (p : ascii → bool) (s : string) : bool :=
  match s with
  | String c rest => p c && every p rest
  | EmptyString => true
  end.

Definition is_comma (c : ascii) : bool := Ascii.eqb c ","%char.

(** A broker as the form writes it: not empty, nothing to trim, no
    comma. *)
Definition clean (b : string) : Prop :=
  b ≠ "" ∧ trim b = b ∧ every (λ c, negb (is_comma c)) b = true.

(** A string that is empty or starts with a character [trim] keeps. *)
Definition starts_clean (s : string) : Prop :=
  match s with
  | String c _ => is_whitespace c = false
  | EmptyString => True
  end.

(** A connection as the form last saved it, apart from the colour,
    and the state of the form opened on it. *)
Definition sample_connection : ConnectionStore.KafkaConnection := {|
  ConnectionStore.id := "a1";
  ConnectionStore.profile := {|
    ConnectionStore.name := "staging";
    ConnectionStore.brokers := ["broker-1:9092"; "broker-2:9092"];
    ConnectionStore.ssl :=
      Some (ConnectionStore.SslCertificates {|
        ConnectionStore.ca := Some "-----BEGIN CERTIFICATE-----";
        ConnectionStore.cert := None;
        ConnectionStore.key := None;
        ConnectionStore.passphrase := None;
        ConnectionStore.rejectUnauthorized := Some false |});
    ConnectionStore.sasl :=
      Some {| ConnectionStore.mechanism := "scram-sha-256";
              ConnectionStore.username := "app";
              ConnectionStore.password := "" |};
    ConnectionStore.color := "#3b82f6" |};
  ConnectionStore.createdAt := 1600000000000;
  ConnectionStore.updatedAt := 1700000000000
|}.

End ConnectionForm.

(** * Properties *)

Example sort_example :
  JS.sort [JS.Str "b"; JS.Undefined; JS.Str "a"; JS.Num 10 I; JS.Str "a"]
  = inr [JS.Num 10 I; JS.Str "a"; JS.Str "a"; JS.Str "b"; JS.Undefined].
Proof. reflexivity. Qed.

(** An element with a [toString] of its own that is not a function
    cannot be compared; alone, it is not compared at all. *)
Example sort_example_throws :
  JS.sort [JS.Str "a"; JS.Obj [("toString", JS.Num 1 I)]]
  = inl JS.TypeError_no_primitive
  ∧ JS.sort [JS.Undefined; JS.Obj [("toString", JS.Num 1 I)]]
    = inr [JS.Obj [("toString", JS.Num 1 I)]; JS.Undefined].
Proof. split; reflexivity. Qed.

(** ** The default sort *)

Module JSFacts.

Import JS.

Lemma ltb_false_leb s1 s2 : String.ltb s2 s1 = false ↔ String.leb s1 s2 = true.
Proof.
  unfold String.ltb, String.leb. rewrite (String.compare_antisym s2 s1).
  destruct (String.compare s1 s2); cbn; naive_solver.
Qed.

(** A conversion throws nothing but the [TypeError] of an object that
    has no primitive value. *)
Lemma ToString_throws v error : ToString v = inl error → error = TypeError_no_primitive.
Proof.
  revert v error. fix IH 1. intros [| |[]|n Hn|s|vs|ps] error; cbn; try discriminate.
  - induction vs as [|e rest IHrest]; [discriminate|].
    destruct (nullish e) eqn:He.
    + revert IHrest.
      destruct ((fix strings (vs : list value) : thrown + list string :=
                   match vs with
                   | [] => inr []
                   | e :: rest =>
                       match (if nullish e then inr "" else ToString e) with
                       | inl error => inl error
                       | inr s =>
                           match strings rest with
                           | inl error => inl error
                           | inr ss => inr (s :: ss)
                           end
                       end
                   end) rest) as [error'|ss]; [|discriminate].
      intros IHrest [= <-]. by apply IHrest.
    + destruct (ToString e) as [error'|s] eqn:Hs.
      * intros [= <-]. by apply (IH e).
      * revert IHrest.
        destruct ((fix strings (vs : list value) : thrown + list string :=
                     match vs with
                     | [] => inr []
                     | e :: rest =>
                         match (if nullish e then inr "" else ToString e) with
                         | inl error => inl error
                         | inr s =>
                             match strings rest with
                             | inl error => inl error
                             | inr ss => inr (s :: ss)
                             end
                         end
                     end) rest) as [error'|ss]; [|discriminate].
        intros IHrest [= <-]. by apply IHrest.
  - destruct (assoc "toString" ps); [by intros [= <-]|discriminate].
Qed.

Lemma converts_Undefined : converts Undefined.
Proof. by exists "undefined". Qed.

Lemma converts_Str s : converts (Str s).
Proof. by exists s. Qed.

(** The order of the default sort, spelt out: [undefined] is last, the
    rest is ordered by [ToString]. *)
Lemma sort_le_spec x y :
  sort_le x y ↔
  y = Undefined
  ∨ (x ≠ Undefined
     ∧ ∃ xs ys, ToString x = inr xs ∧ ToString y = inr ys ∧ String.le xs ys).
Proof.
  unfold sort_le, String.le.
  destruct (is_undefined y) eqn:Hy.
  { destruct y; try discriminate Hy. split; [by left|by destruct x]. }
  destruct (is_undefined x) eqn:Hx.
  { destruct x; try discriminate Hx.
    split.
    - destruct y; try discriminate Hy; done.
    - intros [->|[? _]]; done. }
  assert (Hb : sort_before y x
               = match ToString y with
                 | inl error => inl error
                 | inr ys =>
                     match ToString x with
                     | inl error => inl error
                     | inr xs => inr (String.ltb ys xs)
                     end
                 end).
  { destruct y; try discriminate Hy; destruct x; try discriminate Hx; done. }
  rewrite Hb. split.
  - destruct (ToString y) as [|ys]; [done|]. destruct (ToString x) as [|xs]; [done|].
    intros [= Hlt]. right. split; [by intros ->|].
    exists xs, ys. repeat split. by apply Is_true_true, ltb_false_leb.
  - intros [->|(_ & xs & ys & -> & -> & Hle)]; [done|].
    f_equal. by apply ltb_false_leb, Is_true_true.
Qed.

Lemma sort_le_trans x y z : sort_le x y → sort_le y z → sort_le x z.
Proof.
  rewrite !sort_le_spec.
  intros [->|(Hx & xs & ys & Hxs & Hys & Hxy)] [->|(Hy & ys' & zs & Hys' & Hzs & Hyz)].
  - by left.
  - done.
  - by left.
  - right. split; [done|]. exists xs, zs. repeat split; [done..|].
    rewrite Hys in Hys'. injection Hys' as <-. by etrans.
Qed.

Lemma sort_before_asym x y : sort_before x y = inr true → sort_le x y.
Proof.
  intros Hxy. apply sort_le_spec.
  destruct (is_undefined y) eqn:Hy.
  { destruct y; try discriminate Hy. by left. }
  right. destruct (is_undefined x) eqn:Hx.
  { destruct x; try discriminate Hx. discriminate Hxy. }
  split; [by intros ->|].
  assert (Hb : sort_before x y
               = match ToString x with
                 | inl error => inl error
                 | inr xs =>
                     match ToString y with
                     | inl error => inl error
                     | inr ys => inr (String.ltb xs ys)
                     end
                 end).
  { destruct y; try discriminate Hy; destruct x; try discriminate Hx; done. }
  rewrite Hb in Hxy.
  destruct (ToString x) as [|xs]; [done|]. destruct (ToString y) as [|ys]; [done|].
  injection Hxy as Hlt. exists xs, ys. repeat split.
  unfold String.le, String.leb. unfold String.ltb in Hlt.
  by destruct (String.compare xs ys).
Qed.

Lemma sort_insert_perm x vs sorted : sort_insert x vs = inr sorted → sorted ≡ₚ x :: vs.
Proof.
  revert sorted. induction vs as [|y ys IH]; intros sorted; cbn.
  { by intros [= <-]. }
  destruct (sort_before y x) as [|[]]; [done| |by intros [= <-]].
  destruct (sort_insert x ys) as [|rest]; [done|].
  intros [= <-]. rewrite (IH rest eq_refl). apply Permutation_swap.
Qed.

Lemma sort_insert_Forall (P : value → Prop) x vs sorted :
  P x → Forall P vs → sort_insert x vs = inr sorted → Forall P sorted.
Proof.
  intros Hx Hvs Hs. rewrite (sort_insert_perm _ _ _ Hs). by constructor.
Qed.

Lemma sort_insert_ascending x vs sorted :
  ascending vs → sort_insert x vs = inr sorted → ascending sorted.
Proof.
  revert sorted. induction vs as [|y ys IH]; intros sorted; cbn.
  { intros _ [= <-]. by repeat constructor. }
  intros [Hy Hys]. destruct (sort_before y x) as [|[]] eqn:Hyx; [done|..].
  - destruct (sort_insert x ys) as [|rest] eqn:Hrest; [done|].
    intros [= <-]. split; [|by apply IH].
    eapply sort_insert_Forall; [|done|done]. by apply sort_before_asym.
  - intros [= <-]. split; [|done]. constructor; [done|].
    eapply Forall_impl; [exact Hy|]. intros z Hz. by eapply sort_le_trans.
Qed.

(** When [sort] returns, it has rearranged its argument into ascending
    order. *)
Lemma sort_perm vs sorted : sort vs = inr sorted → sorted ≡ₚ vs.
Proof.
  revert sorted. induction vs as [|x xs IH]; intros sorted; cbn.
  { by intros [= <-]. }
  destruct (sort xs) as [|rest]; [done|]. intros Hs.
  by rewrite (sort_insert_perm _ _ _ Hs), (IH rest).
Qed.

Lemma sort_ascending vs sorted : sort vs = inr sorted → ascending sorted.
Proof.
  revert sorted. induction vs as [|x xs IH]; intros sorted; cbn.
  { by intros [= <-]. }
  destruct (sort xs) as [|rest]; [done|]. intros Hs.
  eapply sort_insert_ascending; [|done]. by apply IH.
Qed.

(** What [sort] throws is the [TypeError] of a conversion. *)
Lemma sort_before_throws x y error :
  sort_before x y = inl error → error = TypeError_no_primitive.
Proof.
  destruct x, y; cbn -[ToString]; try discriminate;
    repeat match goal with
    | |- context [ToString ?v] =>
        let H := fresh in destruct (ToString v) eqn:H;
        [apply ToString_throws in H|]
    end; intros [= <-]; done.
Qed.

Lemma sort_insert_throws x vs error :
  sort_insert x vs = inl error → error = TypeError_no_primitive.
Proof.
  induction vs as [|y ys IH]; cbn; [done|].
  destruct (sort_before y x) as [e|[]] eqn:Hyx; [|..].
  - intros [= <-]. by eapply sort_before_throws.
  - destruct (sort_insert x ys); [|done]. intros [= <-]. by apply IH.
  - done.
Qed.

Lemma sort_throws vs error : sort vs = inl error → error = TypeError_no_primitive.
Proof.
  induction vs as [|x xs IH]; cbn; [done|].
  destruct (sort xs) as [e|rest]; [intros [= <-]; by apply IH|].
  apply sort_insert_throws.
Qed.

(** [sort] does not throw on elements that all convert. *)
Lemma sort_before_converts x y :
  converts x → converts y → ∃ b, sort_before x y = inr b.
Proof.
  intros [xs Hx] [ys Hy].
  destruct x, y; cbn -[ToString]; rewrite ?Hx, ?Hy; eauto.
Qed.

Lemma sort_insert_converts x vs :
  converts x → Forall converts vs → ∃ sorted, sort_insert x vs = inr sorted.
Proof.
  intros Hx. induction 1 as [|y ys Hy Hys IH]; cbn; [eauto|].
  destruct (sort_before_converts y x Hy Hx) as [[] ->]; [|eauto].
  destruct IH as [rest ->]. eauto.
Qed.

Lemma sort_converts vs : Forall converts vs → ∃ sorted, sort vs = inr sorted.
Proof.
  induction 1 as [|x xs Hx Hxs IH]; cbn; [eauto|].
  destruct IH as [rest Hrest]. rewrite Hrest.
  apply sort_insert_converts; [done|].
  by rewrite (sort_perm _ _ Hrest).
Qed.

(** When the default sort throws: exactly when it has two or more
    elements other than [undefined] to compare and one of them does
    not convert. *)
Lemma sort_insert_Undefined sorted : ∃ l, sort_insert Undefined sorted = inr l.
Proof.
  induction sorted as [|y ys [l IH]]; cbn; [eauto|].
  destruct y; cbn; rewrite ?IH; eauto.
Qed.

Lemma sort_before_defined y x b :
  is_undefined y = false → is_undefined x = false →
  sort_before y x = inr b → converts y ∧ converts x.
Proof.
  intros Hy Hx.
  assert (Hb : sort_before y x
               = match ToString y with
                 | inl error => inl error
                 | inr ys =>
                     match ToString x with
                     | inl error => inl error
                     | inr xs => inr (String.ltb ys xs)
                     end
                 end).
  { destruct y; try discriminate Hy; destruct x; try discriminate Hx; done. }
  rewrite Hb. unfold converts.
  destruct (ToString y) as [|ys]; [done|]. destruct (ToString x) as [|xs]; [done|].
  eauto.
Qed.

Lemma defined_cons x vs :
  defined (x :: vs) = if is_undefined x then defined vs else x :: defined vs.
Proof.
  unfold defined. destruct (is_undefined x) eqn:Hx.
  - by rewrite filter_cons_False by by rewrite Hx.
  - by rewrite filter_cons_True.
Qed.

Lemma ascending_Undefined_first vs : ascending (Undefined :: vs) → defined vs = [].
Proof.
  intros [Hvs _]. induction Hvs as [|z zs Hz Hzs IH]; [done|].
  rewrite defined_cons. by destruct z; try discriminate Hz.
Qed.

Lemma defined_perm vs vs' : vs ≡ₚ vs' → defined vs ≡ₚ defined vs'.
Proof. intros Hp. unfold defined. by rewrite Hp. Qed.

Lemma sort_returns_iff vs :
  (∃ sorted, sort vs = inr sorted)
  ↔ (length (defined vs) ≤ 1)%nat ∨ Forall converts (defined vs).
Proof.
  split.
  - intros [sorted Hs]. revert sorted Hs.
    induction vs as [|x rest IH]; intros sorted; cbn [sort]; [left; cbn; lia|].
    destruct (sort rest) as [|sorted'] eqn:Hrest; [done|]. intros Hs.
    specialize (IH sorted' eq_refl).
    pose proof (defined_perm _ _ (sort_perm _ _ Hrest)) as Hp.
    pose proof (sort_ascending _ _ Hrest) as Ha.
    rewrite defined_cons. destruct (is_undefined x) eqn:Hx; [done|].
    destruct sorted' as [|y ys].
    { apply Permutation_nil_l in Hp. rewrite <- Hp. left. cbn. lia. }
    rewrite defined_cons in Hp. destruct (is_undefined y) eqn:Hy.
    { destruct y; try discriminate Hy.
      rewrite (ascending_Undefined_first _ Ha) in Hp.
      apply Permutation_nil_l in Hp. rewrite <- Hp. left. cbn. lia. }
    cbn in Hs. destruct (sort_before y x) as [|b] eqn:Hyx; [done|].
    destruct (sort_before_defined _ _ _ Hy Hx Hyx) as [Hcy Hcx].
    right. constructor; [done|]. destruct IH as [Hlen|Hall]; [|done].
    rewrite <- Hp in Hlen. cbn in Hlen.
    destruct (defined ys); [|cbn in Hlen; lia].
    apply Permutation_singleton_l in Hp. rewrite <- Hp. by constructor.
  - intros [Hlen|Hall].
    + induction vs as [|x rest IH]; cbn [sort]; [eauto|].
      rewrite defined_cons in Hlen. destruct (is_undefined x) eqn:Hx.
      * destruct (IH Hlen) as [sorted' ->].
        destruct x; try discriminate Hx. apply sort_insert_Undefined.
      * cbn in Hlen. assert (Hnone : defined rest = []).
        { destruct (defined rest); [done|cbn in Hlen; lia]. }
        destruct IH as [sorted' Hrest]; [rewrite Hnone; cbn; lia|].
        rewrite Hrest.
        pose proof (defined_perm _ _ (sort_perm _ _ Hrest)) as Hp.
        rewrite Hnone in Hp. apply Permutation_nil_r in Hp.
        destruct sorted' as [|y ys]; cbn; [eauto|].
        rewrite defined_cons in Hp. destruct (is_undefined y) eqn:Hy; [|done].
        destruct y; try discriminate Hy. cbn. eauto.
    + apply sort_converts. apply Forall_forall. intros v Hv.
      destruct (is_undefined v) eqn:Hu.
      * destruct v; try discriminate Hu. apply converts_Undefined.
      * rewrite Forall_forall in Hall. apply Hall.
        unfold defined. by apply list_elem_of_filter.
Qed.

(** ** Strings *)

Lemma append_nil_l s : "" +:+ s = s.
Proof. done. Qed.

Lemma append_cons c s1 s2 : String c s1 +:+ s2 = String c (s1 +:+ s2).
Proof. done. Qed.

Lemma append_nil_r s : s +:+ "" = s.
Proof.
  induction s as [|c s IH]; [done|].
  change (String c s +:+ "") with (String c (s +:+ "")). by rewrite IH.
Qed.

Lemma append_assoc s1 s2 s3 : (s1 +:+ s2) +:+ s3 = s1 +:+ (s2 +:+ s3).
Proof.
  induction s1 as [|c s1 IH]; [done|].
  change (String c ((s1 +:+ s2) +:+ s3) = String c (s1 +:+ (s2 +:+ s3))).
  by rewrite IH.
Qed.

Lemma length_substring m s :
  String.length (String.substring 0 m s) = (m `min` String.length s)%nat.
Proof.
  revert s. induction m as [|m IH]; intros [|c s]; cbn; try done.
  by rewrite IH.
Qed.

End JSFacts.

(** ** The topic store *)

Module TopicStoreFacts.

Import TopicStore.

(** *** Reachable worlds are well formed *)

Lemma js_incr_ge n : n ≤ js_incr n.
Proof. unfold js_incr. case_match; lia. Qed.

Lemma js_incr_fresh n : n < 2 ^ 53 → n < js_incr n.
Proof. unfold js_incr. intros Hn. case_match; lia. Qed.

(** At [2^53] the counter no longer moves; below, every increment
    yields a new token. *)
Example js_incr_saturates : js_incr (2 ^ 53) = 2 ^ 53.
Proof. reflexivity. Qed.

Lemma wf_init : wf init.
Proof. split; cbn; intros *; rewrite ?lookup_empty; done. Qed.

Lemma wf_set_with f w : wf w → wf (set_with f w).
Proof. intros [H1 H2 H3 H4 H5 H6]. split; cbn; eauto. Qed.

Lemma wf_set partial w : wf w → wf (set partial w).
Proof. apply wf_set_with. Qed.

Lemma wf_incr_messageRequestId w : wf w → wf (incr_messageRequestId w).
Proof.
  intros [H1 H2 H3 H4 H5 H6]. split; cbn; eauto.
  intros id tok p Hk. pose proof (H4 _ _ _ Hk). pose proof (js_incr_ge (messageRequestId w)). lia.
Qed.

Lemma wf_new_promise w : wf w → wf (new_promise w).2.
Proof.
  intros [H1 H2 H3 H4 H5 H6]. split; cbn; eauto.
  intros id k Hk. apply lookup_app_l_Some. eauto.
Qed.

Lemma new_promise_pending w :
  promises (new_promise w).2 !! (new_promise w).1 = Some Pending.
Proof.
  cbn. rewrite lookup_app_r by lia. by rewrite Nat.sub_diag.
Qed.

Lemma new_promise_unowned w : wf w → unowned (new_promise w).2 (new_promise w).1.
Proof.
  intros Hw id k Hk Heq. cbn in *.
  apply (wf_owned_pending _ Hw) in Hk. apply lookup_lt_Some in Hk. lia.
Qed.

Lemma wf_settle_promise p st w :
  wf w → unowned w p → wf (settle_promise p st w).
Proof.
  intros [H1 H2 H3 H4 H5 H6] Hp. split; cbn; eauto.
  intros id k Hk. rewrite list_lookup_insert_ne; eauto.
  intros Heq. by eapply Hp.
Qed.

Lemma wf_await c k w :
  wf w → is_doLoad k = false →
  promises w !! promise_of k = Some Pending → unowned w (promise_of k) →
  (∀ tok p, k = loadMessages_k tok p → tok ≤ messageRequestId w) →
  wf (await c k w).
Proof.
  intros [H1 H2 H3 H4 H5 H6] Hk Hpend Hown Htok. split; cbn.
  - intros id k'. rewrite length_app. cbn. rewrite lookup_insert.
    case_decide; [intros; lia|]. intros Hk'. apply H1 in Hk'. lia.
  - intros id k'. rewrite lookup_insert. case_decide; [by intros [= <-]|]. eauto.
  - intros id1 id2 k1 k2. rewrite !lookup_insert.
    repeat case_decide; subst; try done.
    + intros [= <-] Hk2 Heq. by destruct (Hown _ _ Hk2).
    + intros Hk1 [= <-] Heq. by destruct (Hown _ _ Hk1).
    + eauto.
  - intros id tok p. rewrite lookup_insert. case_decide; [intros [= ->]|]; eauto.
  - intros key d Hd. destruct (H5 _ _ Hd) as [id Hid]. exists id.
    rewrite lookup_insert_ne; [done|]. apply H1 in Hid. lia.
  - intros id key d. rewrite lookup_insert.
    case_decide; [intros [= ->]; done|]. eauto.
Qed.

Lemma wf_resume id k w :
  wf w → pending w !! id = Some k → is_doLoad k = false → wf (resume id w).
Proof.
  intros [H1 H2 H3 H4 H5 H6] Hid Hk. split; cbn.
  - intros id' k'. rewrite lookup_delete_Some. intros [_ Hk']. eauto.
  - intros id' k'. rewrite lookup_delete_Some. intros [_ Hk']. eauto.
  - intros id1 id2 k1 k2. rewrite !lookup_delete_Some. intros [_ Hk1] [_ Hk2]. eauto.
  - intros id' tok p. rewrite lookup_delete_Some. intros [_ Hk']. eauto.
  - intros key d Hd. destruct (H5 _ _ Hd) as [id' Hid']. exists id'.
    rewrite lookup_delete_ne; [done|]. intros ->. rewrite Hid in Hid'.
    injection Hid' as ->. done.
  - intros id' key d. rewrite lookup_delete_Some. intros [_ Hk']. eauto.
Qed.

Lemma resume_unowned id k w :
  wf w → pending w !! id = Some k → unowned (resume id w) (promise_of k).
Proof.
  intros Hw Hid id' k'. cbn. rewrite lookup_delete_Some. intros [Hne Hk'] Heq.
  apply Hne. symmetry. eapply (wf_owner_unique _ Hw); eauto.
Qed.

Lemma unowned_set_with f w p : unowned w p → unowned (set_with f w) p.
Proof. done. Qed.

Lemma unowned_incr w p : unowned w p → unowned (incr_messageRequestId w) p.
Proof. done. Qed.

(** An [async] action that is neither [loadTopics] nor [loadMessages]:
    promise, [set], call. *)
Lemma wf_simple_action partial c (k : nat → continuation) w :
  wf w →
  (∀ tok p, k (new_promise w).1 ≠ loadMessages_k tok p) →
  (∀ p, promise_of (k p) = p) → (∀ p, is_doLoad (k p) = false) →
  wf (await c (k (new_promise w).1) (set partial (new_promise w).2)).
Proof.
  intros Hw Hk Hp Hd. apply wf_await.
  - by apply wf_set, wf_new_promise.
  - apply Hd.
  - rewrite Hp. apply new_promise_pending.
  - rewrite Hp. by apply unowned_set_with, new_promise_unowned.
  - intros tok p Heq. by destruct (Hk tok p).
Qed.

Lemma wf_loadMessages c t opts w : wf w → wf (loadMessages c t opts w).2.
Proof.
  intros Hw. unfold loadMessages. cbn -[new_promise set await incr_messageRequestId].
  apply wf_await; [| done | | |].
  - by apply wf_set, wf_incr_messageRequestId, wf_new_promise.
  - apply new_promise_pending.
  - by apply unowned_set_with, unowned_incr, new_promise_unowned.
  - intros tok p [= <- _]. done.
Qed.

Lemma wf_loadTopics c w : wf w → wf (loadTopics c w).2.
Proof.
  intros Hw. unfold loadTopics.
  cbn -[with_inFlightRequests settle_promise await set].
  destruct (inFlightRequests w !! _) as [existing|] eqn:Hin;
    cbn -[with_inFlightRequests settle_promise await set].
  { apply wf_settle_promise; [by apply (wf_new_promise w)|].
    by apply (new_promise_unowned w). }
  destruct Hw as [H1 H2 H3 H4 H5 H6]. split; cbn; rewrite ?length_app; cbn.
  - intros id k. rewrite lookup_insert.
    case_decide; [intros; lia|]. intros Hk%H1. lia.
  - intros id k. rewrite lookup_insert. case_decide.
    + intros [= <-]. cbn. rewrite list_lookup_insert_ne by lia.
      rewrite lookup_app_r; rewrite length_app; cbn; [|lia].
      by replace (_ - _)%nat with 0%nat by lia.
    + intros Hk. pose proof (H2 _ _ Hk) as Hp.
      pose proof (lookup_lt_Some _ _ _ Hp).
      rewrite list_lookup_insert_ne by lia.
      by rewrite <- app_assoc, lookup_app_l_Some with (x := Pending).
  - intros id1 id2 k1 k2. rewrite !lookup_insert.
    repeat case_decide; subst; try done.
    + intros [= <-] Hk2%H2%lookup_lt_Some. cbn. lia.
    + intros Hk1%H2%lookup_lt_Some [= <-]. cbn. lia.
    + eauto.
  - intros id tok p. rewrite lookup_insert. case_decide; [done|]. eauto.
  - intros key d. rewrite lookup_insert. case_decide.
    + intros [= <-]. subst key. exists (length (calls w)). by rewrite lookup_insert_eq.
    + intros Hd. destruct (H5 _ _ Hd) as [id Hid]. exists id.
      rewrite lookup_insert_ne; [done|]. apply H1 in Hid. lia.
  - intros id key d. rewrite lookup_insert. case_decide.
    + intros [= <- <-]. by rewrite lookup_insert_eq.
    + intros Hk. pose proof (H6 _ _ _ Hk) as Hd.
      rewrite lookup_insert_ne; [done|]. intros <-. by rewrite Hin in Hd.
Qed.

Lemma wf_invoke a w : wf w → wf (invoke a w).2.
Proof.
  intros Hw. destruct a; cbn -[loadTopics loadMessages new_promise set await].
  - by apply wf_loadTopics.
  - by apply wf_set.
  - by apply (wf_simple_action _ _ loadTopicMetadata_k).
  - by apply (wf_simple_action _ _ loadTopicConfig_k).
  - by apply (wf_simple_action _ _ (createTopic_k connectionId)).
  - by apply (wf_simple_action _ _ (deleteTopic_k topic)).
  - by apply wf_loadMessages.
  - by apply (wf_simple_action _ _ produceMessage_k).
  - by apply wf_set.
  - by apply wf_set.
  - by apply wf_set.
Qed.

(** The end of an action that is not [doLoad]: a last [set], and the
    promise settles. *)
Lemma wf_finish id k st f w :
  wf w → pending w !! id = Some k → is_doLoad k = false →
  wf (settle_promise (promise_of k) st (set_with f (resume id w))).
Proof.
  intros Hw Hid Hk. apply wf_settle_promise.
  - apply wf_set_with. by eapply wf_resume.
  - apply unowned_set_with. by apply resume_unowned.
Qed.

Lemma wf_finish_quiet id k st w :
  wf w → pending w !! id = Some k → is_doLoad k = false →
  wf (settle_promise (promise_of k) st (resume id w)).
Proof.
  intros Hw Hid Hk. apply wf_settle_promise.
  - by eapply wf_resume.
  - by apply resume_unowned.
Qed.

Lemma wf_doLoad_finish id key d f w :
  wf w → pending w !! id = Some (doLoad_k key d) →
  wf (settle_promise d Fulfilled
        (with_inFlightRequests
           (delete key (inFlightRequests (set_with f (resume id w))))
           (set_with f (resume id w)))).
Proof.
  intros Hw Hid. pose proof Hw as [H1 H2 H3 H4 H5 H6].
  assert (Hother : ∀ id' k', id ≠ id' → pending w !! id' = Some k' →
                     promise_of k' ≠ d).
  { intros id' k' Hne Hk' Heq. apply Hne. symmetry. by eapply H3. }
  split; cbn.
  - intros id' k'. rewrite lookup_delete_Some. intros [_ Hk']. eauto.
  - intros id' k'. rewrite lookup_delete_Some. intros [Hne Hk'].
    rewrite list_lookup_insert_ne; [eauto|]. intros Heq. by eapply Hother.
  - intros id1 id2 k1 k2. rewrite !lookup_delete_Some. intros [_ Hk1] [_ Hk2]. eauto.
  - intros id' tok p. rewrite lookup_delete_Some. intros [_ Hk']. eauto.
  - intros key' d'. rewrite lookup_delete_Some. intros [Hne Hd'].
    destruct (H5 _ _ Hd') as [id' Hid']. exists id'.
    rewrite lookup_delete_ne; [done|]. intros ->. rewrite Hid in Hid'. congruence.
  - intros id' key' d'. rewrite !lookup_delete_Some. intros [Hne Hk'].
    split; [|eauto]. intros <-. apply Hne.
    pose proof (H6 _ _ _ Hk') as Hd'. pose proof (H6 _ _ _ Hid) as Hd.
    assert (d' = d) as -> by congruence. by eapply H3.
Qed.

Lemma wf_settle id o w : wf w → wf (settle id o w).
Proof.
  intros Hw. unfold settle. destruct (pending w !! id) as [k|] eqn:Hid; [|done].
  destruct k; cbn -[settle_promise set set_with resume await with_inFlightRequests].
  - unfold doLoad_resume.
    destruct (try_bind _ _); by apply (wf_doLoad_finish id).
  - unfold loadTopicMetadata_resume.
    destruct (try_bind _ _); by apply (wf_finish id (loadTopicMetadata_k p)).
  - unfold loadTopicConfig_resume.
    destruct (try_bind _ _); by apply (wf_finish id (loadTopicConfig_k p)).
  - unfold createTopic_resume, createTopic_catch. destruct (try_bind _ _).
    + by apply (wf_finish id (createTopic_k connectionId p)).
    + apply wf_await; [by eapply wf_resume | done | | | done].
      * apply (wf_owned_pending _ Hw _ _ Hid).
      * apply (resume_unowned _ _ _ Hw Hid).
  - unfold createTopic_list_resume, createTopic_catch.
    destruct (try_bind _ _); by apply (wf_finish id (createTopic_list_k p)).
  - unfold deleteTopic_resume.
    destruct (try_bind _ _); by apply (wf_finish id (deleteTopic_k topic p)).
  - unfold loadMessages_resume, loadMessages_catch.
    destruct o; repeat case_bool_decide; try destruct (messages_of _);
      repeat case_bool_decide;
      first [ by apply (wf_finish id (loadMessages_k currentRequestId p))
            | by apply (wf_finish_quiet id (loadMessages_k currentRequestId p)) ].
  - unfold produceMessage_resume.
    destruct (try_bind _ _); by apply (wf_finish id (produceMessage_k p)).
Qed.

Lemma wf_step w e : wf w → wf (step w e).
Proof. destruct e; [apply wf_invoke | apply wf_settle]. Qed.

Lemma reachable_wf w : reachable w → wf w.
Proof. induction 1; [apply wf_init | by apply wf_step]. Qed.

Lemma reachable_run es w : reachable w → reachable (run es w).
Proof.
  revert w. induction es as [|e es IH]; intros w Hw; [done|].
  apply IH. by constructor.
Qed.

Lemma reachable_settle id o w : reachable w → reachable (settle id o w).
Proof. intros Hw. apply (reachable_step w (Settle id o) Hw). Qed.

(** *** What a step leaves alone *)

(** Unfold an action or a resumption down to the fields of the world. *)
Ltac unfold_actions :=
  unfold invoke, settle, continue,
    loadTopics, selectTopic, loadTopicMetadata, loadTopicConfig, createTopic,
    deleteTopic, loadMessages, produceMessage, setMessageToRepublish,
    clearMessages, reset,
    doLoad_resume, loadTopicMetadata_resume, loadTopicConfig_resume,
    createTopic_resume, createTopic_list_resume, createTopic_catch,
    deleteTopic_resume, loadMessages_resume, loadMessages_catch,
    produceMessage_resume in *.

Ltac split_cases := repeat case_match.

Lemma invoke_counter_mono a w :
  messageRequestId w ≤ messageRequestId (invoke a w).2.
Proof.
  destruct a; unfold_actions; cbn; split_cases; cbn; try lia.
  apply js_incr_ge.
Qed.

Lemma settle_counter id o w :
  messageRequestId (settle id o w) = messageRequestId w.
Proof.
  unfold settle. destruct (pending w !! id) as [k|]; [|done].
  destruct k, o; unfold_actions; cbn; split_cases; reflexivity.
Qed.

Lemma step_counter_mono w e :
  messageRequestId w ≤ messageRequestId (step w e).
Proof.
  destruct e; cbn -[invoke settle].
  - apply invoke_counter_mono.
  - rewrite settle_counter. lia.
Qed.

Lemma run_counter_mono es w :
  messageRequestId w ≤ messageRequestId (run es w).
Proof.
  revert w. induction es as [|e es IH]; intros w; cbn -[step]; [lia|].
  etrans; [apply (step_counter_mono w e)|apply IH].
Qed.

Lemma js_incr_le n : js_incr n ≤ n + 1.
Proof. unfold js_incr. case_match; lia. Qed.

(** The counter grows by at most one per event: it stays below [2^53]
    for the first [2^53] events of the program. *)
Lemma run_counter_bound es w :
  messageRequestId (run es w) ≤ messageRequestId w + Z.of_nat (length es).
Proof.
  revert w. induction es as [|e es IH]; intros w; cbn -[step]; [lia|].
  etrans; [apply IH|].
  assert (messageRequestId (step w e) ≤ messageRequestId w + 1); [|lia].
  destruct e as [a|id o]; cbn -[invoke settle].
  - destruct a; unfold_actions; cbn; split_cases; cbn; try lia. apply js_incr_le.
  - rewrite settle_counter. lia.
Qed.

Lemma invoke_calls_mono a w :
  (length (calls w) ≤ length (calls (invoke a w).2))%nat.
Proof.
  destruct a; unfold_actions; cbn; split_cases; cbn; rewrite ?length_app; cbn; lia.
Qed.

Lemma settle_calls_mono id o w :
  (length (calls w) ≤ length (calls (settle id o w)))%nat.
Proof.
  unfold settle. destruct (pending w !! id) as [k|]; [|done].
  destruct k, o; unfold_actions; cbn; split_cases; cbn; rewrite ?length_app; cbn; lia.
Qed.

Lemma step_calls_mono w e :
  (length (calls w) ≤ length (calls (step w e)))%nat.
Proof. destruct e; [apply invoke_calls_mono | apply settle_calls_mono]. Qed.

(** Invoking an action leaves the suspended actions as they are. *)
Lemma invoke_pending a w id :
  (id < length (calls w))%nat →
  pending (invoke a w).2 !! id = pending w !! id.
Proof.
  intros Hid. destruct a; unfold_actions; cbn; split_cases; cbn;
    rewrite ?lookup_insert_ne by lia; done.
Qed.

(** The settlement of one call leaves the other suspended actions as
    they are. *)
Lemma settle_pending id' o w id :
  id ≠ id' → (id < length (calls w))%nat →
  pending (settle id' o w) !! id = pending w !! id.
Proof.
  intros Hne Hid. unfold settle. destruct (pending w !! id') as [k|]; [|done].
  destruct k, o; unfold_actions; cbn; split_cases; cbn;
    rewrite ?lookup_insert_ne by lia; by rewrite lookup_delete_ne.
Qed.

Lemma step_pending w e id :
  ¬ settles id e → (id < length (calls w))%nat →
  pending (step w e) !! id = pending w !! id.
Proof.
  intros Hns Hid. destruct e as [a|id' o]; cbn -[invoke settle].
  - by apply invoke_pending.
  - apply settle_pending; [|done]. intros <-. apply Hns. by eexists.
Qed.

Lemma run_pending es w id :
  Forall (λ e, ¬ settles id e) es → (id < length (calls w))%nat →
  pending (run es w) !! id = pending w !! id.
Proof.
  revert w. induction es as [|e es IH]; intros w Hes Hid; [done|].
  apply Forall_cons in Hes as [He Hes]. cbn -[step].
  rewrite IH; [by apply step_pending | done |].
  pose proof (step_calls_mono w e). lia.
Qed.

(** A suspended action is still there, unchanged, unless its call has
    settled. *)
Lemma step_pending_or_gone w e id k :
  wf w → pending w !! id = Some k →
  pending (step w e) !! id = Some k ∨ pending (step w e) !! id = None.
Proof.
  intros Hw Hid. pose proof (wf_issued _ Hw _ _ Hid) as Hlt.
  destruct e as [a|id' o].
  - left. cbn -[invoke]. by rewrite invoke_pending.
  - destruct (decide (id = id')) as [<-|Hne].
    + right. cbn -[settle]. unfold settle. rewrite Hid.
      destruct k, o; unfold_actions; cbn; split_cases; cbn;
        rewrite ?lookup_insert_ne by lia; by rewrite lookup_delete_eq.
    + left. cbn -[settle]. by rewrite settle_pending.
Qed.

Lemma run_pending_or_gone es w id k :
  wf w → (id < length (calls w))%nat →
  pending w !! id = Some k ∨ pending w !! id = None →
  pending (run es w) !! id = Some k ∨ pending (run es w) !! id = None.
Proof.
  revert w. induction es as [|e es IH]; intros w Hw Hlt Hid; [done|].
  cbn -[step]. apply IH.
  - by apply wf_step.
  - pose proof (step_calls_mono w e). lia.
  - destruct Hid as [Hid|Hid].
    + by apply step_pending_or_gone.
    + right. destruct e as [a|id' o]; cbn -[invoke settle].
      * by rewrite invoke_pending.
      * destruct (decide (id = id')) as [<-|Hne].
        -- unfold settle. by rewrite Hid.
        -- by rewrite settle_pending.
Qed.

(** *** The fence of [loadMessages] *)

Lemma settle_superseded id tok p o w :
  pending w !! id = Some (loadMessages_k tok p) → tok ≠ messageRequestId w →
  settle id o w = settle_promise p Fulfilled (resume id w).
Proof.
  intros Hid Htok. unfold settle. rewrite Hid. cbn -[settle_promise resume].
  unfold loadMessages_resume, loadMessages_catch.
  cbn -[settle_promise resume set].
  rewrite !bool_decide_eq_true_2 by done. by destruct o.
Qed.

Lemma settle_current_resolved id p result messages w :
  pending w !! id = Some (loadMessages_k (messageRequestId w) p) →
  messages_of result = inr messages →
  settle id (Resolved result) w
  = settle_promise p Fulfilled
      (set [messages' messages; isLoadingMessages' false] (resume id w)).
Proof.
  intros Hid Hm. unfold settle. rewrite Hid. cbn -[settle_promise resume set].
  unfold loadMessages_resume. cbn -[settle_promise resume set].
  rewrite bool_decide_eq_false_2 by (intros H; by apply H). by rewrite Hm.
Qed.

Lemma settle_absent id o w : pending w !! id = None → settle id o w = w.
Proof. intros Hid. unfold settle. by rewrite Hid. Qed.

(** What the state after a settlement depends on. *)
Lemma settle_state_ext id o w w' :
  state w = state w' → messageRequestId w = messageRequestId w' →
  pending w !! id = pending w' !! id →
  state (settle id o w) = state (settle id o w').
Proof.
  intros Hs Hc Hp. unfold settle. rewrite <- Hp.
  destruct (pending w !! id) as [k|]; [|done].
  destruct k, o; unfold_actions; cbn; rewrite <- ?Hs, <- ?Hc;
    split_cases; cbn; first [congruence | by rewrite Hs].
Qed.

Lemma loadMessages_promise c t opts w :
  (loadMessages c t opts w).1 = length (promises w).
Proof. reflexivity. Qed.

Lemma loadMessages_counter c t opts w :
  messageRequestId (loadMessages c t opts w).2 = js_incr (messageRequestId w).
Proof. reflexivity. Qed.

Lemma loadMessages_calls c t opts w :
  calls (loadMessages c t opts w).2 = calls w ++ [kafka.getMessages c t opts].
Proof. reflexivity. Qed.

Lemma loadMessages_suspended c t opts w :
  pending (loadMessages c t opts w).2 !! length (calls w)
  = Some (loadMessages_k (js_incr (messageRequestId w)) (length (promises w))).
Proof. cbn. by rewrite lookup_insert_eq. Qed.

Lemma loadMessages_pending_other c t opts w id :
  (id < length (calls w))%nat →
  pending (loadMessages c t opts w).2 !! id = pending w !! id.
Proof. intros Hid. cbn. rewrite lookup_insert_ne; [done|lia]. Qed.

Lemma loadMessages_state c t opts w :
  state (loadMessages c t opts w).2
  = merge (state w) [isLoadingMessages' true; error' None].
Proof. reflexivity. Qed.

(** The heart of the fence: once a newer [loadMessages] has been
    issued, an older one is either settled already or superseded, and
    it stays so whatever happens next. *)
Lemma older_is_superseded w cA tA optsA between cB tB optsB after :
  reachable w →
  let a := length (calls w) in
  let w1 := run between (loadMessages cA tA optsA w).2 in
  let w2 := run after (loadMessages cB tB optsB w1).2 in
  messageRequestId w1 < 2 ^ 53 →
  pending w2 !! a = None ∨ superseded w2 a.
Proof.
  intros Hw a w1 w2 Hfresh.
  set (wA := (loadMessages cA tA optsA w).2) in *.
  set (wB := (loadMessages cB tB optsB w1).2) in *.
  set (tokA := js_incr (messageRequestId w)).
  assert (HwA : reachable wA) by apply (reachable_step w (Invoke (LoadMessages cA tA optsA)) Hw).
  assert (Hw1 : reachable w1) by by apply reachable_run.
  assert (HwB : reachable wB) by apply (reachable_step w1 (Invoke (LoadMessages cB tB optsB)) Hw1).
  assert (HaA : (a < length (calls wA))%nat).
  { subst wA. rewrite loadMessages_calls, length_app. cbn. lia. }
  assert (Ha1 : (a < length (calls w1))%nat).
  { clear -HaA. subst w1. revert HaA. generalize wA. clear.
    induction between as [|e es IH]; intros w0 H0; [done|].
    cbn -[step]. apply IH. pose proof (step_calls_mono w0 e). lia. }
  assert (HaB : (a < length (calls wB))%nat).
  { subst wB. rewrite loadMessages_calls, length_app. lia. }
  assert (H1 : pending w1 !! a = Some (loadMessages_k tokA (length (promises w)))
               ∨ pending w1 !! a = None).
  { apply run_pending_or_gone; [by apply reachable_wf | done |].
    left. apply loadMessages_suspended. }
  assert (HB : pending wB !! a = Some (loadMessages_k tokA (length (promises w)))
               ∨ pending wB !! a = None).
  { subst wB. by rewrite loadMessages_pending_other. }
  assert (H2 : pending w2 !! a = Some (loadMessages_k tokA (length (promises w)))
               ∨ pending w2 !! a = None).
  { apply run_pending_or_gone; [by apply reachable_wf | done | done]. }
  destruct H2 as [H2|H2]; [right|by left].
  exists tokA, (length (promises w)). split; [done|].
  pose proof (run_counter_mono between wA) as Hm1.
  pose proof (run_counter_mono after wB) as Hm2.
  fold w1 in Hm1. fold w2 in Hm2.
  assert (messageRequestId wA = tokA) as HtA by apply loadMessages_counter.
  assert (messageRequestId wB = js_incr (messageRequestId w1)) as HtB
    by apply loadMessages_counter.
  pose proof (js_incr_fresh _ Hfresh). lia.
Qed.

(** Settling a call that is gone or superseded changes neither the
    state nor what subscribers have seen, nor the counter. *)
Lemma settle_discarded id o w :
  pending w !! id = None ∨ superseded w id →
  state (settle id o w) = state w ∧ observed (settle id o w) = observed w.
Proof.
  intros [Hid|(tok & p & Hid & Htok)].
  - by rewrite settle_absent.
  - by rewrite (settle_superseded _ _ _ _ _ Hid Htok).
Qed.

Lemma run_calls_mono es w :
  (length (calls w) ≤ length (calls (run es w)))%nat.
Proof.
  revert w. induction es as [|e es IH]; intros w; cbn -[step]; [lia|].
  etrans; [apply (step_calls_mono w e)|apply IH].
Qed.

Lemma run_snoc es e w : run (es ++ [e]) w = step (run es w) e.
Proof. unfold run. by rewrite fold_left_app. Qed.

(** In the scenario of the fence, the settlement of the older call is
    discarded at any later time. *)
Lemma older_discarded w cA tA optsA between cB tB optsB after oA :
  reachable w →
  let a := length (calls w) in
  let w1 := run between (loadMessages cA tA optsA w).2 in
  let w2 := run after (loadMessages cB tB optsB w1).2 in
  messageRequestId w1 < 2 ^ 53 →
  state (settle a oA w2) = state w2 ∧ observed (settle a oA w2) = observed w2.
Proof.
  intros Hw a w1 w2 Hfresh. apply settle_discarded.
  by apply older_is_superseded.
Qed.

(** The newer call is suspended with the counter's value as its token
    for as long as it has not settled and no newer one was issued. *)
Lemma newer_is_current w1 cB tB optsB after :
  reachable w1 →
  let b := length (calls w1) in
  let wB := (loadMessages cB tB optsB w1).2 in
  let w2 := run after wB in
  is_Some (pending w2 !! b) → messageRequestId w2 = messageRequestId wB →
  pending w2 !! b = Some (loadMessages_k (messageRequestId w2) (length (promises w1))).
Proof.
  intros Hw1 b wB w2 [k Hk] Hc.
  assert (HwB : reachable wB)
    by apply (reachable_step w1 (Invoke (LoadMessages cB tB optsB)) Hw1).
  destruct (run_pending_or_gone after wB b
              (loadMessages_k (messageRequestId wB) (length (promises w1))))
    as [H|H].
  - by apply reachable_wf.
  - subst wB. rewrite loadMessages_calls, length_app. cbn. lia.
  - left. apply loadMessages_suspended.
  - by rewrite Hc.
  - fold w2 in H. congruence.
Qed.

(** C1. Freshness fence, last issued wins.  A [loadMessages] call A is
    issued, then (after any events) a call B, the counter still being
    below [2^53] when B is issued; then anything may happen.  From then
    on the settlement of A, whatever its outcome, changes neither the
    state nor what subscribers see; the state after A and B have both
    settled is, in either order, the state B's settlement alone
    produces; and while B is the latest call issued, its successful
    result is what [messages] holds afterwards.  More generally, a call
    whose token differs from the counter mutates nothing when it
    settles. *)
Theorem last_issued_wins w cA tA optsA between cB tB optsB after :
  reachable w →
  let a := length (calls w) in
  let w1 := run between (loadMessages cA tA optsA w).2 in
  let b := length (calls w1) in
  let wB := (loadMessages cB tB optsB w1).2 in
  let w2 := run after wB in
  messageRequestId w1 < 2 ^ 53 →
  (∀ oA, state (settle a oA w2) = state w2
         ∧ observed (settle a oA w2) = observed w2)
  ∧ (∀ oA oB,
       state (settle b oB (settle a oA w2)) = state (settle b oB w2)
       ∧ state (settle a oA (settle b oB w2)) = state (settle b oB w2))
  ∧ (is_Some (pending w2 !! b) → messageRequestId w2 = messageRequestId wB →
     ∀ oA result ms, messages_of result = inr ms →
       messages (state (settle a oA (settle b (Resolved result) w2))) = ms
       ∧ messages (state (settle b (Resolved result) (settle a oA w2))) = ms)
  ∧ (∀ w' id o, superseded w' id →
       state (settle id o w') = state w' ∧ observed (settle id o w') = observed w').
Proof.
  intros Hw a w1 b wB w2 Hfresh.
  assert (Hw1 : reachable w1).
  { apply reachable_run, (reachable_step w (Invoke (LoadMessages cA tA optsA)) Hw). }
  assert (Hab : a ≠ b ∧ (b < length (calls w2))%nat).
  { pose proof (run_calls_mono between (loadMessages cA tA optsA w).2) as H1.
    pose proof (run_calls_mono after wB) as H2. fold w1 in H1. fold w2 in H2.
    rewrite loadMessages_calls, length_app in H1.
    subst wB. rewrite loadMessages_calls, length_app in H2. cbn in *.
    subst a b. lia. }
  destruct Hab as [Hab Hb].
  assert (Hdisc : ∀ oA, state (settle a oA w2) = state w2
                        ∧ observed (settle a oA w2) = observed w2).
  { intros oA. by apply older_discarded. }
  assert (Horder : ∀ oA oB,
    state (settle b oB (settle a oA w2)) = state (settle b oB w2)
    ∧ state (settle a oA (settle b oB w2)) = state (settle b oB w2)).
  { intros oA oB. split.
    - apply settle_state_ext.
      + apply Hdisc.
      + apply settle_counter.
      + apply settle_pending; [done|lia].
    - change (settle b oB w2) with (step w2 (Settle b oB)).
      subst w2. rewrite <- run_snoc. by apply older_discarded. }
  split; [done|]. split; [done|]. split; [|intros w' id o Hs; apply settle_discarded; by right].
  intros Hpend Hcur oA result ms Hms.
  assert (messages (state (settle b (Resolved result) w2)) = ms) as Hcommit.
  { rewrite (settle_current_resolved b (length (promises w1)) result ms); [done| |done].
    by apply newer_is_current. }
  destruct (Horder oA (Resolved result)) as [-> ->]. done.
Qed.

(** C1 on two calls issued from the initial world, the second
    resolving and the first rejected, in both orders. *)
Lemma last_issued_wins_witness :
  messages (state (settle 0 (Rejected (JS.Error "boom"))
    (settle 1 (Resolved (JS.Arr [JS.Str "m"]))
       (run [Invoke (LoadMessages "c" "t1" JS.Undefined);
             Invoke (LoadMessages "c" "t2" JS.Undefined)] init))))
  = JS.Arr [JS.Str "m"]
  ∧ messages (state (settle 1 (Resolved (JS.Arr [JS.Str "m"]))
    (settle 0 (Rejected (JS.Error "boom"))
       (run [Invoke (LoadMessages "c" "t1" JS.Undefined);
             Invoke (LoadMessages "c" "t2" JS.Undefined)] init))))
  = JS.Arr [JS.Str "m"].
Proof.
  destruct (last_issued_wins init "c" "t1" JS.Undefined [] "c" "t2" JS.Undefined []
              reachable_init) as (_ & _ & H & _).
  - vm_compute. reflexivity.
  - apply (H (ex_intro _ _ eq_refl) eq_refl (Rejected (JS.Error "boom"))
             (JS.Arr [JS.Str "m"]) (JS.Arr [JS.Str "m"]) eq_refl).
Defined.

(** C2. No stale error leakage.  In the scenario of C1: if B commits a
    successful result straight after it was issued and A is rejected
    afterwards, [error] is unset; and whenever A settles after B was
    issued, with whatever outcome, state and subscribers are left
    untouched and A's own promise is fulfilled, not rejected.  More
    generally the settlement of a superseded call writes neither
    [error] nor [messages], publishes nothing, and fulfils its
    promise. *)
Theorem stale_settlement_is_silent w cA tA optsA between cB tB optsB after :
  reachable w →
  let a := length (calls w) in
  let w1 := run between (loadMessages cA tA optsA w).2 in
  let b := length (calls w1) in
  let wB := (loadMessages cB tB optsB w1).2 in
  let w2 := run after wB in
  messageRequestId w1 < 2 ^ 53 →
  (∀ result ms reason, messages_of result = inr ms →
     let w3 := settle b (Resolved result) wB in
     messages (state w3) = ms ∧ error (state w3) = None
     ∧ error (state (settle a (Rejected reason) w3)) = None
     ∧ messages (state (settle a (Rejected reason) w3)) = ms)
  ∧ (∀ oA, state (settle a oA w2) = state w2
           ∧ observed (settle a oA w2) = observed w2
           ∧ ∀ tok p, pending w2 !! a = Some (loadMessages_k tok p) →
               promises (settle a oA w2) !! p = Some Fulfilled)
  ∧ (∀ w' id tok p o,
       wf w' → pending w' !! id = Some (loadMessages_k tok p) →
       tok ≠ messageRequestId w' →
       error (state (settle id o w')) = error (state w')
       ∧ messages (state (settle id o w')) = messages (state w')
       ∧ observed (settle id o w') = observed w'
       ∧ promises (settle id o w') !! p = Some Fulfilled).
Proof.
  intros Hw a w1 b wB w2 Hfresh.
  assert (Hw1 : reachable w1).
  { apply reachable_run, (reachable_step w (Invoke (LoadMessages cA tA optsA)) Hw). }
  assert (Hlocal : ∀ w' id tok p o,
    wf w' → pending w' !! id = Some (loadMessages_k tok p) →
    tok ≠ messageRequestId w' →
    state (settle id o w') = state w'
    ∧ observed (settle id o w') = observed w'
    ∧ promises (settle id o w') !! p = Some Fulfilled).
  { intros w' id tok p o Hw' Hid Htok.
    rewrite (settle_superseded _ _ _ _ _ Hid Htok). do 2 (split; [done|]).
    cbn. apply list_lookup_insert_eq.
    apply (lookup_lt_Some _ _ Pending), (wf_owned_pending _ Hw' _ _ Hid). }
  split; [|split].
  - intros result ms reason Hms w3.
    assert (HB : pending wB !! b
                 = Some (loadMessages_k (messageRequestId wB) (length (promises w1)))).
    { apply (newer_is_current w1 cB tB optsB [] Hw1); [|done].
      cbn. rewrite lookup_insert_eq. by eexists. }
    assert (Hs3 : messages (state w3) = ms ∧ error (state w3) = None).
    { subst w3. by rewrite (settle_current_resolved _ _ _ _ _ HB Hms). }
    destruct (older_discarded w cA tA optsA between cB tB optsB
                [Settle b (Resolved result)] (Rejected reason) Hw Hfresh) as [Hs _].
    change (run _ _) with w3 in Hs. fold a in Hs. rewrite Hs.
    destruct Hs3 as [-> ->]. done.
  - intros oA.
    destruct (older_discarded w cA tA optsA between cB tB optsB after oA Hw Hfresh)
      as [Hs Ho].
    do 2 (split; [done|]). intros tok p Hid.
    destruct (older_is_superseded w cA tA optsA between cB tB optsB after Hw Hfresh)
      as [Hnone|(tok' & p' & Hid' & Htok)].
    + change (pending w2 !! a = None) in Hnone. congruence.
    + change (pending w2 !! a = Some (loadMessages_k tok' p')) in Hid'.
      change (tok' ≠ messageRequestId w2) in Htok.
      rewrite Hid in Hid'. injection Hid' as <- <-.
      eapply Hlocal; [|done..]. apply reachable_wf, reachable_run.
      apply (reachable_step w1 (Invoke (LoadMessages cB tB optsB)) Hw1).
  - intros w' id tok p o Hw' Hid Htok.
    destruct (Hlocal w' id tok p o Hw' Hid Htok) as (-> & -> & ->). done.
Qed.

(** C2 on the same two calls: B commits, then A is rejected. *)
Lemma stale_settlement_is_silent_witness :
  error (state (settle 0 (Rejected (JS.Error "boom"))
    (settle 1 (Resolved (JS.Arr [JS.Str "m"]))
       (run [Invoke (LoadMessages "c" "t1" JS.Undefined);
             Invoke (LoadMessages "c" "t2" JS.Undefined)] init))))
  = None.
Proof.
  destruct (stale_settlement_is_silent init "c" "t1" JS.Undefined [] "c" "t2"
              JS.Undefined [] reachable_init) as (H & _ & _).
  - vm_compute. reflexivity.
  - apply (H (JS.Arr [JS.Str "m"]) (JS.Arr [JS.Str "m"]) (JS.Error "boom") eq_refl).
Defined.

(** *** Promises that have settled stay as they are *)

Lemma invoke_promises a w q :
  (q < length (promises w))%nat →
  promises (invoke a w).2 !! q = promises w !! q.
Proof.
  intros Hq. destruct a; unfold_actions; cbn; split_cases; cbn;
    rewrite ?list_lookup_insert_ne by lia;
    rewrite <- ?app_assoc; rewrite ?lookup_app_l by lia; done.
Qed.

Lemma settle_promises id o w k q :
  pending w !! id = Some k → q ≠ promise_of k →
  promises (settle id o w) !! q = promises w !! q.
Proof.
  intros Hid Hq. unfold settle. rewrite Hid.
  destruct k, o; unfold_actions; cbn in *; split_cases; cbn;
    rewrite ?list_lookup_insert_ne by done; done.
Qed.

Lemma step_promise_settled w e q st :
  wf w → promises w !! q = Some st → st ≠ Pending →
  promises (step w e) !! q = Some st.
Proof.
  intros Hw Hq Hst. destruct e as [a|id o]; cbn -[invoke settle].
  - rewrite invoke_promises; [done|]. by eapply lookup_lt_Some.
  - destruct (pending w !! id) as [k|] eqn:Hid.
    + rewrite (settle_promises _ _ _ k); [done..|].
      intros ->. pose proof (wf_owned_pending _ Hw _ _ Hid). congruence.
    + by rewrite settle_absent.
Qed.

Lemma run_promise_settled es w q st :
  wf w → promises w !! q = Some st → st ≠ Pending →
  promises (run es w) !! q = Some st.
Proof.
  revert w. induction es as [|e es IH]; intros w Hw Hq Hst; [done|].
  cbn -[step]. apply IH; [by apply wf_step | by apply step_promise_settled | done].
Qed.

(** Two promises resolved to the same promise are observed alike. *)
Lemma promise_status_follows w p d :
  promises w !! p = Some (Follows d) →
  promise_status w p = status_of (pred (length (promises w))) (promises w) d.
Proof.
  intros Hp. unfold promise_status.
  pose proof (lookup_lt_Some _ _ _ Hp) as Hlt.
  destruct (length (promises w)) as [|n]; [lia|]. cbn. by rewrite Hp.
Qed.

(** *** Deduplication of [loadTopics] *)

Lemma loadTopics_promise c w : (loadTopics c w).1 = length (promises w).
Proof. unfold loadTopics. cbn. by case_match. Qed.

(** While a request for the key is in flight, [loadTopics] touches
    nothing but its own fresh promise, which it resolves to the promise
    in flight. *)
Lemma loadTopics_in_flight c d w :
  inFlightRequests w !! ("loadTopics:" +:+ c) = Some d →
  (loadTopics c w).2 = with_promises (promises w ++ [Follows d]) w.
Proof.
  intros Hd. unfold loadTopics. cbn. rewrite Hd. cbn.
  unfold settle_promise, with_promises. cbn. f_equal.
  rewrite insert_app_r_alt by lia. by rewrite Nat.sub_diag.
Qed.

(** Without one, it issues the call, suspends [doLoad] on it and
    registers [doLoad]'s promise. *)
Lemma loadTopics_not_in_flight c w :
  inFlightRequests w !! ("loadTopics:" +:+ c) = None →
  let key := "loadTopics:" +:+ c in
  let d := S (length (promises w)) in
  let w' := (loadTopics c w).2 in
  calls w' = calls w ++ [kafka.getTopics c]
  ∧ pending w' = <[length (calls w) := doLoad_k key d]> (pending w)
  ∧ inFlightRequests w' = <[key := d]> (inFlightRequests w)
  ∧ promises w' = promises w ++ [Follows d; Pending].
Proof.
  intros Hd. unfold loadTopics. cbn. rewrite Hd. cbn.
  rewrite length_app. cbn. replace (length (promises w) + 1)%nat
    with (S (length (promises w))) by lia.
  do 3 (split; [done|]).
  rewrite <- app_assoc. cbn. rewrite insert_app_r_alt by lia.
  by rewrite Nat.sub_diag.
Qed.

Lemma step_promises_length w e :
  (length (promises w) ≤ length (promises (step w e)))%nat.
Proof.
  destruct e as [a|id o]; cbn -[invoke settle].
  - destruct a; unfold_actions; cbn; split_cases; cbn;
      rewrite ?length_insert, ?length_app; cbn; lia.
  - unfold settle. destruct (pending w !! id) as [k|]; [|done].
    destruct k, o; unfold_actions; cbn; split_cases; cbn;
      rewrite ?length_insert; lia.
Qed.

Lemma run_promises_length es w :
  (length (promises w) ≤ length (promises (run es w)))%nat.
Proof.
  revert w. induction es as [|e es IH]; intros w; cbn -[step]; [lia|].
  etrans; [apply (step_promises_length w e)|apply IH].
Qed.

Lemma reachable_loadTopics c w : reachable w → reachable (loadTopics c w).2.
Proof. intros Hw. apply (reachable_step w (Invoke (LoadTopics c)) Hw). Qed.

(** At any instant at most one [doLoad] is suspended per key. *)
Lemma one_doLoad_per_key w id1 id2 key d1 d2 :
  wf w →
  pending w !! id1 = Some (doLoad_k key d1) →
  pending w !! id2 = Some (doLoad_k key d2) →
  id1 = id2.
Proof.
  intros Hw H1 H2.
  pose proof (wf_suspended_inflight _ Hw _ _ _ H1) as Hd1.
  pose proof (wf_suspended_inflight _ Hw _ _ _ H2) as Hd2.
  eapply (wf_owner_unique _ Hw); [done..|]. cbn. congruence.
Qed.

(** C3, the claim as stated fails: the two concurrent callers of
    [loadTopics "c"] share one physical call but are handed two
    different promises (and neither is the promise registered in
    [inFlightRequests]), [loadTopics] being an [async] function. *)
Lemma loadTopics_callers_hold_distinct_promises :
  calls (loadTopics "c" (loadTopics "c" init).2).2 = [kafka.getTopics "c"]
  ∧ (loadTopics "c" init).1 ≠ (loadTopics "c" (loadTopics "c" init).2).1
  ∧ inFlightRequests (loadTopics "c" (loadTopics "c" init).2).2 !! "loadTopics:c"
    = Some 1%nat
  ∧ (loadTopics "c" init).1 ≠ 1%nat
  ∧ (loadTopics "c" (loadTopics "c" init).2).1 ≠ 1%nat.
Proof. vm_compute. repeat split; done. Qed.

(** C3, amended.  From a world with no request in flight for the key,
    a first [loadTopics c] issues exactly one [getTopics c]; a second
    one, invoked after any events that do not settle that call, issues
    none and changes neither the state nor the suspended actions.  The
    two callers hold different promises, both resolved to the one
    promise registered for the key, so at any later time they observe
    the same status.  In every reachable world a [loadTopics] for a key
    in flight issues no call, and at most one [doLoad] is suspended per
    key. *)
Theorem loadTopics_single_flight w c between later :
  reachable w →
  let key := "loadTopics:" +:+ c in
  inFlightRequests w !! key = None →
  let id := length (calls w) in
  let first := loadTopics c w in
  Forall (λ e, ¬ settles id e) between →
  let w2 := run between first.2 in
  let second := loadTopics c w2 in
  let w4 := run later second.2 in
  calls first.2 = calls w ++ [kafka.getTopics c]
  ∧ calls second.2 = calls w2
  ∧ pending second.2 = pending w2
  ∧ state second.2 = state w2
  ∧ observed second.2 = observed w2
  ∧ first.1 ≠ second.1
  ∧ (∃ d, pending w2 !! id = Some (doLoad_k key d)
          ∧ inFlightRequests w2 !! key = Some d
          ∧ promises w4 !! first.1 = Some (Follows d)
          ∧ promises w4 !! second.1 = Some (Follows d))
  ∧ promise_status w4 first.1 = promise_status w4 second.1
  ∧ (∀ w' id' d', reachable w' →
       pending w' !! id' = Some (doLoad_k key d') →
       calls (loadTopics c w').2 = calls w'
       ∧ promises (loadTopics c w').2 !! (loadTopics c w').1 = Some (Follows d'))
  ∧ (∀ w' id1 id2 key' d1 d2, reachable w' →
       pending w' !! id1 = Some (doLoad_k key' d1) →
       pending w' !! id2 = Some (doLoad_k key' d2) → id1 = id2).
Proof.
  intros Hw key Hnone id first Hbetween w2 second w4.
  destruct (loadTopics_not_in_flight c w Hnone) as (Hc & Hp & Hi & Hpr).
  fold key first in Hc, Hp, Hi, Hpr.
  set (d := S (length (promises w))) in *.
  assert (Hw1 : reachable first.2) by by apply reachable_loadTopics.
  assert (Hw2 : reachable w2) by by apply reachable_run.
  assert (Hid2 : pending w2 !! id = Some (doLoad_k key d)).
  { subst w2. rewrite run_pending; [by rewrite Hp, lookup_insert_eq|done|].
    rewrite Hc, length_app. cbn. lia. }
  assert (Hin2 : inFlightRequests w2 !! key = Some d).
  { apply (wf_suspended_inflight _ (reachable_wf _ Hw2) _ _ _ Hid2). }
  assert (Hsecond : second.2 = with_promises (promises w2 ++ [Follows d]) w2)
    by by apply loadTopics_in_flight.
  assert (Hp1 : first.1 = length (promises w)) by apply loadTopics_promise.
  assert (Hp2 : second.1 = length (promises w2)) by apply loadTopics_promise.
  assert (Hlen : (length (promises w) + 2 ≤ length (promises w2))%nat).
  { pose proof (run_promises_length between first.2) as H. fold w2 in H.
    rewrite Hpr, length_app in H. cbn in H. lia. }
  assert (Hf2 : promises w2 !! first.1 = Some (Follows d)).
  { subst w2. apply run_promise_settled; [by apply reachable_wf| |done].
    rewrite Hpr, Hp1, lookup_app_r by lia. by rewrite Nat.sub_diag. }
  assert (Hw3 : wf second.2) by by apply reachable_wf, reachable_loadTopics.
  assert (Hf4 : promises w4 !! first.1 = Some (Follows d)).
  { subst w4. apply run_promise_settled; [done| |done].
    rewrite Hsecond. cbn. by apply lookup_app_l_Some. }
  assert (Hs4 : promises w4 !! second.1 = Some (Follows d)).
  { subst w4. apply run_promise_settled; [done| |done].
    rewrite Hsecond, Hp2. cbn. rewrite lookup_app_r by lia.
    by rewrite Nat.sub_diag. }
  split; [done|]. rewrite Hsecond. do 4 (split; [done|]).
  split; [lia|]. split; [by exists d|].
  split; [by rewrite !(promise_status_follows _ _ d)|]. split.
  - intros w' id' d' Hw' Hid'.
    pose proof (wf_suspended_inflight _ (reachable_wf _ Hw') _ _ _ Hid') as Hd'.
    rewrite loadTopics_promise, (loadTopics_in_flight _ _ _ Hd'). cbn.
    split; [done|]. rewrite lookup_app_r by lia. by rewrite Nat.sub_diag.
  - intros w' id1 id2 key' d1 d2 Hw'. by apply one_doLoad_per_key, reachable_wf.
Qed.

(** C3 on two callers from the initial world, with a selection made
    in between and the call settling afterwards. *)
Lemma loadTopics_single_flight_witness :
  calls (loadTopics "c" (run [Invoke (SelectTopic (Some "t"))]
                            (loadTopics "c" init).2)).2
  = calls (run [Invoke (SelectTopic (Some "t"))] (loadTopics "c" init).2)
  ∧ promise_status
      (run [Settle 0 (Resolved (JS.Arr [JS.Str "t"]))]
         (loadTopics "c" (run [Invoke (SelectTopic (Some "t"))]
                             (loadTopics "c" init).2)).2)
      (loadTopics "c" init).1
    = promise_status
      (run [Settle 0 (Resolved (JS.Arr [JS.Str "t"]))]
         (loadTopics "c" (run [Invoke (SelectTopic (Some "t"))]
                             (loadTopics "c" init).2)).2)
      (loadTopics "c" (run [Invoke (SelectTopic (Some "t"))]
                          (loadTopics "c" init).2)).1.
Proof.
  destruct (loadTopics_single_flight init "c" [Invoke (SelectTopic (Some "t"))]
              [Settle 0 (Resolved (JS.Arr [JS.Str "t"]))] reachable_init)
    as (_ & H1 & _ & _ & _ & _ & _ & H2 & _).
  - reflexivity.
  - repeat constructor. intros [o Ho]. discriminate Ho.
  - exact (conj H1 H2).
Defined.

(** C4.  Whatever a suspended [doLoad] settles with, its key leaves
    [inFlightRequests]; a [loadTopics] for the same connection invoked
    next issues a new [getTopics], registers a new promise for the key
    and hands back a promise that is pending, not the one that has
    settled. *)
Theorem loadTopics_key_reusable w c id d o :
  reachable w →
  let key := "loadTopics:" +:+ c in
  pending w !! id = Some (doLoad_k key d) →
  let w' := settle id o w in
  let again := loadTopics c w' in
  inFlightRequests w' !! key = None
  ∧ pending w' !! id = None
  ∧ promises w' !! d = Some Fulfilled
  ∧ calls again.2 = calls w' ++ [kafka.getTopics c]
  ∧ (∃ d', d' ≠ d
           ∧ pending again.2 !! length (calls w') = Some (doLoad_k key d')
           ∧ inFlightRequests again.2 !! key = Some d'
           ∧ promises again.2 !! again.1 = Some (Follows d')
           ∧ promises again.2 !! d' = Some Pending)
  ∧ promise_status again.2 again.1 = Pending.
Proof.
  intros Hw key Hid w' again.
  pose proof (reachable_wf _ Hw) as Hwf.
  pose proof (wf_owned_pending _ Hwf _ _ Hid) as Hd. cbn in Hd.
  pose proof (lookup_lt_Some _ _ _ Hd) as Hlt.
  assert (Hw' : inFlightRequests w' !! key = None ∧ pending w' !! id = None
                ∧ promises w' = <[d := Fulfilled]> (promises w)).
  { subst w'. unfold settle. rewrite Hid. cbn. unfold doLoad_resume.
    destruct (try_bind _ _); cbn; by rewrite !lookup_delete_eq. }
  destruct Hw' as (Hnone & Hgone & Hpr').
  destruct (loadTopics_not_in_flight c w' Hnone) as (Hc & Hp & Hi & Hpr).
  fold key again in Hc, Hp, Hi, Hpr.
  assert (Hlen : length (promises w') = length (promises w))
    by by rewrite Hpr', length_insert.
  assert (Hagain : again.1 = length (promises w')) by apply loadTopics_promise.
  do 2 (split; [done|]).
  split; [rewrite Hpr'; by apply list_lookup_insert_eq|].
  split; [done|].
  assert (Hfollow : promises again.2 !! again.1 = Some (Follows (S (length (promises w'))))).
  { rewrite Hpr, Hagain, lookup_app_r by lia. by rewrite Nat.sub_diag. }
  assert (Hpend : promises again.2 !! S (length (promises w')) = Some Pending).
  { rewrite Hpr, lookup_app_r by lia.
    by replace (S _ - _)%nat with 1%nat by lia. }
  split.
  - exists (S (length (promises w'))). split; [lia|].
    split; [by rewrite Hp, lookup_insert_eq|].
    split; [by rewrite Hi, lookup_insert_eq|]. done.
  - rewrite (promise_status_follows _ _ _ Hfollow).
    rewrite Hpr, length_app. cbn.
    replace (pred (length (promises w') + 2)) with (S (length (promises w'))) by lia.
    cbn. rewrite <- Hpr. by rewrite Hpend.
Qed.

(** C4 on a first call that is rejected. *)
Lemma loadTopics_key_reusable_witness :
  calls (loadTopics "c" (settle 0 (Rejected (JS.Error "down"))
                           (loadTopics "c" init).2)).2
  = [kafka.getTopics "c"; kafka.getTopics "c"].
Proof.
  destruct (loadTopics_key_reusable (loadTopics "c" init).2 "c" 0 1
              (Rejected (JS.Error "down")))
    as (_ & _ & _ & H & _).
  - by apply reachable_loadTopics, reachable_init.
  - reflexivity.
  - exact H.
Defined.

(** *** Selection *)

(** C5.  [selectTopic] is one state transition: subscribers are shown
    exactly one new state, and in it the new selection comes with
    [topicMetadata] null and [topicConfig] and [messages] empty, every
    other field being as before.  Nothing else in the world changes. *)
Theorem selectTopic_atomic topic w :
  observed (selectTopic topic w) = observed w ++ [state (selectTopic topic w)]
  ∧ state (selectTopic topic w)
    = {| topics := topics (state w);
         selectedTopic := topic;
         topicMetadata := JS.Null;
         topicConfig := JS.Arr [];
         messages := JS.Arr [];
         messageToRepublish := messageToRepublish (state w);
         isLoading := isLoading (state w);
         isLoadingTopics := isLoadingTopics (state w);
         isLoadingMetadata := isLoadingMetadata (state w);
         isLoadingConfig := isLoadingConfig (state w);
         isLoadingMessages := isLoadingMessages (state w);
         error := error (state w) |}
  ∧ messageRequestId (selectTopic topic w) = messageRequestId w
  ∧ inFlightRequests (selectTopic topic w) = inFlightRequests w
  ∧ promises (selectTopic topic w) = promises w
  ∧ calls (selectTopic topic w) = calls w
  ∧ pending (selectTopic topic w) = pending w.
Proof. repeat split. Qed.

Example selectTopic_clears_a_populated_state :
  state (selectTopic (Some "t2")
           (run [Invoke (SelectTopic (Some "t1"));
                 Invoke (LoadTopicMetadata "c" "t1");
                 Invoke (LoadMessages "c" "t1" JS.Undefined);
                 Settle 0 (Resolved (JS.Obj [("name", JS.Str "t1")]));
                 Settle 1 (Resolved (JS.Arr [JS.Str "m1"]))] init))
  = merge initialState [selectedTopic' (Some "t2")].
Proof. reflexivity. Qed.

(** The fence guards against a newer [loadMessages], not against a
    selection: a call issued for the topic selected before still
    commits its messages after [selectTopic]. *)
Example loadMessages_commits_after_selectTopic :
  state (run [Invoke (SelectTopic (Some "t1"));
              Invoke (LoadMessages "c" "t1" JS.Undefined);
              Invoke (SelectTopic (Some "t2"));
              Settle 0 (Resolved (JS.Arr [JS.Str "m1"]))] init)
  = merge initialState
      [selectedTopic' (Some "t2"); messages' (JS.Arr [JS.Str "m1"])].
Proof. reflexivity. Qed.

(** *** The shapes of a result *)


Lemma messages_of_bare l : messages_of (JS.Arr l) = inr (JS.Arr l).
Proof. reflexivity. Qed.


Lemma topics_of_record r l :
  outcome_record_ok r (JS.Arr l) → topics_of r = inr (JS.Arr l).
Proof. intros (Hr & Hs & Hd). unfold topics_of. by rewrite Hr, Hs, Hd. Qed.

Lemma topics_of_bare l : topics_of (JS.Arr l) = inr (JS.Arr l).
Proof. reflexivity. Qed.



Lemma config_of_record r l :
  outcome_record_ok r (JS.Arr l) → config_of r = inr (JS.Arr l).
Proof. intros (Hr & Hs & Hd). unfold config_of. by rewrite Hr, Hs, Hd. Qed.






Lemma topics_of_failed r :
  outcome_record_failed r → topics_of r = inl (failure r "Failed to load topics").
Proof. intros [Hr Hs]. unfold topics_of. by rewrite Hr, Hs. Qed.

Lemma metadata_of_failed r :
  outcome_record_failed r →
  metadata_of r = inl (failure r "Failed to load topic metadata").
Proof. intros [Hr Hs]. unfold metadata_of. by rewrite Hr, Hs. Qed.

Lemma config_of_failed r :
  outcome_record_failed r →
  config_of r = inl (failure r "Failed to load topic config").
Proof. intros [Hr Hs]. unfold config_of. by rewrite Hr, Hs. Qed.

Lemma messages_of_failed r :
  outcome_record_failed r →
  messages_of r = inl (failure r "Failed to load messages").
Proof. intros [Hr Hs]. unfold messages_of. by rewrite Hr, Hs. Qed.


Lemma failure_is_Error r fb : failure r fb = JS.Error (reported r fb).
Proof.
  unfold reported, failure.
  destruct (JS.ToString _) as [error|message] eqn:Hm; [|done].
  by rewrite (JSFacts.ToString_throws _ _ Hm).
Qed.







(** *** Which promises can be rejected *)

Lemma status_of_settled fuel ps p st :
  ps !! p = Some st → (∀ q, st ≠ Follows q) → status_of fuel ps p = st.
Proof.
  intros Hp Hst. destruct fuel; cbn; rewrite Hp; destruct st; try done;
    by destruct (Hst q).
Qed.

(** Whatever the awaited call settles with, a read action fulfils its
    promise. *)
Lemma settle_read_fulfils id k o w :
  wf w → pending w !! id = Some k → is_read k = true →
  promises (settle id o w) !! promise_of k = Some Fulfilled.
Proof.
  intros Hw Hid Hk.
  pose proof (lookup_lt_Some _ _ _ (wf_owned_pending _ Hw _ _ Hid)) as Hlt.
  unfold settle. rewrite Hid.
  destruct k, o; try discriminate Hk; unfold_actions; cbn in *; split_cases; cbn;
    by apply list_lookup_insert_eq.
Qed.

Lemma quiet_step w e d : wf w → quiet w d → quiet (step w e) d.
Proof.
  intros Hw [Hd|(Hd & id & k & Hid & Hk & Hr)].
  { left. by apply step_promise_settled. }
  pose proof (wf_issued _ Hw _ _ Hid) as Hlt.
  destruct e as [a|id' o]; cbn -[invoke settle].
  - right. rewrite invoke_promises by by eapply lookup_lt_Some.
    split; [done|]. exists id, k. by rewrite invoke_pending.
  - destruct (decide (id' = id)) as [->|Hne].
    + left. subst d. by apply settle_read_fulfils.
    + right. destruct (pending w !! id') as [k'|] eqn:Hid'.
      * rewrite (settle_promises _ _ _ k'); [|done|].
        -- split; [done|]. exists id, k. by rewrite settle_pending.
        -- intros Heq. apply Hne. eapply (wf_owner_unique _ Hw); [done..|congruence].
      * rewrite settle_absent by done. split; [done|]. by exists id, k.
Qed.

Lemma never_rejects_step w e p : wf w → never_rejects w p → never_rejects (step w e) p.
Proof.
  intros Hw [Hq|(d & Hp & Hq)].
  - left. by apply quiet_step.
  - right. exists d. split; [by apply step_promise_settled|by apply quiet_step].
Qed.

Lemma never_rejects_run es w p :
  wf w → never_rejects w p → never_rejects (run es w) p.
Proof.
  revert w. induction es as [|e es IH]; intros w Hw Hp; [done|].
  cbn -[step]. apply IH; [by apply wf_step | by apply never_rejects_step].
Qed.

Lemma never_rejects_status w p :
  never_rejects w p →
  promise_status w p = Pending ∨ promise_status w p = Fulfilled.
Proof.
  assert (Hq : ∀ fuel d, quiet w d →
            status_of fuel (promises w) d = Pending
            ∨ status_of fuel (promises w) d = Fulfilled).
  { intros fuel d [Hd|(Hd & _)].
    - right. by apply status_of_settled.
    - left. by apply status_of_settled. }
  intros [Hp|(d & Hp & Hd)].
  - apply Hq, Hp.
  - rewrite (promise_status_follows _ _ _ Hp). by apply Hq.
Qed.

Lemma fulfilled_run es w p : wf w → fulfilled w p → fulfilled (run es w) p.
Proof.
  intros Hw [Hp|(d & Hp & Hd)].
  - left. by apply run_promise_settled.
  - right. exists d. split; by apply run_promise_settled.
Qed.

Lemma fulfilled_status w p : fulfilled w p → promise_status w p = Fulfilled.
Proof.
  intros [Hp|(d & Hp & Hd)].
  - by apply status_of_settled.
  - rewrite (promise_status_follows _ _ _ Hp). by apply status_of_settled.
Qed.

Lemma waits_for_step w e p id :
  wf w → waits_for w p id → ¬ settles id e → waits_for (step w e) p id.
Proof.
  intros Hw (k & Hid & Hk & Hp) He. exists k.
  rewrite step_pending; [|done|by eapply wf_issued].
  do 2 (split; [done|]). destruct Hp as [Hp|Hp]; [by left|right].
  by apply step_promise_settled.
Qed.

Lemma waits_for_run es w p id :
  wf w → waits_for w p id → Forall (λ e, ¬ settles id e) es →
  waits_for (run es w) p id.
Proof.
  revert w. induction es as [|e es IH]; intros w Hw Hp Hes; [done|].
  apply Forall_cons in Hes as [He Hes]. cbn -[step].
  apply IH; [by apply wf_step | by apply waits_for_step | done].
Qed.

Lemma waits_for_settle w p id o :
  wf w → waits_for w p id → fulfilled (settle id o w) p.
Proof.
  intros Hw (k & Hid & Hk & [<-|Hp]).
  - left. by apply settle_read_fulfils.
  - right. exists (promise_of k). split; [|by apply settle_read_fulfils].
    by apply (step_promise_settled w (Settle id o)).
Qed.

Lemma await_read c k w p id :
  promise_of k = p → id = length (calls w) →
  promises w !! p = Some Pending → is_read k = true →
  never_rejects (await c k w) p ∧ waits_for (await c k w) p id.
Proof.
  intros <- -> Hp Hk. split.
  - left. right. split; [done|]. exists (length (calls w)), k. cbn.
    by rewrite lookup_insert_eq.
  - exists k. cbn. rewrite lookup_insert_eq. eauto.
Qed.

(** The promise a read action hands back. *)
Lemma invoke_read a w :
  wf w → is_read_action a = true →
  ∃ p id, (invoke a w).1 = Some p
          ∧ never_rejects (invoke a w).2 p
          ∧ waits_for (invoke a w).2 p id
          ∧ ∃ k, pending (invoke a w).2 !! id = Some k
                 ∧ fallback k = action_fallback a.
Proof.
  intros Hw Ha. destruct a; try discriminate Ha; cbn -[loadTopics].
  - (* loadTopics *)
    destruct (inFlightRequests w !! ("loadTopics:" +:+ connectionId)) as [d|] eqn:Hin.
    + destruct (wf_inflight_suspended _ Hw _ _ Hin) as [id Hid].
      pose proof (wf_owned_pending _ Hw _ _ Hid) as Hd. cbn in Hd.
      pose proof (lookup_lt_Some _ _ _ Hd) as Hlt.
      exists (length (promises w)), id.
      rewrite loadTopics_promise, (loadTopics_in_flight _ _ _ Hin). cbn.
      assert (Hp : (promises w ++ [Follows d]) !! length (promises w)
                   = Some (Follows d)).
      { rewrite lookup_app_r by lia. by rewrite Nat.sub_diag. }
      assert (Hd' : (promises w ++ [Follows d]) !! d = Some Pending)
        by by apply lookup_app_l_Some.
      split; [done|]. split; [|split].
      * right. exists d. split; [done|]. right. split; [done|].
        by exists id, (doLoad_k ("loadTopics:" +:+ connectionId) d).
      * exists (doLoad_k ("loadTopics:" +:+ connectionId) d). cbn. eauto.
      * by exists (doLoad_k ("loadTopics:" +:+ connectionId) d).
    + destruct (loadTopics_not_in_flight _ _ Hin) as (Hc & Hp & Hi & Hpr).
      cbn zeta in *. set (d := S (length (promises w))) in *.
      exists (length (promises w)), (length (calls w)).
      rewrite loadTopics_promise.
      assert (Hf : promises (loadTopics connectionId w).2 !! length (promises w)
                   = Some (Follows d)).
      { rewrite Hpr, lookup_app_r by lia. by rewrite Nat.sub_diag. }
      assert (Hd : promises (loadTopics connectionId w).2 !! d = Some Pending).
      { rewrite Hpr, lookup_app_r by (subst d; lia).
        by replace (d - _)%nat with 1%nat by (subst d; lia). }
      assert (Hk : pending (loadTopics connectionId w).2 !! length (calls w)
                   = Some (doLoad_k ("loadTopics:" +:+ connectionId) d))
        by by rewrite Hp, lookup_insert_eq.
      split; [done|]. split; [|split].
      * right. exists d. split; [done|]. right. split; [done|]. eauto.
      * exists (doLoad_k ("loadTopics:" +:+ connectionId) d). cbn. eauto.
      * by exists (doLoad_k ("loadTopics:" +:+ connectionId) d).
  - exists (length (promises w)), (length (calls w)).
    split; [done|]. apply and_assoc. split.
    + apply await_read; [done..| |done].
      cbn. by rewrite lookup_app_r, Nat.sub_diag by lia.
    + eexists. cbn. by rewrite lookup_insert_eq.
  - exists (length (promises w)), (length (calls w)).
    split; [done|]. apply and_assoc. split.
    + apply await_read; [done..| |done].
      cbn. by rewrite lookup_app_r, Nat.sub_diag by lia.
    + eexists. cbn. by rewrite lookup_insert_eq.
  - exists (length (promises w)), (length (calls w)).
    split; [done|]. apply and_assoc. split.
    + apply await_read; [done..| |done].
      cbn. by rewrite lookup_app_r, Nat.sub_diag by lia.
    + eexists. cbn. by rewrite lookup_insert_eq.
Qed.

(** What a rejection of the awaited call leaves in the state: the
    message and the cleared flags, nothing else. *)
Lemma settle_rejected_state id k reason w :
  pending w !! id = Some k →
  (∀ tok p, k = loadMessages_k tok p → tok = messageRequestId w) →
  state (settle id (Rejected reason) w)
  = merge (state w) (error' (Some (JS.message_or (fallback k) reason)) :: flags_cleared k).
Proof.
  intros Hid Hcur. unfold settle. rewrite Hid.
  destruct k; unfold_actions; cbn; try done.
  rewrite bool_decide_eq_false_2; [done|].
  intros Hne. apply Hne. by eapply Hcur.
Qed.

(** The same for an outcome record reporting failure. *)
Lemma settle_refused_state id k r w :
  outcome_record_failed r →
  pending w !! id = Some k →
  (∀ tok p, k = loadMessages_k tok p → tok = messageRequestId w) →
  state (settle id (Resolved r) w)
  = merge (state w) (error' (Some (reported r (refusal_fallback k))) :: flags_cleared k).
Proof.
  intros Hr Hid Hcur. unfold settle. rewrite Hid.
  pose proof Hr as [Hrec Hs].
  destruct k; unfold_actions; cbn -[bool_decide];
    rewrite ?(topics_of_failed _ Hr), ?(metadata_of_failed _ Hr),
      ?(config_of_failed _ Hr), ?(messages_of_failed _ Hr);
    unfold accepted; rewrite ?Hrec, ?Hs; cbn -[bool_decide];
    rewrite ?failure_is_Error; cbn -[bool_decide]; try done.
  rewrite !bool_decide_eq_false_2; [done|..];
    intros Hne; apply Hne; by eapply Hcur.
Qed.

(** The three mutating actions reject their promise with what they
    caught. *)
Lemma settle_rejected_rethrown id k reason w :
  wf w → pending w !! id = Some k → is_read k = false →
  promises (settle id (Rejected reason) w) !! promise_of k = Some (RejectedWith reason).
Proof.
  intros Hw Hid Hk.
  pose proof (lookup_lt_Some _ _ _ (wf_owned_pending _ Hw _ _ Hid)) as Hlt.
  unfold settle. rewrite Hid.
  destruct k; try discriminate Hk; unfold_actions; cbn in *;
    by apply list_lookup_insert_eq.
Qed.

Lemma settle_refused_rethrown id k r w :
  wf w → outcome_record_failed r → pending w !! id = Some k → is_read k = false →
  promises (settle id (Resolved r) w) !! promise_of k
  = Some (RejectedWith (failure r (refusal_fallback k))).
Proof.
  intros Hw Hr Hid Hk. pose proof Hr as [Hrec Hs].
  pose proof (lookup_lt_Some _ _ _ (wf_owned_pending _ Hw _ _ Hid)) as Hlt.
  unfold settle. rewrite Hid.
  destruct k; try discriminate Hk; unfold_actions; cbn in *;
    rewrite ?(topics_of_failed _ Hr); unfold accepted; rewrite ?Hrec, ?Hs; cbn;
    by apply list_lookup_insert_eq.
Qed.

(** What [createTopic], [deleteTopic] and [produceMessage] do up to
    their [await]. *)
Lemma invoke_write a w :
  is_write_action a = true →
  (invoke a w).1 = Some (length (promises w))
  ∧ Some (calls (invoke a w).2) = (λ c, calls w ++ [c]) <$> write_call a
  ∧ pending (invoke a w).2 !! length (calls w)
    = write_continuation a (length (promises w))
  ∧ (∀ k, write_continuation a (length (promises w)) = Some k →
       promise_of k = length (promises w) ∧ is_read k = false).
Proof.
  intros Ha. destruct a; try discriminate Ha; cbn;
    rewrite lookup_insert_eq; do 3 (split; [done|]); by intros ? [= <-].
Qed.

(** The failure of the first remote call of such an action, as its
    caller sees it. *)
Lemma write_failure_rethrown w a between o later (thrown : continuation → JS.thrown) :
  reachable w → is_write_action a = true →
  Forall (λ e, ¬ settles (length (calls w)) e) between →
  (∀ k, pending (run between (invoke a w).2) !! length (calls w) = Some k →
     is_read k = false →
     promises (settle (length (calls w)) o (run between (invoke a w).2))
       !! promise_of k = Some (RejectedWith (thrown k))) →
  ∃ p k,
    (invoke a w).1 = Some p
    ∧ Some (calls (invoke a w).2) = (λ c, calls w ++ [c]) <$> write_call a
    ∧ write_continuation a p = Some k
    ∧ pending (run between (invoke a w).2) !! length (calls w) = Some k
    ∧ promise_status (run between (invoke a w).2) p = Pending
    ∧ promise_status
        (run later (settle (length (calls w)) o (run between (invoke a w).2))) p
      = RejectedWith (thrown k).
Proof.
  intros Hw Ha Hbetween Hrej.
  destruct (invoke_write a w Ha) as (Hp & Hcalls & Hk & Hprom).
  destruct (write_continuation a (length (promises w))) as [k|] eqn:Hwk;
    [|by destruct a].
  destruct (Hprom k eq_refl) as [Hpk Hread].
  assert (Hw0 : reachable (invoke a w).2) by apply (reachable_step w (Invoke a) Hw).
  assert (Hw1 : reachable (run between (invoke a w).2)) by by apply reachable_run.
  assert (Hlen : (length (calls w) < length (calls (invoke a w).2))%nat).
  { destruct (write_call a); [|done]. injection Hcalls as ->.
    rewrite length_app. cbn. lia. }
  assert (Hid : pending (run between (invoke a w).2) !! length (calls w) = Some k).
  { by rewrite run_pending. }
  exists (length (promises w)), k. do 4 (split; [done|]). split.
  - apply status_of_settled; [|done]. rewrite <- Hpk.
    apply (wf_owned_pending _ (reachable_wf _ Hw1) _ _ Hid).
  - apply status_of_settled; [|done]. apply run_promise_settled; [| |done].
    + apply reachable_wf, reachable_settle, Hw1.
    + rewrite <- Hpk. by apply Hrej.
Qed.

(** C9.  The promise handed back by [loadTopics], [loadTopicMetadata],
    [loadTopicConfig] or [loadMessages] is never rejected: at any later
    time it is pending or fulfilled, and it is fulfilled once the remote
    call it waits for has settled, whatever the outcome.  A failure of
    that call (a rejection, or an outcome record reporting failure)
    changes the state by the error message and the cleared loading
    flags only.  [createTopic], [deleteTopic] and [produceMessage]
    hand back a promise that is pending while their remote call is in
    flight; when that call fails they record the failure the same way,
    and from then on the promise they handed back is rejected with the
    error they caught.  The same holds for any later remote call of
    such an action (the re-listing of [createTopic]). *)
Theorem reads_never_reject :
  (∀ w a later, reachable w → is_read_action a = true →
     ∃ p, (invoke a w).1 = Some p
          ∧ (promise_status (run later (invoke a w).2) p = Pending
             ∨ promise_status (run later (invoke a w).2) p = Fulfilled))
  ∧ (∀ w a, reachable w → is_read_action a = true →
       ∃ p id k, (invoke a w).1 = Some p
         ∧ pending (invoke a w).2 !! id = Some k
         ∧ is_read k = true
         ∧ fallback k = action_fallback a
         ∧ ∀ between o later, Forall (λ e, ¬ settles id e) between →
             promise_status (run later (settle id o (run between (invoke a w).2))) p
             = Fulfilled)
  ∧ (∀ w id k reason, reachable w → pending w !! id = Some k → is_read k = true →
       (∀ tok p, k = loadMessages_k tok p → tok = messageRequestId w) →
       state (settle id (Rejected reason) w)
       = merge (state w)
           (error' (Some (JS.message_or (fallback k) reason)) :: flags_cleared k)
       ∧ promises (settle id (Rejected reason) w) !! promise_of k = Some Fulfilled)
  ∧ (∀ w id k r, reachable w → pending w !! id = Some k → is_read k = true →
       (∀ tok p, k = loadMessages_k tok p → tok = messageRequestId w) →
       outcome_record_failed r →
       state (settle id (Resolved r) w)
       = merge (state w)
           (error' (Some (reported r (refusal_fallback k))) :: flags_cleared k)
       ∧ promises (settle id (Resolved r) w) !! promise_of k = Some Fulfilled)
  ∧ (∀ w a between reason later, reachable w → is_write_action a = true →
       Forall (λ e, ¬ settles (length (calls w)) e) between →
       ∃ p k,
         (invoke a w).1 = Some p
         ∧ Some (calls (invoke a w).2) = (λ c, calls w ++ [c]) <$> write_call a
         ∧ write_continuation a p = Some k
         ∧ fallback k = action_fallback a
         ∧ promise_status (run between (invoke a w).2) p = Pending
         ∧ state (settle (length (calls w)) (Rejected reason)
                    (run between (invoke a w).2))
           = merge (state (run between (invoke a w).2))
               (error' (Some (JS.message_or (fallback k) reason)) :: flags_cleared k)
         ∧ promise_status
             (run later (settle (length (calls w)) (Rejected reason)
                           (run between (invoke a w).2))) p
           = RejectedWith reason)
  ∧ (∀ w a between r later, reachable w → is_write_action a = true →
       Forall (λ e, ¬ settles (length (calls w)) e) between →
       outcome_record_failed r →
       ∃ p k,
         (invoke a w).1 = Some p
         ∧ write_continuation a p = Some k
         ∧ fallback k = action_fallback a
         ∧ state (settle (length (calls w)) (Resolved r)
                    (run between (invoke a w).2))
           = merge (state (run between (invoke a w).2))
               (error' (Some (reported r (fallback k))) :: flags_cleared k)
         ∧ promise_status
             (run later (settle (length (calls w)) (Resolved r)
                           (run between (invoke a w).2))) p
           = RejectedWith (JS.Error (reported r (fallback k))))
  ∧ (∀ w id k reason, reachable w → pending w !! id = Some k → is_read k = false →
       state (settle id (Rejected reason) w)
       = merge (state w)
           (error' (Some (JS.message_or (fallback k) reason)) :: flags_cleared k)
       ∧ promises (settle id (Rejected reason) w) !! promise_of k
         = Some (RejectedWith reason))
  ∧ (∀ w id k r, reachable w → pending w !! id = Some k → is_read k = false →
       outcome_record_failed r →
       state (settle id (Resolved r) w)
       = merge (state w)
           (error' (Some (reported r (refusal_fallback k))) :: flags_cleared k)
       ∧ promises (settle id (Resolved r) w) !! promise_of k
         = Some (RejectedWith (JS.Error (reported r (refusal_fallback k))))).
Proof.
  repeat apply conj.
  - intros w a later Hw Ha.
    destruct (invoke_read a w (reachable_wf _ Hw) Ha) as (p & id & Hp & Hn & _ & _).
    exists p. split; [done|]. apply never_rejects_status, never_rejects_run; [|done].
    apply reachable_wf, (reachable_step w (Invoke a) Hw).
  - intros w a Hw Ha.
    destruct (invoke_read a w (reachable_wf _ Hw) Ha)
      as (p & id & Hp & _ & Hwait & k & Hk & Hfb).
    exists p, id, k. split; [done|]. split; [done|]. split.
    { destruct Hwait as (k' & Hk' & Hread & _). congruence. }
    split; [done|].
    intros between o later Hbetween.
    assert (Hw1 : wf (invoke a w).2)
      by apply reachable_wf, (reachable_step w (Invoke a) Hw).
    assert (Hw2 : wf (run between (invoke a w).2)).
    { apply reachable_wf, reachable_run, (reachable_step w (Invoke a) Hw). }
    apply fulfilled_status, fulfilled_run.
    + apply (wf_step _ (Settle id o) Hw2).
    + apply waits_for_settle; [done|]. by apply waits_for_run.
  - intros w id k reason Hw Hid Hk Hcur. split.
    + by apply settle_rejected_state.
    + apply settle_read_fulfils; [by apply reachable_wf|done..].
  - intros w id k r Hw Hid Hk Hcur Hr. split.
    + by apply settle_refused_state.
    + apply settle_read_fulfils; [by apply reachable_wf|done..].
  - intros w a between reason later Hw Ha Hbetween.
    assert (Hw1 : reachable (run between (invoke a w).2)).
    { apply reachable_run, (reachable_step w (Invoke a) Hw). }
    destruct (write_failure_rethrown w a between (Rejected reason) later
                (λ _, reason) Hw Ha Hbetween)
      as (p & k & Hp & Hc & Hk & Hid & Hpend & Hrej).
    { intros k Hid Hk. apply settle_rejected_rethrown; [by apply reachable_wf|done..]. }
    exists p, k. do 3 (split; [done|]).
    split; [by destruct a; try discriminate Ha; injection Hk as <-|].
    split; [done|]. split; [|done].
    apply settle_rejected_state; [done|]. intros tok q ->. by destruct a.
  - intros w a between r later Hw Ha Hbetween Hr.
    assert (Hw1 : reachable (run between (invoke a w).2)).
    { apply reachable_run, (reachable_step w (Invoke a) Hw). }
    destruct (write_failure_rethrown w a between (Resolved r) later
                (λ k, JS.Error (reported r (fallback k))) Hw Ha Hbetween)
      as (p & k & Hp & Hc & Hk & Hid & Hpend & Hrej).
    { intros k Hid Hk. rewrite <- failure_is_Error.
      assert (Hfb : fallback k = refusal_fallback k).
      { pose proof (run_pending between (invoke a w).2 (length (calls w)) Hbetween) as Hrp.
        destruct (invoke_write a w Ha) as (_ & Hcalls & Hpk & _).
        rewrite Hrp, Hpk in Hid.
        - by destruct a; try discriminate Ha; injection Hid as <-.
        - destruct (write_call a); [|done]. injection Hcalls as ->.
          rewrite length_app. cbn. lia. }
      rewrite Hfb.
      apply settle_refused_rethrown; [by apply reachable_wf|done..]. }
    exists p, k. do 2 (split; [done|]).
    split; [by destruct a; try discriminate Ha; injection Hk as <-|].
    split; [|done].
    assert (Hfb : fallback k = refusal_fallback k).
    { by destruct a; try discriminate Ha; injection Hk as <-. }
    rewrite Hfb.
    apply settle_refused_state; [done..|]. intros tok q ->. by destruct a.
  - intros w id k reason Hw Hid Hk. split.
    + apply settle_rejected_state; [done|]. intros tok p ->. discriminate Hk.
    + apply settle_rejected_rethrown; [by apply reachable_wf|done..].
  - intros w id k r Hw Hid Hk Hr. split.
    + apply settle_refused_state; [done..|]. intros tok p ->. discriminate Hk.
    + rewrite <- failure_is_Error.
      apply settle_refused_rethrown; [by apply reachable_wf|done..].
Qed.

(** C9 on a rejected [getTopics] and a rejected [deleteTopic]. *)
Lemma reads_never_reject_witness :
  promise_status
    (run [Settle 0 (Rejected (JS.Error "down"))] (invoke (LoadTopics "c") init).2)
    0 = Fulfilled
  ∧ state (settle 0 (Rejected (JS.Error "down")) (invoke (LoadTopics "c") init).2)
    = merge (state (invoke (LoadTopics "c") init).2)
        [error' (Some "down"); isLoadingTopics' false; isLoading' false]
  ∧ promise_status
      (run [Invoke (LoadTopics "c")]
         (settle 0 (Rejected (JS.Error "down"))
            (run [] (invoke (DeleteTopic "c" "t") init).2))) 0
    = RejectedWith (JS.Error "down").
Proof.
  destruct reads_never_reject as (H1 & _ & H3 & _ & H5 & _).
  destruct (H1 init (LoadTopics "c") [Settle 0 (Rejected (JS.Error "down"))]
              reachable_init eq_refl) as (p & Hp & Hs).
  injection Hp as <-.
  destruct (H3 (invoke (LoadTopics "c") init).2 0%nat
              (doLoad_k "loadTopics:c" 1) (JS.Error "down")
              (reachable_step init (Invoke (LoadTopics "c")) reachable_init)
              eq_refl eq_refl) as (Hstate & _); [discriminate|].
  destruct (H5 init (DeleteTopic "c" "t") [] (JS.Error "down")
              [Invoke (LoadTopics "c")] reachable_init eq_refl (Forall_nil_2 _))
    as (q & k & Hq & _ & _ & _ & _ & _ & Hrej).
  injection Hq as <-.
  split; [|exact (conj Hstate Hrej)].
  destruct Hs as [Hs|Hs]; [|exact Hs]. vm_compute in Hs. discriminate Hs.
Defined.

(** *** Further properties of the topic store *)

(** X1.  When [getTopics] resolves with an array, bare or inside an
    outcome record reporting success, [loadTopics] sorts it.  The sort
    returns unless the array has two or more elements other than
    [undefined] and one of them does not convert to a string; an array
    of strings always sorts.  If the sort returns, the list committed
    is a rearrangement of the array in the ascending order of the
    default sort, and [error] is left as it was.  If the sort throws,
    [topics] is left as it was and the message of the [TypeError] is
    recorded.  Either way [isLoadingTopics] is cleared. *)
Theorem loadTopics_commits_sorted w id key p r l :
  pending w !! id = Some (doLoad_k key p) →
  r = JS.Arr l ∨ outcome_record_ok r (JS.Arr l) →
  ((∃ sorted, JS.sort l = inr sorted)
   ↔ (length (JS.defined l) ≤ 1)%nat ∨ Forall JS.converts (JS.defined l))
  ∧ (Forall (λ v, ∃ s, v = JS.Str s) l → ∃ sorted, JS.sort l = inr sorted)
  ∧ (∀ sorted, JS.sort l = inr sorted →
       topics (state (settle id (Resolved r) w)) = sorted
       ∧ sorted ≡ₚ l ∧ JS.ascending sorted
       ∧ error (state (settle id (Resolved r) w)) = error (state w))
  ∧ (∀ thrown, JS.sort l = inl thrown →
       topics (state (settle id (Resolved r) w)) = topics (state w)
       ∧ error (state (settle id (Resolved r) w))
         = Some "Cannot convert object to primitive value")
  ∧ isLoadingTopics (state (settle id (Resolved r) w)) = false.
Proof.
  intros Hid Hr.
  assert (topics_of r = inr (JS.Arr l)) as Ht.
  { destruct Hr as [->|Hr]; [done|by apply topics_of_record]. }
  unfold settle. rewrite Hid. cbn. unfold doLoad_resume. cbn. rewrite Ht. cbn.
  split; [apply JSFacts.sort_returns_iff|]. split.
  { intros Hl. apply JSFacts.sort_converts.
    eapply Forall_impl; [exact Hl|]. intros v [s ->]. apply JSFacts.converts_Str. }
  repeat apply conj.
  - intros sorted Hs. rewrite Hs. cbn.
    by pose proof (JSFacts.sort_perm _ _ Hs); pose proof (JSFacts.sort_ascending _ _ Hs).
  - intros thrown Hs. rewrite Hs. cbn.
    by rewrite (JSFacts.sort_throws _ _ Hs).
  - by destruct (JS.sort l).
Qed.

Lemma loadTopics_commits_sorted_witness :
  topics (state (settle 0
    (Resolved (JS.Obj [("success", JS.Bool true);
                       ("data", JS.Arr [JS.Str "b"; JS.Str "a"])]))
    (loadTopics "c" init).2))
  = [JS.Str "a"; JS.Str "b"].
Proof.
  destruct (loadTopics_commits_sorted (loadTopics "c" init).2 0 "loadTopics:c" 1
              (JS.Obj [("success", JS.Bool true);
                       ("data", JS.Arr [JS.Str "b"; JS.Str "a"])])
              [JS.Str "b"; JS.Str "a"]) as (_ & _ & H & _).
  - reflexivity.
  - right. repeat split.
  - by destruct (H [JS.Str "a"; JS.Str "b"] eq_refl) as (-> & _).
Defined.

(** Where a suspended [loadMessages] comes from: it was there before
    the step, or the step is its invocation and its token is the new
    value of the counter. *)
Lemma step_pending_loadMessages w e id tok p :
  pending (step w e) !! id = Some (loadMessages_k tok p) →
  pending w !! id = Some (loadMessages_k tok p)
  ∨ (id = length (calls w) ∧ tok = js_incr (messageRequestId w)).
Proof.
  destruct e as [a|id' o]; cbn -[invoke settle].
  - destruct a; unfold_actions; cbn; split_cases; cbn;
      rewrite ?lookup_insert_Some; intuition congruence.
  - unfold settle. destruct (pending w !! id') as [k|] eqn:Hid'; [|by left].
    destruct k, o; unfold_actions; cbn; split_cases; cbn;
      rewrite ?lookup_insert_Some, ?lookup_delete_Some; intuition congruence.
Qed.

Lemma reachable_tokens_distinct w :
  reachable w →
  ∀ id1 id2 tok p1 p2,
    pending w !! id1 = Some (loadMessages_k tok p1) →
    pending w !! id2 = Some (loadMessages_k tok p2) →
    tok < 2 ^ 53 → id1 = id2.
Proof.
  induction 1 as [|w e Hw IH]; intros id1 id2 tok p1 p2 H1 H2 Htok.
  { cbn in H1. by rewrite lookup_empty in H1. }
  pose proof (reachable_wf _ Hw) as Hwf.
  pose proof (js_incr_ge (messageRequestId w)) as Hge.
  assert (Hsat : ∀ id p, pending w !! id = Some (loadMessages_k tok p) →
                   tok = js_incr (messageRequestId w) → False).
  { intros id p Hid ->. pose proof (wf_token _ Hwf _ _ _ Hid) as Hle.
    unfold js_incr in *. case_match; lia. }
  apply step_pending_loadMessages in H1 as [H1|[-> Ht1]];
    apply step_pending_loadMessages in H2 as [H2|[-> Ht2]].
  - by eapply IH.
  - by destruct (Hsat _ _ H1).
  - by destruct (Hsat _ _ H2).
  - done.
Qed.

(** X2.  In a reachable world two different suspended [loadMessages]
    calls never hold the same token below [2^53]: while the counter is
    below [2^53], at most one suspended call is current and can still
    commit. *)
Theorem suspended_tokens_differ w id1 id2 tok1 tok2 p1 p2 :
  reachable w → id1 ≠ id2 →
  pending w !! id1 = Some (loadMessages_k tok1 p1) →
  pending w !! id2 = Some (loadMessages_k tok2 p2) →
  tok1 < 2 ^ 53 →
  tok1 ≠ tok2.
Proof.
  intros Hw Hne H1 H2 Htok <-. apply Hne.
  by eapply reachable_tokens_distinct.
Qed.

Lemma suspended_tokens_differ_witness :
  messageRequestId (loadMessages "c" "t1" JS.Undefined init).2
  ≠ messageRequestId
      (run [Invoke (LoadMessages "c" "t1" JS.Undefined);
            Invoke (LoadMessages "c" "t2" JS.Undefined)] init).
Proof.
  apply (suspended_tokens_differ
           (run [Invoke (LoadMessages "c" "t1" JS.Undefined);
                 Invoke (LoadMessages "c" "t2" JS.Undefined)] init)
           0 1 _ _ 0 1).
  - apply reachable_run, reachable_init.
  - discriminate.
  - reflexivity.
  - reflexivity.
  - vm_compute. reflexivity.
Defined.

Lemma js_incr_min n : n ≤ 2 ^ 53 → js_incr n = Z.min (n + 1) (2 ^ 53).
Proof. intros Hn. unfold js_incr. case_match; lia. Qed.

Lemma step_counter w e :
  messageRequestId (step w e)
  = if is_loadMessages e then js_incr (messageRequestId w) else messageRequestId w.
Proof.
  destruct e as [a|id o]; cbn -[invoke settle]; [|apply settle_counter].
  destruct a; unfold_actions; cbn; split_cases; done.
Qed.

Lemma count_loadMessages_cons e es :
  count_loadMessages (e :: es)
  = if is_loadMessages e then S (count_loadMessages es) else count_loadMessages es.
Proof.
  unfold count_loadMessages. rewrite filter_cons.
  destruct (is_loadMessages e); by case_decide.
Qed.

Lemma run_counter_count es w :
  messageRequestId w ≤ 2 ^ 53 →
  messageRequestId (run es w)
  = Z.min (messageRequestId w + Z.of_nat (count_loadMessages es)) (2 ^ 53).
Proof.
  revert w. induction es as [|e es IH]; intros w Hw.
  { unfold count_loadMessages. cbn. lia. }
  change (run (e :: es) w) with (run es (step w e)).
  rewrite count_loadMessages_cons.
  rewrite IH; rewrite step_counter; destruct (is_loadMessages e);
    try rewrite js_incr_min by done; lia.
Qed.

(** X3.  The request counter counts the invocations of [loadMessages]
    since the program started, up to [2^53], where it stays. *)
Theorem counter_counts_loadMessages es :
  messageRequestId (run es init)
  = Z.min (Z.of_nat (count_loadMessages es)) (2 ^ 53).
Proof. rewrite run_counter_count; cbn; [done|lia]. Qed.

(** X4.  [loadTopicMetadata] and [loadTopicConfig] are not fenced: of
    two calls in flight, the one that settles last is the one whose
    result the state holds, whichever was issued first. *)
Theorem unfenced_loads_last_settled_wins w :
  reachable w →
  (∀ idA idB pA pB rA rB mA mB,
     idA ≠ idB →
     pending w !! idA = Some (loadTopicMetadata_k pA) →
     pending w !! idB = Some (loadTopicMetadata_k pB) →
     metadata_of rA = inr mA → metadata_of rB = inr mB →
     topicMetadata
       (state (settle idA (Resolved rA) (settle idB (Resolved rB) w))) = mA
     ∧ topicMetadata
         (state (settle idB (Resolved rB) (settle idA (Resolved rA) w))) = mB)
  ∧ (∀ idA idB pA pB rA rB cA cB,
       idA ≠ idB →
       pending w !! idA = Some (loadTopicConfig_k pA) →
       pending w !! idB = Some (loadTopicConfig_k pB) →
       config_of rA = inr cA → config_of rB = inr cB →
       topicConfig
         (state (settle idA (Resolved rA) (settle idB (Resolved rB) w))) = cA
       ∧ topicConfig
           (state (settle idB (Resolved rB) (settle idA (Resolved rA) w))) = cB).
Proof.
  intros Hw. pose proof (reachable_wf _ Hw) as Hwf.
  assert (Hmd : ∀ w' id p r m,
    pending w' !! id = Some (loadTopicMetadata_k p) → metadata_of r = inr m →
    topicMetadata (state (settle id (Resolved r) w')) = m).
  { intros w' id p r m Hid Hm. unfold settle. rewrite Hid. cbn.
    unfold loadTopicMetadata_resume. cbn. by rewrite Hm. }
  assert (Hcf : ∀ w' id p r c,
    pending w' !! id = Some (loadTopicConfig_k p) → config_of r = inr c →
    topicConfig (state (settle id (Resolved r) w')) = c).
  { intros w' id p r c Hid Hc. unfold settle. rewrite Hid. cbn.
    unfold loadTopicConfig_resume. cbn. by rewrite Hc. }
  split.
  - intros idA idB pA pB rA rB mA mB Hne HA HB HmA HmB. split.
    + apply (Hmd _ _ pA); [|done]. rewrite settle_pending; [done..|].
      by eapply wf_issued.
    + apply (Hmd _ _ pB); [|done]. rewrite settle_pending; [done..|].
      by eapply wf_issued.
  - intros idA idB pA pB rA rB cA cB Hne HA HB HcA HcB. split.
    + apply (Hcf _ _ pA); [|done]. rewrite settle_pending; [done..|].
      by eapply wf_issued.
    + apply (Hcf _ _ pB); [|done]. rewrite settle_pending; [done..|].
      by eapply wf_issued.
Qed.

(** X4 on metadata loads for two topics, the first issued settling
    last. *)
Lemma unfenced_loads_last_settled_wins_witness :
  topicMetadata (state (run [Invoke (LoadTopicMetadata "c" "t1");
                             Invoke (LoadTopicMetadata "c" "t2");
                             Settle 1 (Resolved (JS.Obj [("name", JS.Str "t2")]));
                             Settle 0 (Resolved (JS.Obj [("name", JS.Str "t1")]))]
                          init))
  = JS.Obj [("name", JS.Str "t1")].
Proof.
  destruct (unfenced_loads_last_settled_wins
              (run [Invoke (LoadTopicMetadata "c" "t1");
                    Invoke (LoadTopicMetadata "c" "t2")] init)) as [H _].
  - apply reachable_run, reachable_init.
  - destruct (H 0%nat 1%nat 0%nat 1%nat
                (JS.Obj [("name", JS.Str "t1")]) (JS.Obj [("name", JS.Str "t2")])
                (JS.Obj [("name", JS.Str "t1")]) (JS.Obj [("name", JS.Str "t2")]))
      as [HA _]; [discriminate | reflexivity..|exact HA].
Defined.

Lemma run_counter_same es w :
  Forall (λ e, is_loadMessages e = false) es →
  messageRequestId (run es w) = messageRequestId w.
Proof.
  revert w. induction es as [|e es IH]; intros w Hes; [done|].
  apply Forall_cons in Hes as [He Hes].
  change (run (e :: es) w) with (run es (step w e)).
  by rewrite IH, step_counter, He.
Qed.

(** X5.  Only a newer [loadMessages] supersedes a [loadMessages] call.
    After any events other than its own settlement and invocations of
    [loadMessages] (selections, [clearMessages], [reset], other loads
    and their settlements) a call that was current is still current,
    and its result is committed. *)
Theorem only_loadMessages_supersedes w id p es r m :
  reachable w →
  pending w !! id = Some (loadMessages_k (messageRequestId w) p) →
  Forall (λ e, ¬ settles id e) es →
  Forall (λ e, is_loadMessages e = false) es →
  messages_of r = inr m →
  state (settle id (Resolved r) (run es w))
  = merge (state (run es w)) [messages' m; isLoadingMessages' false].
Proof.
  intros Hw Hid Hns Hnl Hm.
  rewrite (settle_current_resolved id p r m); [done| |done].
  rewrite run_pending, run_counter_same; [done..|].
  by eapply wf_issued; [apply reachable_wf|].
Qed.

(** X5 on a call for topic [t1] followed by another selection, a
    [reset] and a [clearMessages]. *)
Lemma only_loadMessages_supersedes_witness :
  messages (state (run [Invoke (LoadMessages "c" "t1" JS.Undefined);
                        Invoke (SelectTopic (Some "t2"));
                        Invoke Reset;
                        Invoke ClearMessages;
                        Settle 0 (Resolved (JS.Arr [JS.Str "m1"]))] init))
  = JS.Arr [JS.Str "m1"].
Proof.
  pose proof (only_loadMessages_supersedes
                (run [Invoke (LoadMessages "c" "t1" JS.Undefined)] init) 0 0
                [Invoke (SelectTopic (Some "t2")); Invoke Reset; Invoke ClearMessages]
                (JS.Arr [JS.Str "m1"]) (JS.Arr [JS.Str "m1"])) as H.
  change (state (run [Invoke (LoadMessages "c" "t1" JS.Undefined);
                      Invoke (SelectTopic (Some "t2"));
                      Invoke Reset;
                      Invoke ClearMessages;
                      Settle 0 (Resolved (JS.Arr [JS.Str "m1"]))] init))
    with (state (settle 0 (Resolved (JS.Arr [JS.Str "m1"]))
                   (run [Invoke (SelectTopic (Some "t2")); Invoke Reset;
                         Invoke ClearMessages]
                      (run [Invoke (LoadMessages "c" "t1" JS.Undefined)] init)))).
  rewrite H; [reflexivity| | | | |].
  - apply reachable_run, reachable_init.
  - reflexivity.
  - repeat constructor; intros [o Ho]; discriminate Ho.
  - repeat constructor.
  - reflexivity.
Defined.

Lemma strict_eq_string_false t s :
  JS.strict_eq_string t s = false ↔ t ≠ JS.Str s.
Proof.
  destruct t; cbn; try (split; [intros _; discriminate|done]).
  rewrite String.eqb_neq. split; [intros Hne [= ->]; done|intros Hne ->; done].
Qed.

Lemma accepted_unless_failed fb r :
  ¬ outcome_record_failed r → accepted fb r = inr ().
Proof.
  intros Hr. unfold accepted.
  destruct (is_outcome_record r) eqn:Hrec; [|done].
  destruct (JS.truthy (JS.get "success" r)) eqn:Hs; [done|].
  by destruct Hr.
Qed.

(** X6.  When [deleteTopic] is not refused, the topic is removed from
    the local list without a new remote call: the list becomes the
    entries that are not the deleted name, each as often as before and
    in the same order, and the selection becomes [null] exactly when
    it was the deleted topic and stays as it was otherwise.  Entries
    are compared with [!==], so only the string itself is removed. *)
Theorem deleteTopic_removes_locally w id topic p r :
  reachable w →
  pending w !! id = Some (deleteTopic_k topic p) →
  ¬ outcome_record_failed r →
  topics (state (settle id (Resolved r) w))
  = filter (λ t, JS.strict_eq_string t topic = false) (topics (state w))
  ∧ (∀ t, JS.strict_eq_string t topic = false ↔ t ≠ JS.Str topic)
  ∧ (JS.Str topic ∉ topics (state (settle id (Resolved r) w)))
  ∧ (∀ t, t ≠ JS.Str topic →
       (t ∈ topics (state (settle id (Resolved r) w)) ↔ t ∈ topics (state w)))
  ∧ topics (state (settle id (Resolved r) w)) `sublist_of` topics (state w)
  ∧ (selectedTopic (state w) = Some topic →
     selectedTopic (state (settle id (Resolved r) w)) = None)
  ∧ (selectedTopic (state w) ≠ Some topic →
     selectedTopic (state (settle id (Resolved r) w)) = selectedTopic (state w))
  ∧ calls (settle id (Resolved r) w) = calls w
  ∧ error (state (settle id (Resolved r) w)) = error (state w)
  ∧ promises (settle id (Resolved r) w) !! p = Some Fulfilled.
Proof.
  intros Hw Hid Hr.
  pose proof (lookup_lt_Some _ _ _
                (wf_owned_pending _ (reachable_wf _ Hw) _ _ Hid)) as Hlt.
  unfold settle. rewrite Hid. cbn. unfold deleteTopic_resume. cbn.
  rewrite (accepted_unless_failed _ _ Hr). cbn.
  split; [done|]. split; [intros t; apply strict_eq_string_false|].
  repeat apply conj.
  - rewrite list_elem_of_filter, strict_eq_string_false. by intros [Hne _].
  - intros t Ht. rewrite list_elem_of_filter, strict_eq_string_false. tauto.
  - apply sublist_filter.
  - intros Hsel. by rewrite bool_decide_eq_true_2.
  - intros Hsel. by rewrite bool_decide_eq_false_2.
  - done.
  - done.
  - by apply list_lookup_insert_eq.
Qed.

(** X6 on a list of three topics with the deleted one selected. *)
Lemma deleteTopic_removes_locally_witness :
  topics (state (run [Invoke (LoadTopics "c");
                      Settle 0 (Resolved (JS.Arr [JS.Str "a"; JS.Str "b"; JS.Str "c"]));
                      Invoke (SelectTopic (Some "b"));
                      Invoke (DeleteTopic "c" "b");
                      Settle 1 (Resolved (JS.Obj [("success", JS.Bool true)]))] init))
  = [JS.Str "a"; JS.Str "c"]
  ∧ selectedTopic
      (state (run [Invoke (LoadTopics "c");
                   Settle 0 (Resolved (JS.Arr [JS.Str "a"; JS.Str "b"; JS.Str "c"]));
                   Invoke (SelectTopic (Some "b"));
                   Invoke (DeleteTopic "c" "b");
                   Settle 1 (Resolved (JS.Obj [("success", JS.Bool true)]))] init))
    = None.
Proof.
  destruct (deleteTopic_removes_locally
              (run [Invoke (LoadTopics "c");
                    Settle 0 (Resolved (JS.Arr [JS.Str "a"; JS.Str "b"; JS.Str "c"]));
                    Invoke (SelectTopic (Some "b"));
                    Invoke (DeleteTopic "c" "b")] init)
              1 "b" 2 (JS.Obj [("success", JS.Bool true)]))
    as (H1 & _ & _ & _ & _ & H2 & _).
  - apply reachable_run, reachable_init.
  - reflexivity.
  - intros [_ Hs]. discriminate Hs.
  - exact (conj H1 (H2 eq_refl)).
Defined.

(** X7.  [createTopic] makes its two remote calls in sequence.  The
    re-listing [getTopics] goes out only when the creation has settled
    and was not refused; it does not go through [inFlightRequests], and
    nothing is written to the state between the two calls.  The promise
    stays pending until the re-listing settles.  Then the array is
    sorted: if the sort returns, which it does when every element
    converts to a string, the sorted list is committed and the promise
    is fulfilled; if it throws, [topics] is left alone, the message is
    recorded and the promise is rejected with the [TypeError].  A
    creation that is rejected or refused issues no re-listing. *)
Theorem createTopic_sequence w c cfg between1 between2 r1 r2 l :
  reachable w →
  let id1 := length (calls w) in
  let p := (createTopic c cfg w).1 in
  let w1 := run between1 (createTopic c cfg w).2 in
  let id2 := length (calls w1) in
  let w2 := settle id1 (Resolved r1) w1 in
  let w3 := run between2 w2 in
  let w4 := settle id2 (Resolved r2) w3 in
  Forall (λ e, ¬ settles id1 e) between1 →
  ¬ outcome_record_failed r1 →
  Forall (λ e, ¬ settles id2 e) between2 →
  r2 = JS.Arr l ∨ outcome_record_ok r2 (JS.Arr l) →
  calls (createTopic c cfg w).2 = calls w ++ [kafka.createTopic c cfg]
  ∧ calls w2 = calls w1 ++ [kafka.getTopics c]
  ∧ state w2 = state w1
  ∧ observed w2 = observed w1
  ∧ inFlightRequests w2 = inFlightRequests w1
  ∧ promise_status w3 p = Pending
  ∧ (Forall JS.converts l → ∃ sorted, JS.sort l = inr sorted)
  ∧ (∀ sorted, JS.sort l = inr sorted →
       topics (state w4) = sorted ∧ sorted ≡ₚ l ∧ JS.ascending sorted
       ∧ error (state w4) = error (state w3)
       ∧ promise_status w4 p = Fulfilled)
  ∧ (∀ thrown, JS.sort l = inl thrown →
       topics (state w4) = topics (state w3)
       ∧ error (state w4) = Some "Cannot convert object to primitive value"
       ∧ promise_status w4 p = RejectedWith thrown)
  ∧ (∀ reason, calls (settle id1 (Rejected reason) w1) = calls w1)
  ∧ (∀ r, outcome_record_failed r → calls (settle id1 (Resolved r) w1) = calls w1).
Proof.
  intros Hw id1 p w1 id2 w2 w3 w4 Hb1 Hr1 Hb2 Hr2.
  assert (Hw0 : reachable (createTopic c cfg w).2)
    by apply (reachable_step w (Invoke (CreateTopic c cfg)) Hw).
  assert (Hw1 : reachable w1) by by apply reachable_run.
  assert (Hid1 : pending w1 !! id1 = Some (createTopic_k c p)).
  { subst w1. rewrite run_pending; [|done|].
    - cbn. by rewrite lookup_insert_eq.
    - cbn. rewrite length_app. cbn. lia. }
  assert (Hw2 : w2 = await (kafka.getTopics c) (createTopic_list_k p) (resume id1 w1)).
  { subst w2. unfold settle. rewrite Hid1. cbn. unfold createTopic_resume. cbn.
    by rewrite (accepted_unless_failed _ _ Hr1). }
  assert (Hr2' : reachable w2) by by apply reachable_settle.
  assert (Hid2 : pending w3 !! id2 = Some (createTopic_list_k p)).
  { subst w3. rewrite run_pending; [|done|].
    - rewrite Hw2. cbn. by rewrite lookup_insert_eq.
    - rewrite Hw2. cbn. rewrite length_app. cbn. lia. }
  assert (Hw3 : reachable w3) by by apply reachable_run.
  pose proof (wf_owned_pending _ (reachable_wf _ Hw3) _ _ Hid2) as Hp3. cbn in Hp3.
  assert (Ht : topics_of r2 = inr (JS.Arr l)).
  { destruct Hr2 as [->|Hr2]; [done|by apply topics_of_record]. }
  pose proof (lookup_lt_Some _ _ _ Hp3) as Hlt.
  assert (Hw4 : w4 = match JS.sort l with
                     | inr sorted =>
                         settle_promise p Fulfilled
                           (set [topics' sorted; isLoadingTopics' false;
                                 isLoading' false] (resume id2 w3))
                     | inl error => createTopic_catch p error (resume id2 w3)
                     end).
  { subst w4. unfold settle. rewrite Hid2. cbn. unfold createTopic_list_resume.
    cbn. by rewrite Ht. }
  split; [done|]. rewrite Hw2. do 4 (split; [done|]).
  split; [by apply status_of_settled|].
  split; [apply JSFacts.sort_converts|]. rewrite Hw4. split; [|split; [|split]].
  - intros sorted Hs. rewrite Hs. cbn.
    pose proof (JSFacts.sort_perm _ _ Hs). pose proof (JSFacts.sort_ascending _ _ Hs).
    do 4 (split; [done|]).
    apply status_of_settled; [|done]. by apply list_lookup_insert_eq.
  - intros thrown Hs. rewrite Hs. cbn.
    split; [done|]. split; [by rewrite (JSFacts.sort_throws _ _ Hs)|].
    apply status_of_settled; [|done]. by apply list_lookup_insert_eq.
  - intros reason. unfold settle. by rewrite Hid1.
  - intros r [Hrec Hs]. unfold settle. rewrite Hid1. cbn.
    unfold createTopic_resume, accepted. cbn. by rewrite Hrec, Hs.
Qed.

(** X7 on a creation while a [loadTopics] for the same connection is
    in flight: both [getTopics] calls are in the log. *)
Lemma createTopic_sequence_witness :
  calls (settle 0 (Resolved (JS.Obj [("success", JS.Bool true)]))
           (run [Invoke (LoadTopics "c")]
              (createTopic "c" (JS.Obj [("name", JS.Str "t")]) init).2))
  = [kafka.createTopic "c" (JS.Obj [("name", JS.Str "t")]);
     kafka.getTopics "c"; kafka.getTopics "c"]
  ∧ promise_status
      (settle 2 (Resolved (JS.Arr [JS.Str "t"]))
         (run []
            (settle 0 (Resolved (JS.Obj [("success", JS.Bool true)]))
               (run [Invoke (LoadTopics "c")]
                  (createTopic "c" (JS.Obj [("name", JS.Str "t")]) init).2))))
      0 = Fulfilled.
Proof.
  destruct (createTopic_sequence init "c" (JS.Obj [("name", JS.Str "t")])
              [Invoke (LoadTopics "c")] []
              (JS.Obj [("success", JS.Bool true)]) (JS.Arr [JS.Str "t"])
              [JS.Str "t"] reachable_init)
    as (_ & H2 & _ & _ & _ & _ & _ & H9 & _).
  - repeat constructor. intros [o Ho]. discriminate Ho.
  - intros [_ Hs]. discriminate Hs.
  - constructor.
  - by left.
  - split; [exact H2|]. by destruct (H9 [JS.Str "t"] eq_refl) as (_ & _ & _ & _ & H).
Defined.

(** X8.  Deduplication is per connection: a [loadTopics] in flight for
    one connection does not hold back a [loadTopics] for another. *)
Theorem loadTopics_other_connection w c1 c2 :
  c1 ≠ c2 →
  inFlightRequests w !! ("loadTopics:" +:+ c2) = None →
  calls (loadTopics c2 (loadTopics c1 w).2).2
  = calls (loadTopics c1 w).2 ++ [kafka.getTopics c2]
  ∧ is_Some (inFlightRequests (loadTopics c1 w).2 !! ("loadTopics:" +:+ c1)).
Proof.
  intros Hne Hnone.
  assert (Hkey : "loadTopics:" +:+ c1 ≠ "loadTopics:" +:+ c2).
  { intros Heq. by apply Hne, (inj (String.app "loadTopics:")). }
  destruct (inFlightRequests w !! ("loadTopics:" +:+ c1)) as [d|] eqn:Hin.
  - rewrite (loadTopics_in_flight _ _ _ Hin). split.
    + by apply loadTopics_not_in_flight.
    + cbn. by rewrite Hin.
  - destruct (loadTopics_not_in_flight c1 w Hin) as (_ & _ & Hi & _). split.
    + apply loadTopics_not_in_flight. by rewrite Hi, lookup_insert_ne.
    + rewrite Hi, lookup_insert_eq. by eexists.
Qed.

Lemma loadTopics_other_connection_witness :
  calls (loadTopics "c2" (loadTopics "c1" init).2).2
  = [kafka.getTopics "c1"; kafka.getTopics "c2"].
Proof.
  destruct (loadTopics_other_connection init "c1" "c2") as [H _].
  - discriminate.
  - reflexivity.
  - exact H.
Defined.

(** X9.  [isLoading] is one flag for [loadTopics], [createTopic],
    [deleteTopic] and [produceMessage]: when one of them finishes,
    whatever the outcome, the flag is false although another is still
    suspended. *)
Theorem isLoading_cleared_by_first_to_finish w id1 id2 k1 k2 o :
  reachable w → id1 ≠ id2 →
  pending w !! id1 = Some k1 → clears_isLoading k1 = true →
  pending w !! id2 = Some k2 →
  isLoading (state (settle id1 o w)) = false
  ∧ pending (settle id1 o w) !! id2 = Some k2.
Proof.
  intros Hw Hne H1 Hk1 H2. split.
  - unfold settle. rewrite H1.
    destruct k1, o; try discriminate Hk1; unfold_actions; cbn;
      split_cases; done.
  - rewrite settle_pending; [done..|].
    by eapply wf_issued; [apply reachable_wf|].
Qed.

(** X9 on a [produceMessage] in flight while [loadTopics] finishes. *)
Lemma isLoading_cleared_by_first_to_finish_witness :
  isLoading (state (run [Invoke (ProduceMessage "c" "t" (JS.Obj []));
                         Invoke (LoadTopics "c");
                         Settle 1 (Resolved (JS.Arr []))] init)) = false
  ∧ pending (run [Invoke (ProduceMessage "c" "t" (JS.Obj []));
                  Invoke (LoadTopics "c");
                  Settle 1 (Resolved (JS.Arr []))] init) !! 0%nat
    = Some (produceMessage_k 0).
Proof.
  apply (isLoading_cleared_by_first_to_finish
           (run [Invoke (ProduceMessage "c" "t" (JS.Obj []));
                 Invoke (LoadTopics "c")] init)
           1 0 (doLoad_k "loadTopics:c" 2) (produceMessage_k 0)
           (Resolved (JS.Arr []))).
  - apply reachable_run, reachable_init.
  - discriminate.
  - reflexivity.
  - reflexivity.
  - reflexivity.
Defined.

End TopicStoreFacts.

(** ** The connection store *)

Module ConnectionStoreFacts.

Import ConnectionStore.

(** Reading and assigning to [connections], case by case. *)
Lemma member_at_own id connections record :
  connections !! id = Some record → member_at id connections = Some (own record).
Proof. intros H. unfold member_at. by rewrite H. Qed.

Lemma assign_own id record connections :
  is_Some (connections !! id) → assign id record connections = <[id := record]> connections.
Proof.
  intros [e He]. unfold assign, sets_prototype.
  rewrite (bool_decide_eq_false_2 (connections !! id = None)) by congruence.
  by rewrite andb_false_r.
Qed.

Lemma assign_other id record connections :
  id ≠ "__proto__" → assign id record connections = <[id := record]> connections.
Proof.
  intros Hid. unfold assign, sets_prototype.
  by apply String.eqb_neq in Hid as ->.
Qed.


Lemma createdAt_or_now_new id connections now :
  connections !! id = None → createdAt_or_now (member_at id connections) now = now.
Proof. intros H. unfold member_at. rewrite H. by case_bool_decide. Qed.

Lemma lookup_assign_ne id record connections j :
  j ≠ id → assign id record connections !! j = connections !! j.
Proof.
  intros Hj. unfold assign. destruct (sets_prototype id connections); [done|].
  by rewrite lookup_insert_ne.
Qed.

(** The ids [uuid-0], [uuid-1], ... are all different, and so one of
    the first [n + 1] is the id of none of [n] records. *)
Lemma candidate_inj : Inj (=) (=) candidate.
Proof.
  intros n1 n2 Heq. unfold candidate in Heq.
  by apply (inj (String.app "uuid-")), (inj pretty) in Heq.
Qed.

Lemma randomUUID_fresh entropy store :
  connections store !! randomUUID entropy store = None
  ∧ ∃ n, randomUUID entropy store = candidate n.
Proof.
  unfold randomUUID.
  set (cs := candidate <$> seq entropy (S (size (connections store)))).
  destruct (list_find (λ id, connections store !! id = None) cs) as [[k id]|] eqn:Hfind.
  - apply list_find_Some in Hfind as (Hk & Hnone & _). cbn. split; [done|].
    subst cs. apply list_lookup_fmap_Some in Hk as (n & -> & _). by exists n.
  - exfalso. apply list_find_None in Hfind.
    assert (Hsub : list_to_set cs ⊆ dom (connections store)).
    { intros id Hid. apply elem_of_list_to_set in Hid.
      rewrite Forall_forall in Hfind. specialize (Hfind id Hid).
      apply elem_of_dom. by destruct (connections store !! id). }
    apply subseteq_size in Hsub.
    rewrite size_dom, size_list_to_set in Hsub.
    + subst cs. rewrite length_fmap, length_seq in Hsub. lia.
    + subst cs. apply (NoDup_fmap_2_strong candidate); [|apply NoDup_seq].
      intros n1 n2 _ _. apply candidate_inj.
Qed.

Lemma randomUUID_not_inherited entropy store :
  randomUUID entropy store ≠ "" ∧ randomUUID entropy store ≠ "__proto__"
  ∧ randomUUID entropy store ∉ Object_prototype.
Proof.
  destruct (randomUUID_fresh entropy store) as (_ & n & ->). unfold candidate.
  repeat split; [done|done|].
  unfold Object_prototype. rewrite !elem_of_cons, elem_of_nil.
  intros H. repeat destruct H as [H|H]; done.
Qed.

(** C7, the claim as stated fails: two saves of the same id within one
    millisecond leave [updatedAt] where it was, so it does not increase
    strictly. *)
Lemma save_twice_within_a_millisecond :
  ¬ (updatedAt (save 1700000000000 "u1" update_a1 (store_with_a1 1600000000000)).1
     < updatedAt (save 1700000000000 "u2" update_a1
                    (save 1700000000000 "u1" update_a1
                       (store_with_a1 1600000000000)).2).1).
Proof. cbn. lia. Qed.

(** Why the statement below asks for a stored [createdAt] other than
    zero: [||] takes a zero for a missing timestamp. *)
Example save_replaces_a_zero_createdAt :
  createdAt (save 1700000000000 "u1" update_a1 (store_with_a1 0)).1 = 1700000000000.
Proof. reflexivity. Qed.

(** C7, amended.  Two saves under the id of an existing record both
    keep its [createdAt] (one that is not zero, which [||] would take
    for a missing one); each sets [updatedAt] to the clock reading of
    its save, so [updatedAt] increases strictly exactly when the clock
    has advanced between the two.  A save without an id generates a new
    id, distinct from every id in the store: it returns a record with
    that id and with [createdAt] and [updatedAt] both the current time,
    and adds it to the store, whose other records stay as they were. *)
Theorem save_identity_semantics store i e now1 now2 uuid1 uuid2 p1 p2 :
  i ≠ "" → connections store !! i = Some e → createdAt e ≠ 0 →
  let first := save now1 uuid1 {| input_id := Some i; input_profile := p1 |} store in
  let second :=
    save now2 uuid2 {| input_id := Some i; input_profile := p2 |} first.2 in
  id first.1 = i ∧ id second.1 = i
  ∧ createdAt first.1 = createdAt e ∧ createdAt second.1 = createdAt e
  ∧ updatedAt first.1 = now1 ∧ updatedAt second.1 = now2
  ∧ (updatedAt first.1 < updatedAt second.1 ↔ now1 < now2)
  ∧ connections second.2 !! i = Some second.1
  ∧ (∀ now entropy p,
       let fresh :=
         save now (randomUUID entropy store)
           {| input_id := None; input_profile := p |} store in
       id fresh.1 = randomUUID entropy store
       ∧ connections store !! id fresh.1 = None
       ∧ (∀ j, is_Some (connections store !! j) → id fresh.1 ≠ j)
       ∧ createdAt fresh.1 = now ∧ updatedAt fresh.1 = now
       ∧ connections fresh.2 = <[id fresh.1 := fresh.1]> (connections store)
       ∧ get (id fresh.1) fresh.2 = Some (own fresh.1)
       ∧ size (connections fresh.2) = S (size (connections store))
       ∧ (∀ j r, connections store !! j = Some r →
            connections fresh.2 !! j = Some r)).
Proof.
  intros Hi He Hc first second.
  assert (Hid : ∀ uuid, id_or_random (Some i) uuid = i).
  { intros uuid. unfold id_or_random. by rewrite (proj2 (String.eqb_neq i "") Hi). }
  assert (Hc0 : (createdAt e =? 0) = false) by by apply Z.eqb_neq.
  assert (H1 : id first.1 = i ∧ createdAt first.1 = createdAt e ∧ updatedAt first.1 = now1
               ∧ connections first.2 !! i = Some first.1).
  { subst first. unfold save. cbn -[id_or_random]. rewrite Hid.
    rewrite (member_at_own _ _ _ He), assign_own by done. cbn.
    rewrite Hc0. by rewrite lookup_insert_eq. }
  destruct H1 as (Hf1 & Hf2 & Hf3 & Hf4).
  assert (H2 : id second.1 = i ∧ createdAt second.1 = createdAt e
               ∧ updatedAt second.1 = now2
               ∧ connections second.2 !! i = Some second.1).
  { subst second. unfold save at 1 2 3 4. cbn -[id_or_random first]. rewrite Hid.
    rewrite (member_at_own _ _ _ Hf4), assign_own by done. cbn -[first].
    rewrite Hf2, Hc0. by rewrite lookup_insert_eq. }
  destruct H2 as (Hs1 & Hs2 & Hs3 & Hs4).
  do 8 (split; [done || lia|]).
  intros now entropy p fresh.
  destruct (randomUUID_fresh entropy store) as [Hnone _].
  destruct (randomUUID_not_inherited entropy store) as (_ & Hproto & Hinh).
  assert (Hm : member_at (randomUUID entropy store) (connections store) = None).
  { unfold member_at. by rewrite Hnone, bool_decide_eq_false_2. }
  subst fresh. unfold save, get. cbn -[member_at assign randomUUID].
  rewrite Hm, assign_other by done. cbn -[member_at randomUUID].
  repeat split; try done.
  - intros j [x Hj] <-. congruence.
  - unfold member_at. by rewrite lookup_insert_eq.
  - by apply map_size_insert_None.
  - intros j r Hj. rewrite lookup_insert_ne; [done|]. intros <-. congruence.
Qed.

(** C7 on two saves of [a1] one millisecond apart. *)
Lemma save_identity_semantics_witness :
  createdAt (save 1700000000001 "u2" update_a1
               (save 1700000000000 "u1" update_a1 (store_with_a1 1600000000000)).2).1
  = 1600000000000
  ∧ updatedAt (save 1700000000000 "u1" update_a1 (store_with_a1 1600000000000)).1
    < updatedAt (save 1700000000001 "u2" update_a1
                   (save 1700000000000 "u1" update_a1 (store_with_a1 1600000000000)).2).1.
Proof.
  destruct (save_identity_semantics (store_with_a1 1600000000000) "a1"
              {| id := "a1"; profile := local_profile;
                 createdAt := 1600000000000; updatedAt := 1600000000000 |}
              1700000000000 1700000000001 "u1" "u2" local_profile local_profile)
    as (_ & _ & _ & Hc & _ & _ & Hu & _).
  - discriminate.
  - reflexivity.
  - discriminate.
  - split; [exact Hc|]. apply Hu. reflexivity.
Defined.

(** C8, the claim as stated fails: when the deletion of the corrupted
    file fails, the failure is swallowed and the file is still in place
    when the store is opened. *)
Lemma corrupted_file_survives_a_failed_unlink :
  (prevalidate parses_empty_object_only false (Content "not json")).1
  = Content "not json".
Proof. reflexivity. Qed.

(** C8, amended.  For a file whose contents fail [JSON.parse], the
    check before opening never throws and logs its warning.  If the
    deletion goes through, no file is left when the store is opened,
    the constructor does not throw, and the store starts with no
    connections.  If the deletion fails, the failure is swallowed: the
    file stays and the store is opened on it as it is. *)
Theorem corrupted_store_recovery JSON_parses read_existing encryptionKey content :
  JSON_parses content = false →
  prevalidate JSON_parses true (Content content) = (Absent, true)
  ∧ constructor JSON_parses read_existing encryptionKey true (Content content)
    = Some {| connections := ∅ |}
  ∧ prevalidate JSON_parses false (Content content) = (Content content, true)
  ∧ constructor JSON_parses read_existing encryptionKey false (Content content)
    = Store_new read_existing encryptionKey (Content content).
Proof.
  intros Hbad. unfold constructor, prevalidate. rewrite Hbad. done.
Qed.

(** C8 on a file that is not JSON and a deletion that goes through. *)
Lemma corrupted_store_recovery_witness :
  constructor parses_empty_object_only (λ _ _, None) "0123456789abcdef" true
    (Content "not json")
  = Some {| connections := ∅ |}.
Proof.
  destruct (corrupted_store_recovery parses_empty_object_only (λ _ _, None)
              "0123456789abcdef" "not json") as (_ & H & _).
  - reflexivity.
  - exact H.
Defined.




(** *** Further properties of the connection store *)

(** X10.  Except for the id [__proto__] without a record, which is
    not stored, what [save] returns is what [get] then finds under the
    id of the returned record, and the number of records grows by one
    for an id that had no record and stays the same otherwise; every
    other id is left as it was in all cases. *)
Theorem save_then_get now uuid connection store :
  (sets_prototype (id (save now uuid connection store).1) (connections store) = false →
   get (id (save now uuid connection store).1) (save now uuid connection store).2
   = Some (own (save now uuid connection store).1)
   ∧ (connections store !! id (save now uuid connection store).1 = None →
      size (connections (save now uuid connection store).2)
      = S (size (connections store))))
  ∧ (sets_prototype (id (save now uuid connection store).1) (connections store) = true →
     (save now uuid connection store).2 = store
     ∧ get (id (save now uuid connection store).1) (save now uuid connection store).2
       = Some (inherited "__proto__"))
  ∧ (sets_prototype (id (save now uuid connection store).1) (connections store) = true
     ↔ id (save now uuid connection store).1 = "__proto__"
       ∧ connections store !! "__proto__" = None)
  ∧ (∀ j, j ≠ id (save now uuid connection store).1 →
       get j (save now uuid connection store).2 = get j store)
  ∧ (is_Some (connections store !! id (save now uuid connection store).1) →
     size (connections (save now uuid connection store).2)
     = size (connections store)).
Proof.
  unfold get, save. cbn -[member_at assign sets_prototype].
  set (i := id_or_random (input_id connection) uuid).
  set (r := Build_KafkaConnection i _ _ _).
  split; [|split; [|split; [|split]]].
  - intros Hs. unfold assign. rewrite Hs. unfold member_at.
    rewrite lookup_insert_eq. split; [done|].
    intros Hnone. by apply map_size_insert_None.
  - intros Hs. unfold assign. rewrite Hs. split; [by destruct store|].
    unfold sets_prototype in Hs. apply andb_true_iff in Hs as [Hi Hnone].
    apply String.eqb_eq in Hi. apply bool_decide_eq_true in Hnone.
    rewrite Hi in *. unfold member_at. by rewrite Hnone.
  - unfold sets_prototype.
    rewrite andb_true_iff, String.eqb_eq, bool_decide_eq_true.
    split; intros [Hi Hnone]; (split; [done|]); by rewrite Hi in *.
  - intros j Hj. unfold member_at. by rewrite lookup_assign_ne.
  - intros Hsome. rewrite assign_own by done.
    destruct Hsome as [e He]. by eapply map_size_insert_Some.
Qed.

(** X11.  [delete] removes the record of the id and nothing else:
    afterwards [get] finds under that id only what [Object.prototype]
    has under it, and [undefined] for any other name.  For an id
    without a record [delete] changes nothing; and it undoes a [save]
    under an id that had no record. *)
Theorem delete_semantics i store :
  connections (delete i store) !! i = None
  ∧ get i (delete i store)
    = (if bool_decide (i ∈ Object_prototype) then Some (inherited i) else None)
  ∧ (∀ j, j ≠ i → get j (delete i store) = get j store)
  ∧ (connections store !! i = None → delete i store = store)
  ∧ (∀ now uuid connection,
       connections store !! id (save now uuid connection store).1 = None →
       delete (id (save now uuid connection store).1)
         (save now uuid connection store).2 = store).
Proof.
  unfold get, delete. repeat apply conj.
  - apply lookup_delete_eq.
  - unfold member_at. cbn. by rewrite lookup_delete_eq.
  - intros j Hj. unfold member_at. cbn. by rewrite lookup_delete_ne.
  - intros Hnone. destruct store as [cs]. cbn in *. by rewrite delete_id.
  - intros now uuid connection. unfold save. cbn -[member_at assign].
    intros Hnone. destruct store as [cs]. cbn -[member_at assign] in *.
    unfold assign. destruct (sets_prototype _ _).
    + by rewrite delete_id.
    + by rewrite delete_insert_eq, delete_id.
Qed.

Lemma lookup_assign_Some id record connections k r :
  assign id record connections !! k = Some r →
  (k = id ∧ r = record) ∨ connections !! k = Some r.
Proof.
  unfold assign. destruct (sets_prototype id connections); [by right|].
  rewrite lookup_insert_Some. intros [[<- <-]|[_ Hr]]; [by left|by right].
Qed.

Lemma keyed_by_id_apply store op : keyed_by_id store → keyed_by_id (apply store op).
Proof.
  intros Hs k r. destruct op as [now uuid connection|i]; cbn -[member_at assign].
  - intros [[-> ->]|Hr]%lookup_assign_Some; [done|by apply Hs].
  - rewrite lookup_delete_Some. intros [_ Hr]. by apply Hs.
Qed.

(** X12.  Every record is stored under its own id: this holds in the
    empty store and is kept by every [save] and [delete], so it holds
    after any sequence of operations. *)
Theorem records_keyed_by_id ops store :
  keyed_by_id store → keyed_by_id (apply_all ops store).
Proof.
  revert store. induction ops as [|op ops IH]; intros store Hs; [done|].
  apply IH. by apply keyed_by_id_apply.
Qed.

Lemma records_keyed_by_id_witness :
  keyed_by_id
    (apply_all [Save 1700000000000 "u1" update_a1;
                Save 1700000000001 "u2"
                  {| input_id := None; input_profile := local_profile |};
                Delete "a1"] empty_store).
Proof.
  apply records_keyed_by_id. intros k r Hr. cbn in Hr.
  by rewrite lookup_empty in Hr.
Defined.

(** X13.  As long as [randomUUID()] returns non-empty strings, no
    record is ever stored under the empty string, whatever ids the
    callers pass. *)
Theorem empty_key_never_used ops store :
  uuids_nonempty ops →
  get "" store = None → get "" (apply_all ops store) = None.
Proof.
  assert (Hget : ∀ s, get "" s = None ↔ connections s !! "" = None).
  { intros s. unfold get, member_at.
    destruct (connections s !! ""); [done|]. split; [done|intros _; reflexivity]. }
  revert store. induction ops as [|op ops IH]; intros store Hu Hs; [done|].
  apply Forall_cons in Hu as [Hop Hu]. apply IH; [done|].
  apply Hget. apply Hget in Hs. destruct op as [now uuid connection|i];
    cbn -[member_at assign].
  - rewrite lookup_assign_ne; [done|]. unfold id_or_random.
    destruct (input_id connection) as [given|]; [|done].
    destruct (String.eqb given "") eqn:Hg; [done|].
    by apply String.eqb_neq in Hg.
  - rewrite lookup_delete_None. by right.
Qed.

Lemma empty_key_never_used_witness :
  get "" (apply_all [Save 1700000000000 "u1"
                       {| input_id := Some ""; input_profile := local_profile |};
                     Delete ""] (store_with_a1 1600000000000))
  = None.
Proof.
  apply empty_key_never_used.
  - repeat constructor. discriminate.
  - reflexivity.
Defined.

Lemma timestamps_ordered_apply t store op :
  timestamps_ordered t store → clock_from t [op] →
  timestamps_ordered (match op with Save now _ _ => now | Delete _ => t end)
    (apply store op).
Proof.
  intros Hs Hc k r. destruct op as [now uuid connection|i]; cbn -[member_at assign] in *.
  - destruct Hc as [Hnow _].
    intros [[_ ->]|Hr]%lookup_assign_Some.
    + cbn -[member_at]. split; [|lia].
      destruct (connections store !! id_or_random (input_id connection) uuid)
        as [e|] eqn:He.
      * rewrite (member_at_own _ _ _ He). cbn. destruct (Hs _ _ He). case_match; lia.
      * rewrite createdAt_or_now_new by done. lia.
    + destruct (Hs _ _ Hr). lia.
  - rewrite lookup_delete_Some. intros [_ Hr]. exact (Hs _ _ Hr).
Qed.

(** X14.  Take a store in which every record has [createdAt] at most
    [updatedAt] and [updatedAt] at most [t] (the empty store is one,
    for any [t]), and saves whose clock readings start at [t] or later
    and never go back.  Then after any sequence of saves and deletes
    every record has [createdAt] at most [updatedAt], and [updatedAt]
    at most the clock reading of the last save.  Without the bound on
    the stored [updatedAt] this fails: a save at an earlier time than
    a record's [createdAt] keeps the [createdAt] and sets [updatedAt]
    before it. *)
Theorem created_before_updated t ops store :
  timestamps_ordered t store → clock_from t ops →
  timestamps_ordered (last_reading t ops) (apply_all ops store).
Proof.
  revert t store. induction ops as [|op ops IH]; intros t store Hs Hc; [done|].
  pose proof (timestamps_ordered_apply t store op Hs) as Hstep.
  destruct op as [now uuid connection|i]; cbn -[apply] in *.
  - destruct Hc as [Hnow Hc]. apply IH; [|done]. by apply Hstep.
  - apply IH; [|done]. by apply Hstep.
Qed.

Lemma created_before_updated_witness :
  timestamps_ordered 1700000000001
    (apply_all [Save 1700000000000 "u1" update_a1;
                Save 1700000000001 "u2" update_a1] empty_store).
Proof.
  apply (created_before_updated 0
           [Save 1700000000000 "u1" update_a1; Save 1700000000001 "u2" update_a1]
           empty_store).
  - intros k r Hr. cbn in Hr. by rewrite lookup_empty in Hr.
  - cbn. lia.
Defined.

(** The bound on the stored [updatedAt] cannot be dropped. *)
Example save_before_createdAt :
  createdAt (save 50 "u1" update_a1 (store_with_a1 100)).1 = 100
  ∧ updatedAt (save 50 "u1" update_a1 (store_with_a1 100)).1 = 50.
Proof. split; reflexivity. Qed.

(** X15.  The check before opening never changes what a file holds:
    afterwards the file is as it was or gone.  A file that parses is
    left alone and nothing is logged; the warning is logged exactly
    when there is a file that cannot be read or does not parse, and
    then the file is gone if the deletion went through.  After such a
    deletion a second check finds nothing to do. *)
Theorem prevalidate_is_conservative JSON_parses unlink_succeeds f :
  ((prevalidate JSON_parses unlink_succeeds f).1 = f
   ∨ (prevalidate JSON_parses unlink_succeeds f).1 = Absent)
  ∧ (∀ content, f = Content content → JSON_parses content = true →
       prevalidate JSON_parses unlink_succeeds f = (f, false))
  ∧ ((prevalidate JSON_parses unlink_succeeds f).2 = true ↔
     f = Unreadable ∨ ∃ content, f = Content content ∧ JSON_parses content = false)
  ∧ ((prevalidate JSON_parses unlink_succeeds f).2 = false →
     (prevalidate JSON_parses unlink_succeeds f).1 = f)
  ∧ (unlink_succeeds = true →
     prevalidate JSON_parses unlink_succeeds
       (prevalidate JSON_parses unlink_succeeds f).1
     = ((prevalidate JSON_parses unlink_succeeds f).1, false)).
Proof.
  unfold prevalidate. split; [|split; [|split; [|split]]].
  - destruct f as [| |content]; cbn; [by left|destruct unlink_succeeds; cbn; auto|].
    destruct (JSON_parses content), unlink_succeeds; cbn; auto.
  - intros content -> Hp. by rewrite Hp.
  - destruct f as [| |content]; cbn.
    + split; [done|]. intros [?|(? & ? & ?)]; congruence.
    + split; [auto|done].
    + destruct (JSON_parses content) eqn:Hp; cbn.
      * split; [done|]. intros [?|(? & ? & ?)]; congruence.
      * split; [|done]. intros _. right. by exists content.
  - destruct f as [| |content]; cbn; [done..|].
    by destruct (JSON_parses content).
  - intros ->. destruct f as [| |content]; cbn; [done..|].
    destruct (JSON_parses content) eqn:Hp; cbn; [|done]. by rewrite Hp.
Qed.

(** X16.  The encryption key has 32 characters whenever the digest
    has the 64 of a SHA-256 digest in hexadecimal, with or without a
    machine id.  Without a machine id the key depends on the host
    name, the user name and the home directory only through the text
    that joins them with dashes, so a dash can move from one to the
    other without changing the key. *)
Theorem encryption_key_shape sha256_hex machineId hostname username homedir :
  (∀ s, String.length (sha256_hex s) = 64%nat) →
  String.length (deriveEncryptionKey sha256_hex machineId hostname username homedir)
  = 32%nat
  ∧ ∀ middle,
      deriveEncryptionKey sha256_hex None (hostname +:+ "-" +:+ middle) username homedir
      = deriveEncryptionKey sha256_hex None hostname (middle +:+ "-" +:+ username) homedir.
Proof.
  intros Hlen. split.
  - unfold deriveEncryptionKey.
    destruct machineId; rewrite JSFacts.length_substring, Hlen; done.
  - intros middle. unfold deriveEncryptionKey.
    by rewrite !JSFacts.append_assoc.
Qed.

Lemma encryption_key_shape_witness :
  String.length (deriveEncryptionKey constant_digest None "host" "user" "/home/user")
  = 32%nat.
Proof.
  apply (encryption_key_shape constant_digest None "host" "user" "/home/user").
  reflexivity.
Defined.

End ConnectionStoreFacts.

(** ** The connection form *)

Module ConnectionFormFacts.

Import Stdlib.Strings.Ascii.
Import JSFacts ConnectionForm.

Lemma eqb_empty s : String.eqb s "" = true ↔ s = "".
Proof. apply String.eqb_eq. Qed.

Lemma eqb_nonempty s : String.eqb s "" = false ↔ s ≠ "".
Proof. apply String.eqb_neq. Qed.

(** *** Trimming *)

Lemma trimEnd_cons c s :
  trimEnd (String c s)
  = if is_whitespace c && String.eqb (trimEnd s) "" then "" else String c (trimEnd s).
Proof. done. Qed.

Lemma trimEnd_blank s : trimEnd s = "" ↔ every is_whitespace s = true.
Proof.
  induction s as [|c s IH]; [done|]. rewrite trimEnd_cons. cbn [every].
  destruct (is_whitespace c); cbn.
  - destruct (String.eqb (trimEnd s) "") eqn:He.
    + apply eqb_empty in He. by rewrite <- IH.
    + apply eqb_nonempty in He. split; [done|]. intros Hs. by apply IH in Hs.
  - done.
Qed.

Lemma trimStart_blank s : trimStart s = "" ↔ every is_whitespace s = true.
Proof.
  induction s as [|c s IH]; [done|]. cbn. by destruct (is_whitespace c).
Qed.

Lemma every_trimStart p s : every p s = true → every p (trimStart s) = true.
Proof.
  induction s as [|c s IH]; [done|]. cbn. intros [Hc Hs]%andb_true_iff.
  destruct (is_whitespace c); [by apply IH|]. cbn. by rewrite Hc, Hs.
Qed.

Lemma every_trimEnd p s : every p s = true → every p (trimEnd s) = true.
Proof.
  induction s as [|c s IH]; [done|]. rewrite trimEnd_cons. cbn [every].
  intros [Hc Hs]%andb_true_iff.
  destruct (is_whitespace c && String.eqb (trimEnd s) ""); [done|].
  cbn. by rewrite Hc, IH.
Qed.

Lemma every_trim p s : every p s = true → every p (trim s) = true.
Proof. intros Hs. by apply every_trimEnd, every_trimStart. Qed.

(** [trim] gives the empty string exactly on strings of white space. *)
Lemma trim_blank s : trim s = "" ↔ every is_whitespace s = true.
Proof.
  unfold trim. rewrite trimEnd_blank. split.
  - intros Ht. induction s as [|c s IH]; [done|]. cbn in *.
    destruct (is_whitespace c) eqn:Hc; [by apply IH|].
    cbn in Ht. by rewrite Hc in Ht.
  - apply every_trimStart.
Qed.

Lemma trimEnd_idemp s : trimEnd (trimEnd s) = trimEnd s.
Proof.
  induction s as [|c s IH]; [done|]. rewrite trimEnd_cons.
  destruct (is_whitespace c && String.eqb (trimEnd s) "") eqn:Hb; [done|].
  by rewrite trimEnd_cons, IH, Hb.
Qed.

Lemma trimStart_starts_clean s : starts_clean (trimStart s).
Proof.
  induction s as [|c s IH]; [done|]. cbn.
  by destruct (is_whitespace c) eqn:Hc.
Qed.

Lemma trimStart_id s : starts_clean s → trimStart s = s.
Proof. destruct s as [|c s]; [done|]. cbn. by intros ->. Qed.

Lemma trimEnd_starts_clean s : starts_clean s → starts_clean (trimEnd s).
Proof.
  destruct s as [|c s]; [done|]. cbn [starts_clean]. intros Hc.
  rewrite trimEnd_cons, Hc. done.
Qed.

Lemma trim_idemp s : trim (trim s) = trim s.
Proof.
  unfold trim. rewrite (trimStart_id (trimEnd _)).
  - apply trimEnd_idemp.
  - apply trimEnd_starts_clean, trimStart_starts_clean.
Qed.

Lemma trim_space s : trim (String " " s) = trim s.
Proof. done. Qed.

(** *** Splitting at commas *)

Lemma split_first_cons c s :
  split_first (String c s)
  = if Ascii.eqb c ","%char
    then ("", (split_first s).1 :: (split_first s).2)
    else (String c (split_first s).1, (split_first s).2).
Proof. done. Qed.

Lemma split_append b s :
  every (λ c, negb (is_comma c)) b = true →
  split_first (b +:+ s) = (b +:+ (split_first s).1, (split_first s).2).
Proof.
  induction b as [|c b IH]; intros Hb.
  - rewrite !append_nil_l. by destruct (split_first s).
  - cbn in Hb. apply andb_true_iff in Hb as [Hc Hb].
    rewrite !append_cons, split_first_cons, (IH Hb). unfold is_comma in Hc.
    by destruct (Ascii.eqb c ","%char).
Qed.

Lemma split_no_comma b :
  every (λ c, negb (is_comma c)) b = true → split b = [b].
Proof.
  intros Hb. unfold split. rewrite <- (append_nil_r b) at 1 2.
  rewrite (split_append b "" Hb). cbn. by rewrite append_nil_r.
Qed.

Lemma every_split p s :
  every p s = true → Forall (λ piece, every p piece = true) (split s).
Proof.
  unfold split. induction s as [|c s IH]; intros Hs.
  { by repeat constructor. }
  cbn in Hs. apply andb_true_iff in Hs as [Hc Hs].
  apply IH in Hs. apply Forall_cons in Hs as [H1 H2].
  rewrite split_first_cons. destruct (Ascii.eqb c ","%char); cbn.
  - by repeat constructor.
  - constructor; [|done]. cbn. by rewrite Hc, H1.
Qed.

(** No piece of [s.split(',')] has a comma. *)
Lemma split_pieces_no_comma s :
  Forall (λ piece, every (λ c, negb (is_comma c)) piece = true) (split s).
Proof.
  unfold split. induction s as [|c s IH]; [by repeat constructor|].
  apply Forall_cons in IH as [H1 H2]. rewrite split_first_cons.
  destruct (Ascii.eqb c ","%char) eqn:Hc; cbn.
  - by repeat constructor.
  - constructor; [|done]. cbn. unfold is_comma at 1. by rewrite Hc, H1.
Qed.

(** Every piece is blank exactly when the text has white space and
    commas only. *)
Lemma split_pieces_blank s :
  Forall (λ piece, every is_whitespace piece = true) (split s)
  ↔ every (λ c, is_whitespace c || is_comma c) s = true.
Proof.
  unfold split. induction s as [|c s IH]; [cbn; split; [done|by repeat constructor]|].
  rewrite split_first_cons. cbn [every]. unfold is_comma at 1.
  rewrite Forall_cons in IH.
  destruct (Ascii.eqb c ","%char) eqn:Hc; cbn [fst snd].
  - rewrite orb_true_r. cbn. rewrite <- IH, !Forall_cons. cbn. tauto.
  - rewrite orb_false_r, Forall_cons. cbn [every].
    rewrite !andb_true_iff, <- IH. tauto.
Qed.

(** *** Joining *)

Lemma join_fold sep acc ps :
  fold_left (λ acc q, acc +:+ sep +:+ q) ps acc
  = acc +:+ fold_left (λ acc q, acc +:+ sep +:+ q) ps "".
Proof.
  revert acc. induction ps as [|p ps IH]; intros acc; cbn.
  - by rewrite append_nil_r.
  - rewrite append_nil_l, IH, (IH (sep +:+ p)), append_assoc. done.
Qed.

Lemma join_cons sep p q ps :
  JS.join sep (p :: q :: ps) = p +:+ sep +:+ JS.join sep (q :: ps).
Proof.
  unfold JS.join. cbn. rewrite join_fold, (join_fold sep q).
  by rewrite !append_assoc.
Qed.

Lemma every_append p s1 s2 :
  every p (s1 +:+ s2) = every p s1 && every p s2.
Proof.
  induction s1 as [|c s1 IH]; [done|].
  rewrite append_cons. cbn. by rewrite IH, andb_assoc.
Qed.

(** *** The broker list *)

Lemma clean_nonblank b : clean b → every is_whitespace b = false.
Proof.
  intros (Hne & Ht & _). destruct (every is_whitespace b) eqn:Hb; [|done].
  apply trim_blank in Hb. congruence.
Qed.

Lemma trim_split_join bs :
  Forall clean bs →
  trim <$> split (JS.join ", " bs) = match bs with [] => [""] | _ => bs end.
Proof.
  induction 1 as [|b bs Hb Hbs IH]; [done|].
  destruct bs as [|q ps].
  - destruct Hb as (_ & Ht & Hc). cbn [JS.join fold_left].
    rewrite (split_no_comma _ Hc). cbn. by rewrite Ht.
  - rewrite join_cons. destruct Hb as (_ & Ht & Hc).
    unfold split in *. rewrite (split_append _ _ Hc).
    change (", " +:+ JS.join ", " (q :: ps))
      with (String ","%char (String " "%char (JS.join ", " (q :: ps)))).
    rewrite !split_first_cons. cbn [Ascii.eqb Bool.eqb fst snd].
    rewrite append_nil_r. cbn [fmap list_fmap]. rewrite trim_space, Ht.
    f_equal. exact IH.
Qed.

Lemma filter_clean bs : Forall clean bs → filter (λ b, b ≠ "") bs = bs.
Proof.
  induction 1 as [|b bs Hb Hbs IH]; [done|].
  rewrite filter_cons_True; [by rewrite IH|]. by destruct Hb.
Qed.

Lemma parse_join bs : Forall clean bs → parse_brokers (JS.join ", " bs) = bs.
Proof.
  intros Hbs. unfold parse_brokers. rewrite (trim_split_join _ Hbs).
  destruct bs as [|b bs]; [done|]. by apply filter_clean.
Qed.

Lemma parse_clean text : Forall clean (parse_brokers text).
Proof.
  unfold parse_brokers. apply Forall_forall. intros b Hb.
  apply list_elem_of_filter in Hb as [Hne Hb].
  apply list_elem_of_fmap in Hb as (piece & -> & Hpiece).
  repeat split; [done|apply trim_idemp|].
  apply every_trim.
  pose proof (split_pieces_no_comma text) as Hall.
  rewrite Forall_forall in Hall. by apply Hall.
Qed.

Lemma parse_empty text :
  parse_brokers text = []
  ↔ every (λ c, is_whitespace c || is_comma c) text = true.
Proof.
  rewrite <- split_pieces_blank. unfold parse_brokers.
  induction (split text) as [|piece pieces IH]; [done|].
  cbn [fmap list_fmap]. rewrite Forall_cons, <- IH, <- trim_blank.
  destruct (decide (trim piece = "")) as [He|Hne].
  - rewrite filter_cons_False by (by intros ?). tauto.
  - rewrite filter_cons_True by done. split; [done|tauto].
Qed.

(** X17.  Whatever is typed into the brokers field, every broker of
    the connection data is non-empty, has no white space at either end
    and no comma; and writing the list out as the form does and
    reading it again gives the same list. *)
Theorem brokers_are_clean s :
  Forall clean (ConnectionStore.brokers (getConnectionData s))
  ∧ parse_brokers (JS.join ", " (ConnectionStore.brokers (getConnectionData s)))
    = ConnectionStore.brokers (getConnectionData s).
Proof.
  cbn. split; [apply parse_clean|apply parse_join, parse_clean].
Qed.

(** X18.  The form shows a broker list by joining it with a comma and
    a space and reads the text back by splitting, trimming and
    dropping empty pieces: this gives back a list of brokers that are
    non-empty, trimmed and free of commas. *)
Theorem brokers_round_trip bs :
  Forall clean bs → parse_brokers (JS.join ", " bs) = bs.
Proof. apply parse_join. Qed.

Lemma brokers_round_trip_witness :
  parse_brokers (JS.join ", " ["broker-1:9092"; "broker-2:9092"])
  = ["broker-1:9092"; "broker-2:9092"].
Proof.
  apply brokers_round_trip. repeat constructor; try done; vm_compute; done.
Defined.

(** X19.  [handleSave] refuses the form exactly when the name or the
    brokers text is blank.  A request it sends has an empty broker list
    exactly when the brokers text has white space and commas only: a
    text such as a single comma passes the check and is sent without
    any broker. *)
Theorem handleSave_validation connection s :
  (handleSave connection s = None
   ↔ every is_whitespace (name s) = true ∨ every is_whitespace (brokers s) = true)
  ∧ (∀ r, handleSave connection s = Some r →
       (ConnectionStore.brokers (request_data r) = []
        ↔ every (λ c, is_whitespace c || is_comma c) (brokers s) = true)).
Proof.
  unfold handleSave. split.
  - rewrite <- !trim_blank, <- !eqb_empty.
    destruct (String.eqb (trim (name s)) ""), (String.eqb (trim (brokers s)) "");
      cbn; destruct connection; intuition congruence.
  - intros r Hr. rewrite <- parse_empty.
    destruct (_ || _); [done|].
    destruct connection; injection Hr as <-; done.
Qed.

Lemma handleSave_validation_witness :
  handleSave None (initial None "#3b82f6") = None
  ∧ ∀ r, handleSave (Some sample_connection) (initial (Some sample_connection) "") = Some r →
      ConnectionStore.brokers (request_data r) ≠ [].
Proof.
  split.
  - by apply (handleSave_validation None (initial None "#3b82f6")); left.
  - intros r Hr Hnone.
    apply (proj2 (handleSave_validation _ _) r Hr) in Hnone.
    vm_compute in Hnone. discriminate.
Defined.

(** *** The SSL setting *)

Lemma kept_reopened field :
  content <$> getInitialCertFile field
  = match field with
    | Some value => if String.eqb value "" then None else Some value
    | None => None
    end.
Proof. destruct field as [value|]; [|done]. cbn. by destruct (String.eqb value ""). Qed.

(** Whatever the state of the form, the [ssl] value it builds is
    missing, [true], or a TLS configuration with at least one field:
    never [false] and never an empty configuration; and
    [rejectUnauthorized] is never stored as [true]. *)
Theorem getSslValue_shapes s :
  match getSslValue s with
  | None => sslEnabled s = false
  | Some (ConnectionStore.SslSimple enabled) => enabled = true ∧ sslEnabled s = true
  | Some (ConnectionStore.SslCertificates tls) =>
      sslEnabled s = true ∧ sslMode s = certificates
      ∧ keys tls ≠ []
      ∧ ConnectionStore.rejectUnauthorized tls ≠ Some true
  end.
Proof.
  unfold getSslValue. destruct (sslEnabled s); cbn [negb]; [|done].
  destruct (sslMode s); [done|]. cbv zeta.
  match goal with
  | |- context [(length (keys ?t) =? 0)%nat] =>
      destruct (length (keys t) =? 0)%nat eqn:Hk
  end; [done|].
  apply Nat.eqb_neq in Hk. repeat split.
  - intros He. by rewrite He in Hk.
  - cbn. by destruct (rejectUnauthorized s).
Qed.

Lemma ssl_reopened_normal connection randomColor :
  ssl_normal (getSslValue (initial (Some connection) randomColor)) = true.
Proof.
  destruct connection as [i [n bs ssl sasl col] created updated].
  destruct ssl as [[[]|[ca cert key pp ru]]|]; try done.
  unfold getSslValue, initial. cbn -[String.eqb getInitialCertFile].
  rewrite !kept_reopened.
  destruct ca as [ca|], cert as [cert|], key as [key|], pp as [pp|], ru as [[]|];
    cbn -[String.eqb];
    repeat match goal with
    | |- context [String.eqb ?x ""] => destruct (String.eqb x "") eqn:?; cbn -[String.eqb]
    end; try done; by simplify_eq.
Qed.

Lemma ssl_reopened_same connection randomColor :
  ssl_normal (ConnectionStore.ssl (ConnectionStore.profile connection)) = true →
  getSslValue (initial (Some connection) randomColor)
  = ConnectionStore.ssl (ConnectionStore.profile connection).
Proof.
  destruct connection as [i [n bs ssl sasl col] created updated].
  cbn [ConnectionStore.ssl ConnectionStore.profile].
  destruct ssl as [[[]|[ca cert key pp ru]]|]; try done.
  unfold getSslValue, initial, ssl_normal, kept.
  cbn -[String.eqb getInitialCertFile].
  rewrite !kept_reopened.
  destruct ca as [ca|], cert as [cert|], key as [key|], pp as [pp|], ru as [[]|];
    cbn -[String.eqb];
    repeat match goal with
    | |- context [String.eqb ?x ""] => destruct (String.eqb x "") eqn:?; cbn -[String.eqb]
    end; try done.
Qed.

(** X20.  Opening the form on a connection and reading its [ssl] value
    back gives a setting the form shows again as it is; it gives the
    connection's own setting exactly when that one is such a setting.
    So [ssl: false], empty certificate strings and
    [rejectUnauthorized: true] are dropped by opening and saving. *)
Theorem ssl_reopened connection randomColor :
  ssl_normal (getSslValue (initial (Some connection) randomColor)) = true
  ∧ (getSslValue (initial (Some connection) randomColor)
     = ConnectionStore.ssl (ConnectionStore.profile connection)
     ↔ ssl_normal (ConnectionStore.ssl (ConnectionStore.profile connection)) = true).
Proof.
  split; [apply ssl_reopened_normal|]. split.
  - intros <-. apply ssl_reopened_normal.
  - apply ssl_reopened_same.
Qed.

(** *** Saving without a change *)

Lemma string_or_same s : string_or (Some s) "" = s.
Proof. cbn. destruct (String.eqb s "") eqn:He; [|done]. by apply eqb_empty in He. Qed.

Lemma string_or_nonempty s fallback : s ≠ "" → string_or (Some s) fallback = s.
Proof. intros Hs. cbn. by apply eqb_nonempty in Hs as ->. Qed.

Lemma join_clean_nonblank b bs :
  clean b → every is_whitespace (JS.join ", " (b :: bs)) = false.
Proof.
  intros Hb. apply clean_nonblank in Hb.
  destruct bs as [|q ps]; [done|].
  by rewrite join_cons, every_append, Hb.
Qed.

(** X21.  Opening the form on a stored connection and saving without
    touching a field sends that very connection back, provided the
    connection is one the form could have written: a trimmed non-empty
    name, at least one broker and all of them non-empty, trimmed and
    free of commas, an [ssl] setting the form shows as it is, a SASL
    mechanism that is not empty, and a colour. *)
Theorem unchanged_form_saves_the_same connection randomColor :
  let p := ConnectionStore.profile connection in
  trim (ConnectionStore.name p) = ConnectionStore.name p →
  ConnectionStore.name p ≠ "" →
  ConnectionStore.brokers p ≠ [] →
  Forall clean (ConnectionStore.brokers p) →
  ssl_normal (ConnectionStore.ssl p) = true →
  (∀ sasl, ConnectionStore.sasl p = Some sasl → ConnectionStore.mechanism sasl ≠ "") →
  ConnectionStore.color p ≠ "" →
  handleSave (Some connection) (initial (Some connection) randomColor)
  = Some (updateConnection connection).
Proof.
  intros p Hname Hname' Hsome Hclean Hssl Hsasl Hcolor.
  pose proof (ssl_reopened_same connection randomColor Hssl) as Hreopen.
  unfold handleSave.
  assert (Hn : name (initial (Some connection) randomColor) = ConnectionStore.name p).
  { apply string_or_same. }
  assert (Hb : brokers (initial (Some connection) randomColor)
               = JS.join ", " (ConnectionStore.brokers p)).
  { apply string_or_same. }
  rewrite Hn, Hb, Hname.
  apply eqb_nonempty in Hname' as ->.
  destruct (String.eqb (trim (JS.join ", " (ConnectionStore.brokers p))) "") eqn:Hblank.
  { apply eqb_empty, trim_blank in Hblank.
    destruct (ConnectionStore.brokers p) as [|b bs]; [done|].
    apply Forall_cons in Hclean as [Hclean _].
    by rewrite (join_clean_nonblank b bs Hclean) in Hblank. }
  cbn [orb]. do 2 f_equal.
  unfold getConnectionData. rewrite Hn, Hb, Hname, (parse_join _ Hclean), Hreopen.
  destruct connection as [i [n bs ssl sasl col] created updated].
  cbn in Hsasl, Hcolor |- *. f_equal. f_equal.
  - destruct sasl as [[m u pw]|]; [|done]. cbn.
    specialize (Hsasl _ eq_refl). cbn in Hsasl.
    apply eqb_nonempty in Hsasl as ->. f_equal. f_equal.
    + by destruct (String.eqb u "") eqn:He; [apply eqb_empty in He|].
    + by destruct (String.eqb pw "") eqn:He; [apply eqb_empty in He|].
  - by apply eqb_nonempty in Hcolor as ->.
Qed.

Lemma unchanged_form_saves_the_same_witness :
  handleSave (Some sample_connection) (initial (Some sample_connection) "#ef4444")
  = Some (updateConnection sample_connection).
Proof.
  apply unchanged_form_saves_the_same; cbn.
  - reflexivity.
  - discriminate.
  - discriminate.
  - repeat constructor; try discriminate; reflexivity.
  - reflexivity.
  - intros sasl [= <-]. discriminate.
  - discriminate.
Defined.

End ConnectionFormFacts.
